(** * Script Buddy: the script structuring engine

    A shallow embedding of the text-structuring code of the repository:

    - [CharacterRecognitionService.analyzeScriptText] with its private helpers
      ([extractScriptTitle], [isCommonWord], [isSceneDirection],
      [looksLikeDialogue]) from [src/services/character-recognition.service.ts];
    - [parseScript] and the queries [extractCharacters],
      [getLinesForCharacter] and [getCueLines] from
      [src/services/parser.service.ts];
    - [PdfTextExtraction.detectScriptStructure], [cleanPdfText] and
      [organizeExtractedText] from [src/services/pdf-extraction-module.js];
    - [PdfExtractionEngine.atobPolyfill] and [base64ToArrayBuffer] from
      [src/services/pdf-extraction.service.ts];
    - [getCharacterName] of the reader component
      [src/components/ScriptReader/ScriptReader.tsx].

    JavaScript strings are sequences of UTF-16 code units; they are modelled
    as lists of code units.  Regular expressions are embedded as syntax trees
    run by a backtracking matcher with the host's greedy, leftmost semantics.
    A [Map] keeps its insertion order and is modelled as an association list.
    Property accesses on [undefined] raise; this is modelled by [Outcome]. *)

From Stdlib Require Import String Ascii.
From Stdlib Require Import List NArith ZArith Arith Bool Lia.
From Stdlib Require Import Sorted Permutation.
From Stdlib Require Decimal DecimalNat.
Import ListNotations.

Set Implicit Arguments.

(** ** Strings *)

Definition CodeUnit := N.
Definition Str := list CodeUnit.

(** A source literal (ASCII only) as a list of code units. *)
Definition lit (s : string) : Str := map N_of_ascii (list_ascii_of_string s).

Fixpoint eqb_str (a b : Str) : bool :=
  match a, b with
  | [], [] => true
  | x :: a', y :: b' => (x =? y)%N && eqb_str a' b'
  | _, _ => false
  end.

(** ECMAScript WhiteSpace and LineTerminator code points: what [trim] strips
    and what [\s] matches. *)
Definition isLineTerminator (c : CodeUnit) : bool :=
  ((c =? 10) || (c =? 13) || (c =? 8232) || (c =? 8233))%N.

Definition isWhiteSpace (c : CodeUnit) : bool :=
  ((c =? 9) || (c =? 11) || (c =? 12) || (c =? 32) || (c =? 160)
   || (c =? 5760) || ((8192 <=? c) && (c <=? 8202))
   || (c =? 8239) || (c =? 8287) || (c =? 12288) || (c =? 65279))%N
  || isLineTerminator c.

Fixpoint trimStart (s : Str) : Str :=
  match s with
  | c :: s' => if isWhiteSpace c then trimStart s' else s
  | [] => []
  end.

Definition trimEnd (s : Str) : Str := rev (trimStart (rev s)).

Definition trim (s : Str) : Str := trimEnd (trimStart s).

(** [s.split('\n')]: never empty, the empty string splits into one empty
    piece. *)
Fixpoint split_nl (s : Str) : list Str :=
  match s with
  | [] => [[]]
  | c :: s' =>
      if (c =? 10)%N then [] :: split_nl s'
      else match split_nl s' with
           | l :: ls => (c :: l) :: ls
           | [] => [[c]]
           end
  end.

Fixpoint startsWith (p s : Str) : bool :=
  match p, s with
  | [], _ => true
  | x :: p', y :: s' => (x =? y)%N && startsWith p' s'
  | _ :: _, [] => false
  end.

Definition endsWith (p s : Str) : bool := startsWith (rev p) (rev s).

(** [s.includes(c)] and [s.indexOf(c)] for a one-unit needle. *)
Definition includes (c : CodeUnit) (s : Str) : bool := existsb (N.eqb c) s.

Fixpoint indexOf (c : CodeUnit) (s : Str) : option nat :=
  match s with
  | [] => None
  | x :: s' => if (x =? c)%N then Some 0
               else option_map S (indexOf c s')
  end.

(** [s.substring(n)] and [s.substring(0, n)]. *)
Definition substring (n : nat) (s : Str) : Str := skipn n s.
Definition substring0 (n : nat) (s : Str) : Str := firstn n s.

Definition colon : CodeUnit := 58%N.
Definition space : CodeUnit := 32%N.

(** [n.toString()] of a non-negative integer counter. *)
Fixpoint digits (d : Decimal.uint) : Str :=
  match d with
  | Decimal.Nil => []
  | Decimal.D0 d' => 48%N :: digits d'
  | Decimal.D1 d' => 49%N :: digits d'
  | Decimal.D2 d' => 50%N :: digits d'
  | Decimal.D3 d' => 51%N :: digits d'
  | Decimal.D4 d' => 52%N :: digits d'
  | Decimal.D5 d' => 53%N :: digits d'
  | Decimal.D6 d' => 54%N :: digits d'
  | Decimal.D7 d' => 55%N :: digits d'
  | Decimal.D8 d' => 56%N :: digits d'
  | Decimal.D9 d' => 57%N :: digits d'
  end.

Definition toString (n : nat) : Str := digits (Nat.to_uint n).

(** Upper-casing of the ASCII range; [toUpperCase] of the host agrees with it
    on ASCII text. *)
Definition upperUnit (c : CodeUnit) : CodeUnit :=
  if ((97 <=? c) && (c <=? 122))%N then (c - 32)%N else c.

Definition asciiToUpperCase (s : Str) : Str := map upperUnit s.

(** ** Regular expressions *)

Inductive Regex : Type :=
| Empty
| One (p : CodeUnit -> bool)
| Cat (r1 r2 : Regex)
| Alt (r1 r2 : Regex)
| Star (r : Regex)
| Group (i : nat) (r : Regex)
| Bol (multiline : bool)
| Eol (multiline : bool).

Definition Plus (r : Regex) : Regex := Cat r (Star r).

Declare Scope regex_scope.
Delimit Scope regex_scope with re.
Infix ">>" := Cat (at level 41, right associativity) : regex_scope.

(** [r1|r2|...], tried from left to right. *)
Fixpoint anyOf (rs : list Regex) : Regex :=
  match rs with
  | [] => One (fun _ => false)
  | [r] => r
  | r :: rs' => Alt r (anyOf rs')
  end.

(** Character classes of the source patterns. *)
Definition chr (c : ascii) : CodeUnit -> bool := N.eqb (N_of_ascii c).
Definition upperAZ (c : CodeUnit) : bool := ((65 <=? c) && (c <=? 90))%N.
Definition lowerAZ (c : CodeUnit) : bool := ((97 <=? c) && (c <=? 122))%N.
Definition digit (c : CodeUnit) : bool := ((48 <=? c) && (c <=? 57))%N.
Definition letterOrSpace (c : CodeUnit) : bool :=
  upperAZ c || lowerAZ c || isWhiteSpace c.

(** With the [i] flag a pattern letter of the ASCII range matches exactly
    its two ASCII cases: canonicalisation never maps a code unit above 127
    into the ASCII range. *)
Definition chrI (c : ascii) : CodeUnit -> bool :=
  fun x => (upperUnit x =? upperUnit (N_of_ascii c))%N.

Fixpoint word (f : ascii -> CodeUnit -> bool) (s : string) : Regex :=
  match s with
  | EmptyString => Empty
  | String c s' => Cat (One (f c)) (word f s')
  end.

Definition Caps := list (nat * Str).

Definition atBol (multiline : bool) (prev : option CodeUnit) : bool :=
  match prev with
  | None => true
  | Some c => multiline && isLineTerminator c
  end.

Definition atEol (multiline : bool) (s : Str) : bool :=
  match s with
  | [] => true
  | c :: _ => multiline && isLineTerminator c
  end.

Definition Found := (option CodeUnit * Str * Caps)%type.

(** The backtracking matcher, in continuation-passing style.  [prev] is the
    code unit before the current position, [s] the input from the current
    position on.  [Star] is greedy and refuses an iteration that consumes
    nothing; as every iteration shortens the input, [length s] iterations
    always suffice. *)
Fixpoint matchAt (r : Regex) (prev : option CodeUnit) (s : Str) (caps : Caps)
  (k : option CodeUnit -> Str -> Caps -> option Found) {struct r}
  : option Found :=
  match r with
  | Empty => k prev s caps
  | One p =>
      match s with
      | c :: s' => if p c then k (Some c) s' caps else None
      | [] => None
      end
  | Cat r1 r2 =>
      matchAt r1 prev s caps (fun prev' s' caps' => matchAt r2 prev' s' caps' k)
  | Alt r1 r2 =>
      match matchAt r1 prev s caps k with
      | Some x => Some x
      | None => matchAt r2 prev s caps k
      end
  | Star r1 =>
      (fix loop (fuel : nat) (prev : option CodeUnit) (s : Str) (caps : Caps)
         : option Found :=
         match fuel with
         | O => k prev s caps
         | S fuel' =>
             match matchAt r1 prev s caps
                     (fun prev' s' caps' =>
                        if length s' <? length s
                        then loop fuel' prev' s' caps'
                        else None) with
             | Some x => Some x
             | None => k prev s caps
             end
         end) (length s) prev s caps
  | Group i r1 =>
      matchAt r1 prev s caps
        (fun prev' s' caps' =>
           k prev' s' ((i, firstn (length s - length s') s) :: caps'))
  | Bol m => if atBol m prev then k prev s caps else None
  | Eol m => if atEol m s then k prev s caps else None
  end.

Record Match := {
  matched : Str;          (* match[0] *)
  groups : Caps;
  lastPrev : option CodeUnit;
  remainder : Str         (* the input after the match *)
}.

(** The leftmost match at or after the current position. *)
Fixpoint search (r : Regex) (prev : option CodeUnit) (s : Str) : option Match :=
  match matchAt r prev s [] (fun p s' caps => Some (p, s', caps)) with
  | Some (p, s', caps) =>
      Some {| matched := firstn (length s - length s') s;
              groups := caps; lastPrev := p; remainder := s' |}
  | None =>
      match s with
      | [] => None
      | c :: s' => search r (Some c) s'
      end
  end.

(** [re.exec(s)] with [lastIndex = 0], [s.match(re)] without the [g] flag. *)
Definition exec (r : Regex) (s : Str) : option Match := search r None s.

(** [re.test(s)]. *)
Definition test (r : Regex) (s : Str) : bool :=
  match exec r s with Some _ => true | None => false end.

(** [match[i]]. *)
Fixpoint group (i : nat) (caps : Caps) : option Str :=
  match caps with
  | [] => None
  | (j, g) :: caps' => if i =? j then Some g else group i caps'
  end.

(** [s.match(re)] with the [g] flag: all matches, each search resuming where
    the previous match ended (one unit further after an empty match). *)
Fixpoint matchAllFrom (fuel : nat) (r : Regex) (prev : option CodeUnit)
  (s : Str) : list Str :=
  match fuel with
  | O => []
  | S fuel' =>
      match search r prev s with
      | None => []
      | Some m =>
          matched m ::
          match matched m, remainder m with
          | [], [] => []
          | [], c :: s' => matchAllFrom fuel' r (Some c) s'
          | _ :: _, s' => matchAllFrom fuel' r (lastPrev m) s'
          end
      end
  end.

Definition matchAll (r : Regex) (s : Str) : list Str :=
  matchAllFrom (S (length s)) r None s.

(** ** Host containers and exceptions *)

(** A [Map] with string keys: insertion-ordered, keys unique. *)
Definition JsMap (V : Type) := list (Str * V).

Fixpoint Map_get (V : Type) (m : JsMap V) (k : Str) : option V :=
  match m with
  | [] => None
  | (k', v) :: m' => if eqb_str k' k then Some v else Map_get m' k
  end.

Fixpoint Map_set (V : Type) (m : JsMap V) (k : Str) (v : V) : JsMap V :=
  match m with
  | [] => [(k, v)]
  | (k', v') :: m' =>
      if eqb_str k' k then (k', v) :: m' else (k', v') :: Map_set m' k v
  end.

Definition Map_has (V : Type) (m : JsMap V) (k : Str) : bool :=
  match Map_get m k with Some _ => true | None => false end.

Definition Map_keys (V : Type) (m : JsMap V) : list Str := map fst m.
Definition Map_values (V : Type) (m : JsMap V) : list V := map snd m.
Definition Map_entries (V : Type) (m : JsMap V) : list (Str * V) := m.
Definition Map_size (V : Type) (m : JsMap V) : nat := length m.

(** A [Set] of strings: insertion-ordered, no duplicates. *)
Definition Set_add (s : list Str) (x : Str) : list Str :=
  if existsb (eqb_str x) s then s else s ++ [x].

Inductive JsError : Type := TypeError.

(** The result of running code that may raise. *)
Inductive Outcome (A : Type) : Type :=
| Returned (a : A)
| Thrown (e : JsError).

Arguments Returned {A} a.
Arguments Thrown {A} e.

Definition bind (A B : Type) (c : Outcome A) (k : A -> Outcome B) : Outcome B :=
  match c with
  | Returned a => k a
  | Thrown e => Thrown e
  end.

Notation "x <- c ;; k" := (bind c (fun x => k))
  (at level 61, c at next level, right associativity).

(** [o.p] where [o] may be [undefined]. *)
Definition defined (A : Type) (o : option A) : Outcome A :=
  match o with
  | Some a => Returned a
  | None => Thrown TypeError
  end.

(** A loop over an array whose body may raise. *)
Fixpoint forEach (S A : Type) (body : S -> A -> Outcome S) (l : list A) (s : S)
  : Outcome S :=
  match l with
  | [] => Returned s
  | a :: l' => s' <- body s a ;; forEach body l' s'
  end.

(** [a[a.length - 1]], [undefined] on an empty array. *)
Fixpoint lastOf (A : Type) (l : list A) : option A :=
  match l with
  | [] => None
  | [x] => Some x
  | _ :: l' => lastOf l'
  end.

(** In-place update of the last element of an array. *)
Fixpoint updateLast (A : Type) (f : A -> A) (l : list A) : list A :=
  match l with
  | [] => []
  | [x] => [f x]
  | x :: l' => x :: updateLast f l'
  end.

(** ** The data model ([src/types/script.types.ts]) *)

Module Character.
Record t : Type := { id : Str; name : Str }.
End Character.

Module Line.
Record t : Type := {
  id : Str;
  characterId : Str;
  text : Str;
  sceneId : Str;
  isDirection : option bool   (* optional field: [None] when absent *)
}.
Definition appendText (extra : Str) (l : t) : t :=
  {| id := id l; characterId := characterId l; text := text l ++ extra;
     sceneId := sceneId l; isDirection := isDirection l |}.
End Line.

Module Scene.
Record t : Type := { id : Str; name : Str; lines : list Line.t }.
Definition push (l : Line.t) (s : t) : t :=
  {| id := id s; name := name s; lines := lines s ++ [l] |}.
Definition updateLastLine (f : Line.t -> Line.t) (s : t) : t :=
  {| id := id s; name := name s; lines := updateLast f (lines s) |}.
End Scene.

Module Script.
Record t : Type := {
  title : Str;
  characters : list Character.t;
  scenes : list Scene.t
}.
End Script.

(** The sentinel character id of stage directions. *)
Definition noSpeaker : Str := lit "0".

(** Truthiness of a [string | null]. *)
Definition truthy (s : option Str) : bool :=
  match s with
  | Some (_ :: _) => true
  | _ => false
  end.

(** The state the second pass of [analyzeScriptText] threads through its
    loop: [script.scenes], [currentCharacterId] and [lineCounter]. *)
Module Walk.
Record t : Type := {
  scenes : list Scene.t;
  currentCharacterId : option Str;
  lineCounter : nat
}.
End Walk.

(** [Array.prototype.sort] with the comparator [(a, b) => b[1] - a[1]]: the
    host's sort is stable, so the result is the one of any stable sort by
    descending count. *)
Fixpoint insertByCount (e : Str * nat) (l : list (Str * nat))
  : list (Str * nat) :=
  match l with
  | [] => [e]
  | y :: l' => if snd e <? snd y then y :: insertByCount e l' else e :: l
  end.

Definition sortByCount (l : list (Str * nat)) : list (Str * nat) :=
  fold_right insertByCount [] l.

(** [(m.get(k) || 0)]. *)
Definition orZero (o : option nat) : nat :=
  match o with Some n => n | None => 0 end.

(** [characterMentions.set(name, (characterMentions.get(name) || 0) + 1)] *)
Definition recordMention (characterMentions : JsMap nat) (characterName : Str)
  : JsMap nat :=
  Map_set characterMentions characterName
    (orZero (Map_get characterMentions characterName) + 1).

(** ** CharacterRecognitionService
    ([src/services/character-recognition.service.ts]) *)

Section CharacterRecognitionService.

(** [String.prototype.toUpperCase]: the host's Unicode upper-casing, kept
    abstract. *)
Variable toUpperCase : Str -> Str.

(** [[A-Z][A-Za-z\s]+] *)
Definition nameBody : Regex := (One upperAZ >> Plus (One letterOrSpace))%re.

Definition characterPatterns : list Regex :=
  [ (* /^([A-Z][A-Za-z\s]+):/gm *)
    (Bol true >> Group 1 nameBody >> One (chr ":"))%re;
    (* /^([A-Z][A-Za-z\s]+)\s+\(/gm *)
    (Bol true >> Group 1 nameBody >> Plus (One isWhiteSpace)
       >> One (chr "("))%re;
    (* /^\s*([A-Z]{2,})\s*$/gm *)
    (Bol true >> Star (One isWhiteSpace)
       >> Group 1 (One upperAZ >> One upperAZ >> Star (One upperAZ))
       >> Star (One isWhiteSpace) >> Eol true)%re ].

Definition commonWords : list Str :=
  [ lit "IL"; lit "LO"; lit "LA"; lit "I"; lit "GLI"; lit "LE"; lit "UN";
    lit "UNA"; lit "UNO";
    lit "E"; lit "O"; lit "MA"; lit "SE"; lit "PERCH" ++ [201%N];
    lit "QUINDI"; lit "COS" ++ [204%N]; lit "ALLORA";
    lit "ATTO"; lit "SCENA"; lit "FINE"; lit "INIZIO"; lit "SIPARIO";
    lit "ENTRA"; lit "ESCE" ].

Definition isCommonWord (word : Str) : bool :=
  existsb (eqb_str (toUpperCase word)) commonWords.

(** /^(Entra|Esce|Entra in scena|Esce di scena|Si alza|Si siede)/i *)
Definition stageVerbs : Regex :=
  (Bol false
   >> Group 1 (anyOf [ word chrI "Entra"; word chrI "Esce";
                       word chrI "Entra in scena"; word chrI "Esce di scena";
                       word chrI "Si alza"; word chrI "Si siede" ]))%re.

Definition isSceneDirection (line : Str) : bool :=
  if startsWith (lit "(") line && endsWith (lit ")") line then true
  else if test stageVerbs line then true
  else false.

(** /[.!?]$/ *)
Definition endPunctuation : Regex :=
  (One (fun c => chr "." c || chr "!" c || chr "?" c) >> Eol false)%re.

Definition looksLikeDialogue (line : Str) : bool :=
  if length line <? 3 then false
  else if test endPunctuation line then true
  else if startsWith (lit "(") line
          || (eqb_str (toUpperCase line) line && (10 <? length line))
       then false
  else true.

(** The loop of [extractScriptTitle] over the leading lines, with its
    [continue] and [break]. *)
Fixpoint collectTitleCandidates (lines : list Str) (titleCandidates : list Str)
  : list Str :=
  match lines with
  | [] => titleCandidates
  | raw :: rest =>
      let line := trim raw in
      if length line =? 0 then collectTitleCandidates rest titleCandidates
      else
        let titleCandidates' :=
          if (0 <? length line) && (length line <? 60)
             && negb (includes colon line)
          then titleCandidates ++ [line] else titleCandidates in
        if 2 <=? length titleCandidates' then titleCandidates'
        else collectTitleCandidates rest titleCandidates'
  end.

(** /([^\/\\]+)\.(pdf|txt)$/i *)
Definition fileNamePattern : Regex :=
  (Group 1 (Plus (One (fun c => negb (chr "/" c || chr "\" c))))
   >> One (chr ".")
   >> Group 2 (anyOf [word chrI "pdf"; word chrI "txt"])
   >> Eol false)%re.

(** [s.replace(/[_-]/g, ' ')] *)
Definition replaceSeparators (s : Str) : Str :=
  map (fun c => if chr "_" c || chr "-" c then space else c) s.

Definition placeholderTitle : Str := lit "Copione Importato".

Definition extractScriptTitle (rawText : Str) (lines : list Str)
  : Outcome Str :=
  let titleCandidates :=
    collectTitleCandidates (firstn (Nat.min 10 (length lines)) lines) [] in
  match titleCandidates with
  | first :: others =>
      match others with
      | second :: _ =>
          if eqb_str (toUpperCase second) second
             && negb (eqb_str (toUpperCase first) first)
          then Returned second else Returned first
      | [] => Returned first
      end
  | [] =>
      match exec fileNamePattern (substring0 100 rawText) with
      | Some fileName =>
          stem <- defined (group 1 (groups fileName)) ;;
          Returned (replaceSeparators stem)
      | None => Returned placeholderTitle
      end
  end.

(** First pass: [match && match[1]], then [match[1].trim()]. *)
Definition candidateName (line : Str) (pattern : Regex) : option Str :=
  match exec pattern line with
  | Some m =>
      match group 1 (groups m) with
      | Some (c :: g) => Some (trim (c :: g))
      | _ => None
      end
  | None => None
  end.

Definition qualifies (characterName : Str) : bool :=
  (1 <? length characterName) && negb (isCommonWord characterName).

Definition mention (characterMentions : JsMap nat) (line : Str)
  (pattern : Regex) : JsMap nat :=
  match candidateName line pattern with
  | Some characterName =>
      if qualifies characterName
      then recordMention characterMentions characterName
      else characterMentions
  | None => characterMentions
  end.

Definition countMentions (lines : list Str) : JsMap nat :=
  fold_left
    (fun characterMentions line =>
       fold_left (fun m pattern => mention m line pattern)
         characterPatterns characterMentions)
    lines [].

Definition likelyCharacters (characterMentions : JsMap nat)
  : list (Str * nat) :=
  sortByCount (filter (fun e => 2 <=? snd e) (Map_entries characterMentions)).

(** [likelyCharacters.forEach(([name, _], index) => characterMap.set(...))] *)
Definition buildCharacterMap (likely : list (Str * nat)) : JsMap Character.t :=
  fold_left
    (fun characterMap ie =>
       let index := fst ie in
       let name := fst (snd ie) in
       Map_set characterMap name
         {| Character.id := toString (index + 1); Character.name := name |})
    (combine (seq 0 (length likely)) likely) [].

(** /^(ATTO|SCENA|ACT|SCENE)\s+([IVX\d]+)/i *)
Definition sceneMarker : Regex :=
  (Bol false
   >> Group 1 (anyOf [ word chrI "ATTO"; word chrI "SCENA";
                       word chrI "ACT"; word chrI "SCENE" ])
   >> Plus (One isWhiteSpace)
   >> Group 2 (Plus (One (fun c => chrI "I" c || chrI "V" c || chrI "X" c
                                   || digit c))))%re.

(** The [for ... of characterMap.keys()] search with its [break]. *)
Definition findSpeaker (characterMap : JsMap Character.t) (line : Str)
  : option (Str * Character.t) :=
  match find (fun name => startsWith (name ++ [colon]) line)
             (Map_keys characterMap) with
  | Some name =>
      match Map_get characterMap name with
      | Some characterMatch => Some (name, characterMatch)
      | None => None
      end
  | None => None
  end.

(** [script.scenes[script.scenes.length - 1].lines.push({...})] with
    [id: (++lineCounter).toString()]. *)
Definition emit (st : Walk.t) (current : option Str) (characterId text : Str)
  (isDirection : option bool) : Outcome Walk.t :=
  scene <- defined (lastOf (Walk.scenes st)) ;;
  let lineCounter := S (Walk.lineCounter st) in
  Returned
    {| Walk.scenes :=
         updateLast
           (Scene.push {| Line.id := toString lineCounter;
                          Line.characterId := characterId;
                          Line.text := text;
                          Line.sceneId := Scene.id scene;
                          Line.isDirection := isDirection |})
           (Walk.scenes st);
       Walk.currentCharacterId := current;
       Walk.lineCounter := lineCounter |}.

(** The last branch of the loop body: [else if (line.length > 0)]. *)
Definition stageDirection (st : Walk.t) (line : Str) : Outcome Walk.t :=
  if 0 <? length line
  then emit st (Walk.currentCharacterId st) noSpeaker line (Some true)
  else Returned st.

(** The body of the second loop of [analyzeScriptText]. *)
Definition segmentLine (characterMap : JsMap Character.t) (st : Walk.t)
  (raw : Str) : Outcome Walk.t :=
  let line := trim raw in
  if length line =? 0 then Returned st
  else if test sceneMarker line then
    Returned
      {| Walk.scenes :=
           Walk.scenes st ++
           [ {| Scene.id := toString (length (Walk.scenes st) + 1);
                Scene.name := line;
                Scene.lines := [] |} ];
         Walk.currentCharacterId := Walk.currentCharacterId st;
         Walk.lineCounter := Walk.lineCounter st |}
  else
    match findSpeaker characterMap line with
    | Some (matchedName, characterMatch) =>
        let currentCharacterId := Character.id characterMatch in
        let dialogText := trim (substring (length matchedName + 1) line) in
        if 0 <? length dialogText
        then emit st (Some currentCharacterId) currentCharacterId dialogText
               None
        else Returned
               {| Walk.scenes := Walk.scenes st;
                  Walk.currentCharacterId := Some currentCharacterId;
                  Walk.lineCounter := Walk.lineCounter st |}
    | None =>
        match Walk.currentCharacterId st with
        | Some (c :: cs) =>
            (* [currentCharacterId] is truthy *)
            let current := c :: cs in
            if (0 <? length line) && negb (isSceneDirection line) then
              (* reached unless the line was merged ([continue]) *)
              let newLine :=
                if looksLikeDialogue line
                then emit st (Walk.currentCharacterId st) current line None
                else emit st (Walk.currentCharacterId st) noSpeaker line
                       (Some true) in
              previousScene <- defined (lastOf (Walk.scenes st)) ;;
              if 0 <? length (Scene.lines previousScene) then
                previousLine <- defined (lastOf (Scene.lines previousScene)) ;;
                if eqb_str (Line.characterId previousLine) current then
                  Returned
                    {| Walk.scenes :=
                         updateLast
                           (Scene.updateLastLine
                              (Line.appendText (space :: line)))
                           (Walk.scenes st);
                       Walk.currentCharacterId := Walk.currentCharacterId st;
                       Walk.lineCounter := Walk.lineCounter st |}
                else newLine
              else newLine
            else stageDirection st line
        | _ => stageDirection st line
        end
    end.

Definition initialScene : Scene.t :=
  {| Scene.id := lit "1"; Scene.name := lit "Scena 1"; Scene.lines := [] |}.

(** The loop starts in the implicit first scene, with no speaker. *)
Definition initialWalk : Walk.t :=
  {| Walk.scenes := [initialScene];
     Walk.currentCharacterId := None;
     Walk.lineCounter := 0 |}.

Definition analyzeScriptText (rawText : Str) : Outcome Script.t :=
  let lines := split_nl rawText in
  let characterMentions := countMentions lines in
  let characterMap := buildCharacterMap (likelyCharacters characterMentions) in
  title <- extractScriptTitle rawText lines ;;
  let characters := Map_values characterMap in
  st <- forEach (segmentLine characterMap) lines initialWalk ;;
  Returned {| Script.title := title;
              Script.characters := characters;
              Script.scenes := Walk.scenes st |}.

(** The speaker names the first pass detects, in the order it meets them:
    line by line, pattern by pattern, names of length at most 1 and
    stop-listed words discarded. *)
Definition detectedNames (lines : list Str) : list Str :=
  flat_map
    (fun line =>
       flat_map
         (fun pattern =>
            match candidateName line pattern with
            | Some characterName =>
                if qualifies characterName then [characterName] else []
            | None => []
            end)
         characterPatterns)
    lines.

End CharacterRecognitionService.

(** ** parseScript ([src/services/parser.service.ts]) *)

Module Parse.
(** What the [forEach] of [parseScript] mutates: the script, the character
    map, [currentCharacter] and [lineCounter]. *)
Record t : Type := {
  script : Script.t;
  characterMap : JsMap Character.t;
  currentCharacter : option Str;
  lineCounter : nat
}.
End Parse.

(** /^([A-Za-z\s]+):/ *)
Definition cuePattern : Regex :=
  (Bol false
   >> Group 1 (Plus (One (fun c => upperAZ c || lowerAZ c || isWhiteSpace c)))
   >> One (chr ":"))%re.

(** [script.scenes[0].lines], raising when there is no scene. *)
Definition firstSceneLines (script : Script.t) : Outcome (list Line.t) :=
  scene <- defined (nth_error (Script.scenes script) 0) ;;
  Returned (Scene.lines scene).

Definition updateFirstScene (f : Scene.t -> Scene.t) (script : Script.t)
  : Script.t :=
  {| Script.title := Script.title script;
     Script.characters := Script.characters script;
     Script.scenes :=
       match Script.scenes script with
       | scene :: rest => f scene :: rest
       | [] => []
       end |}.

(** [script.scenes[0].lines.push(newLine)] *)
Definition pushFirstScene (newLine : Line.t) (script : Script.t)
  : Outcome Script.t :=
  _ <- firstSceneLines script ;;
  Returned (updateFirstScene (Scene.push newLine) script).

Definition addCharacter (newCharacter : Character.t) (script : Script.t)
  : Script.t :=
  {| Script.title := Script.title script;
     Script.characters := Script.characters script ++ [newCharacter];
     Script.scenes := Script.scenes script |}.

(** The body of the [textLines.forEach] of [parseScript]. *)
Definition parseLine (st : Parse.t) (textLine : Str) : Outcome Parse.t :=
  match exec cuePattern textLine with
  | Some characterMatch =>
      captured <- defined (group 1 (groups characterMatch)) ;;
      let currentCharacter := trim captured in
      let st1 :=
        if negb (Map_has (Parse.characterMap st) currentCharacter) then
          let newCharacter :=
            {| Character.id := toString (Map_size (Parse.characterMap st) + 1);
               Character.name := currentCharacter |} in
          {| Parse.script := addCharacter newCharacter (Parse.script st);
             Parse.characterMap :=
               Map_set (Parse.characterMap st) currentCharacter newCharacter;
             Parse.currentCharacter := Some currentCharacter;
             Parse.lineCounter := Parse.lineCounter st |}
        else
          {| Parse.script := Parse.script st;
             Parse.characterMap := Parse.characterMap st;
             Parse.currentCharacter := Some currentCharacter;
             Parse.lineCounter := Parse.lineCounter st |} in
      let afterColon :=
        match indexOf colon textLine with
        | Some i => i + 1
        | None => 0
        end in
      let dialogText := trim (substring afterColon textLine) in
      if 0 <? length dialogText then
        speaker <- defined (Map_get (Parse.characterMap st1)
                              currentCharacter) ;;
        let lineCounter := S (Parse.lineCounter st1) in
        script <- pushFirstScene
                    {| Line.id := toString lineCounter;
                       Line.characterId := Character.id speaker;
                       Line.text := dialogText;
                       Line.sceneId := lit "1";
                       Line.isDirection := None |}
                    (Parse.script st1) ;;
        Returned {| Parse.script := script;
                    Parse.characterMap := Parse.characterMap st1;
                    Parse.currentCharacter := Parse.currentCharacter st1;
                    Parse.lineCounter := lineCounter |}
      else Returned st1
  | None =>
      if truthy (Parse.currentCharacter st) && (0 <? length textLine) then
        (* const previousLine = lines[lines.length - 1];
           previousLine.text += ' ' + textLine; *)
        lines <- firstSceneLines (Parse.script st) ;;
        _ <- defined (lastOf lines) ;;
        Returned
          {| Parse.script :=
               updateFirstScene
                 (Scene.updateLastLine (Line.appendText (space :: textLine)))
                 (Parse.script st);
             Parse.characterMap := Parse.characterMap st;
             Parse.currentCharacter := Parse.currentCharacter st;
             Parse.lineCounter := Parse.lineCounter st |}
      else if 0 <? length textLine then
        let lineCounter := S (Parse.lineCounter st) in
        script <- pushFirstScene
                    {| Line.id := toString lineCounter;
                       Line.characterId := noSpeaker;
                       Line.text := textLine;
                       Line.sceneId := lit "1";
                       Line.isDirection := Some true |}
                    (Parse.script st) ;;
        Returned {| Parse.script := script;
                    Parse.characterMap := Parse.characterMap st;
                    Parse.currentCharacter := Parse.currentCharacter st;
                    Parse.lineCounter := lineCounter |}
      else Returned st
  end.

Definition parseScript (rawText : Str) : Outcome Script.t :=
  let textLines :=
    filter (fun line => 0 <? length line) (map trim (split_nl rawText)) in
  let scene1 :=
    {| Scene.id := lit "1"; Scene.name := lit "Scene 1"; Scene.lines := [] |} in
  let start (title : Str) :=
    {| Parse.script := {| Script.title := title;
                          Script.characters := [];
                          Script.scenes := [scene1] |};
       Parse.characterMap := [];
       Parse.currentCharacter := None;
       Parse.lineCounter := 0 |} in
  st <- match textLines with
        | first :: rest =>
            if negb (includes colon first)
            then forEach parseLine rest (start first)
            else forEach parseLine textLines (start [])
        | [] => forEach parseLine textLines (start [])
        end ;;
  Returned (Parse.script st).

(** ** PdfTextExtraction.detectScriptStructure
    ([src/services/pdf-extraction-module.js]) *)

Module Structure.
Record t : Type := {
  isLikelyScript : bool;
  characterCount : nat;
  characterNames : list Str;
  dialogueLines : nat
}.
End Structure.

(** /^[A-Z][A-Za-z\s]+:/gm *)
Definition characterLinePattern : Regex :=
  (Bol true >> One upperAZ >> Plus (One letterOrSpace) >> One (chr ":"))%re.

(** [s.slice(0, -1)] *)
Definition dropLast (s : Str) : Str := removelast s.

Definition detectScriptStructure (extractedText : Str) : Structure.t :=
  let characterMatches := matchAll characterLinePattern extractedText in
  let characters :=
    fold_left (fun characters m => Set_add characters (trim (dropLast m)))
      characterMatches [] in
  {| Structure.isLikelyScript :=
       (3 <? length characterMatches) && (2 <=? length characters);
     Structure.characterCount := length characters;
     Structure.characterNames := characters;
     Structure.dialogueLines := length characterMatches |}.

(** ** The queries of [src/services/parser.service.ts] *)

Definition extractCharacters (script : Script.t) : list Character.t :=
  Script.characters script.

(** [script.scenes.flatMap(scene => scene.lines.filter(...))] *)
Definition getLinesForCharacter (script : Script.t) (characterId : Str)
  : list Line.t :=
  flat_map
    (fun scene =>
       filter (fun line => eqb_str (Line.characterId line) characterId)
         (Scene.lines scene))
    (Script.scenes script).

Module Cue.
Record t : Type := { cue : Line.t; response : Line.t }.
End Cue.

(** Truthiness of an optional boolean field. *)
Definition isTrue (flag : option bool) : bool :=
  match flag with
  | Some true => true
  | _ => false
  end.

(** The body of the [for] loop of [getCueLines] at index [i]: the test reads
    [scene.lines[i+1].characterId] first and [scene.lines[i].isDirection]
    only when the first operand of [&&] holds. *)
Definition cueAt (characterId : Str) (lines : list Line.t)
  (cueLines : list Cue.t) (i : nat) : Outcome (list Cue.t) :=
  response <- defined (nth_error lines (i + 1)) ;;
  if eqb_str (Line.characterId response) characterId then
    cue <- defined (nth_error lines i) ;;
    if negb (isTrue (Line.isDirection cue))
    then Returned (cueLines ++ [ {| Cue.cue := cue;
                                    Cue.response := response |} ])
    else Returned cueLines
  else Returned cueLines.

(** [for (let i = 0; i < scene.lines.length - 1; i++)] inside
    [script.scenes.forEach]. *)
Definition getCueLines (script : Script.t) (characterId : Str)
  : Outcome (list Cue.t) :=
  forEach
    (fun cueLines scene =>
       forEach (cueAt characterId (Scene.lines scene))
         (seq 0 (length (Scene.lines scene) - 1)) cueLines)
    (Script.scenes script) [].

(** The pairs of neighbouring lines of one scene whose second line is spoken
    by [characterId] and whose first line is not a stage direction. *)
Fixpoint adjacentCues (characterId : Str) (lines : list Line.t)
  : list Cue.t :=
  match lines with
  | cue :: ((response :: _) as rest) =>
      (if eqb_str (Line.characterId response) characterId
          && negb (isTrue (Line.isDirection cue))
       then [ {| Cue.cue := cue; Cue.response := response |} ]
       else [])
      ++ adjacentCues characterId rest
  | _ => []
  end.

(** ** ScriptReader ([src/components/ScriptReader/ScriptReader.tsx]) *)

(** [getCharacterName]: the name shown beside a line. *)
Definition getCharacterName (script : Script.t) (characterId : Str) : Str :=
  match find (fun c => eqb_str (Character.id c) characterId)
          (Script.characters script) with
  | Some character => Character.name character
  | None => lit "Direction"
  end.

(** ** Replacing matches *)

(** [s.replace(re, replacement)] for a pattern with the [g] flag and a
    replacement text without [$] patterns: the text between the matches is
    kept, each match gives way to the replacement, and the search resumes
    where the match ended (one unit further after an empty match). *)
Fixpoint replaceAllFrom (fuel : nat) (r : Regex) (replacement : Str)
  (prev : option CodeUnit) (s : Str) : Str :=
  match fuel with
  | O => s
  | S fuel' =>
      match search r prev s with
      | None => s
      | Some m =>
          firstn (length s - length (matched m) - length (remainder m)) s
          ++ replacement
          ++ match matched m, remainder m with
             | [], [] => []
             | [], c :: s' =>
                 c :: replaceAllFrom fuel' r replacement (Some c) s'
             | _ :: _, s' =>
                 replaceAllFrom fuel' r replacement (lastPrev m) s'
             end
      end
  end.

Definition replaceAll (r : Regex) (replacement s : Str) : Str :=
  replaceAllFrom (S (length s)) r replacement None s.

(** ** PdfTextExtraction: cleaning the extracted text
    ([src/services/pdf-extraction-module.js]) *)

(** [[\x00-\x09\x0B-\x0C\x0E-\x1F\x7F-\x9F]] *)
Definition isControl (c : CodeUnit) : bool :=
  ((c <=? 9) || ((11 <=? c) && (c <=? 12)) || ((14 <=? c) && (c <=? 31))
   || ((127 <=? c) && (c <=? 159)))%N.

Definition cleanPdfText (text : Str) : Str :=
  match text with
  | [] => []                               (* if (!text) return '' *)
  | _ :: _ =>
      let cleaned := replaceAll (One isControl) [] text in
      trim (replaceAll (Plus (One isWhiteSpace)) [space] cleaned)
  end.

(** A code unit that is neither whitespace nor a control character. *)
Definition isPrintable (c : CodeUnit) : bool :=
  negb (isControl c) && negb (isWhiteSpace c).

(** ** PdfTextExtraction: organizing the extracted pieces
    ([src/services/pdf-extraction-module.js]) *)

Definition newline : CodeUnit := 10%N.

Definition noTextMessage : Str := lit "Nessun testo estratto dal PDF.".

(** /^([A-Z][A-Za-z\s]+):/ *)
Definition characterPattern : Regex :=
  (Bol false >> Group 1 nameBody >> One (chr ":"))%re.

(** /\n\s*\n/g *)
Definition blankLines : Regex :=
  (One (N.eqb newline) >> Star (One isWhiteSpace) >> One (N.eqb newline))%re.

Module Organize.
(** The two accumulators of [organizeExtractedText]. *)
Record t : Type := { result : Str; currentLine : Str }.
End Organize.

(** [if (currentLine.length > 0) { result += currentLine.trim() + '\n\n';
    currentLine = ''; }] *)
Definition flushLine (st : Organize.t) : Organize.t :=
  if 0 <? length (Organize.currentLine st)
  then {| Organize.result :=
            Organize.result st ++ trim (Organize.currentLine st)
            ++ [newline; newline];
          Organize.currentLine := [] |}
  else st.

(** The body of the [textPieces.forEach] of [organizeExtractedText]. *)
Definition organizePiece (toUpperCase : Str -> Str) (st : Organize.t)
  (piece : Str) : Organize.t :=
  if test characterPattern piece then
    let st' := flushLine st in
    {| Organize.result := Organize.result st' ++ piece;
       Organize.currentLine := Organize.currentLine st' |}
  else if endsWith (lit ".") (trim piece)
          || endsWith (lit "!") (trim piece)
          || endsWith (lit "?") (trim piece) then
    let currentLine := Organize.currentLine st ++ space :: piece in
    {| Organize.result :=
         Organize.result st ++ trim currentLine ++ [newline; newline];
       Organize.currentLine := [] |}
  else if eqb_str piece (toUpperCase piece)
          && (3 <? length piece) && (length piece <? 30) then
    let st' := flushLine st in
    {| Organize.result := Organize.result st' ++ piece ++ [newline; newline];
       Organize.currentLine := Organize.currentLine st' |}
  else
    {| Organize.result := Organize.result st;
       Organize.currentLine := Organize.currentLine st ++ space :: piece |}.

Definition organizeExtractedText (toUpperCase : Str -> Str)
  (textPieces : list Str) : Str :=
  match textPieces with
  | [] => noTextMessage
  | _ :: _ =>
      let st :=
        fold_left (organizePiece toUpperCase) textPieces
          {| Organize.result := []; Organize.currentLine := [] |} in
      let result :=
        if 0 <? length (Organize.currentLine st)
        then Organize.result st ++ trim (Organize.currentLine st)
        else Organize.result st in
      trim (replaceAll blankLines [newline; newline] result)
  end.

(** The code units of a text that are not whitespace. *)
Definition inked (s : Str) : Str := filter (fun c => negb (isWhiteSpace c)) s.

(** ** PdfExtractionEngine.atobPolyfill
    ([src/services/pdf-extraction.service.ts]) *)

Definition base64Chars : Str :=
  lit "ABCDEFGHIJKLMNOPQRSTUVWXYZabcdefghijklmnopqrstuvwxyz0123456789+/=".

(** [chars.indexOf(base64.charAt(i))]: a unit that is not in [chars] gives
    -1; [charAt] past the end gives the empty string, which [indexOf] finds
    at index 0. *)
Definition encAt (base64 : Str) (i : nat) : Z :=
  match nth_error base64 i with
  | Some c =>
      match indexOf c base64Chars with
      | Some k => Z.of_nat k
      | None => (-1)%Z
      end
  | None => 0%Z
  end.

(** [String.fromCharCode(n)]: the number is taken modulo 2^16. *)
Definition fromCharCode (n : Z) : CodeUnit := Z.to_N (n mod 65536).

(** The body of the [do ... while] loop at index [i]; the bitwise operators
    work on 32-bit integers, which the operands here never leave. *)
Definition decodeAt (base64 : Str) (i : nat) (output : Str) : Str :=
  let enc1 := encAt base64 i in
  let enc2 := encAt base64 (i + 1) in
  let enc3 := encAt base64 (i + 2) in
  let enc4 := encAt base64 (i + 3) in
  let chr1 := Z.lor (Z.shiftl enc1 2) (Z.shiftr enc2 4) in
  let chr2 := Z.lor (Z.shiftl (Z.land enc2 15) 4) (Z.shiftr enc3 2) in
  let chr3 := Z.lor (Z.shiftl (Z.land enc3 3) 6) enc4 in
  let output := output ++ [fromCharCode chr1] in
  let output :=
    if (enc3 =? 64)%Z then output else output ++ [fromCharCode chr2] in
  if (enc4 =? 64)%Z then output else output ++ [fromCharCode chr3].

(** [do { ... } while (i < base64.length)]: the body runs once before the
    test; every iteration advances [i] by 4, so [base64.length] further
    iterations always suffice. *)
Fixpoint atobLoop (fuel : nat) (base64 : Str) (i : nat) (output : Str) : Str :=
  let output := decodeAt base64 i output in
  match fuel with
  | O => output
  | S fuel' =>
      if i + 4 <? length base64 then atobLoop fuel' base64 (i + 4) output
      else output
  end.

Definition atobPolyfill (base64 : Str) : Str :=
  atobLoop (length base64) base64 0 [].

(** The standard Base64 encoding of a sequence of bytes, with padding
    (RFC 4648). *)
Definition base64Char (k : N) : CodeUnit := nth (N.to_nat k) base64Chars 0%N.

Definition padding : CodeUnit := 61%N.

Definition sextet1 (a : N) : N := N.shiftr a 2.
Definition sextet2 (a b : N) : N :=
  N.lor (N.shiftl (N.land a 3) 4) (N.shiftr b 4).
Definition sextet3 (b c : N) : N :=
  N.lor (N.shiftl (N.land b 15) 2) (N.shiftr c 6).
Definition sextet4 (c : N) : N := N.land c 63.

Fixpoint base64Encode (bytes : list N) : Str :=
  match bytes with
  | a :: b :: c :: rest =>
      base64Char (sextet1 a) :: base64Char (sextet2 a b)
      :: base64Char (sextet3 b c) :: base64Char (sextet4 c)
      :: base64Encode rest
  | [a; b] =>
      [ base64Char (sextet1 a); base64Char (sextet2 a b);
        base64Char (sextet3 b 0); padding ]
  | [a] =>
      [ base64Char (sextet1 a); base64Char (sextet2 a 0); padding; padding ]
  | [] => []
  end.

(** The byte values. *)
Definition byteValues : list N := map N.of_nat (seq 0 256).

(** ** PdfExtractionEngine.base64ToArrayBuffer
    ([src/services/pdf-extraction.service.ts]) *)

(** [s.replace(re, replacement)] without the [g] flag: the first match is
    replaced (by a text that holds no [$]). *)
Definition replaceFirst (r : Regex) (replacement s : Str) : Str :=
  match exec r s with
  | Some m =>
      firstn (length s - length (matched m) - length (remainder m)) s
      ++ replacement ++ remainder m
  | None => s
  end.

(** /^data:[^;]+;base64,/ *)
Definition dataUrlPrefix : Regex :=
  (Bol false
   >> word chr "data:"
   >> Plus (One (fun c => negb (chr ";" c)))
   >> word chr ";base64,")%re.

(** The bytes of the returned buffer.  An element of a [Uint8Array] keeps
    the number stored in it modulo 2^8.  No operation of the [try] block
    raises, so its [catch] is never entered. *)
Definition base64ToArrayBuffer (base64 : Str) : list N :=
  let cleanBase64 := replaceFirst dataUrlPrefix [] base64 in
  let binaryString := atobPolyfill cleanBase64 in
  map (fun c => (c mod 256)%N) binaryString.

(** ** Notions used by the specifications *)

(** A document given line by line, joined by newlines. *)
Fixpoint unlines (ls : list string) : Str :=
  match ls with
  | [] => []
  | [l] => lit l
  | l :: ls' => lit l ++ 10%N :: unlines ls'
  end.

(** The number of times a name was detected, and the position of its first
    detection. *)
Definition tally (detected : list Str) (name : Str) : nat :=
  length (filter (eqb_str name) detected).

Fixpoint firstSeen (name : Str) (detected : list Str) : nat :=
  match detected with
  | [] => 0
  | x :: detected' =>
      if eqb_str x name then 0 else S (firstSeen name detected')
  end.

(** [a] comes before [b] in the catalog: a larger tally, or the same tally
    and seen first. *)
Definition ranksBefore (detected : list Str) (a b : Str) : Prop :=
  tally detected b < tally detected a
  \/ (tally detected a = tally detected b
      /\ firstSeen a detected < firstSeen b detected).

(** All the lines of a script, in document order. *)
Definition allLines (scenes : list Scene.t) : list Line.t :=
  flat_map Scene.lines scenes.

(** A text with a first and a last code unit, neither of them whitespace. *)
Definition startsClean (t : Str) : Prop :=
  match t with
  | c :: _ => isWhiteSpace c = false
  | [] => False
  end.

Definition Tidy (t : Str) : Prop := startsClean t /\ startsClean (rev t).

(** Every run of whitespace is one single space. *)
Fixpoint singleSpaced (t : Str) : bool :=
  match t with
  | [] => true
  | a :: t' =>
      (if isWhiteSpace a
       then (a =? space)%N
            && match t' with
               | b :: _ => negb (isWhiteSpace b)
               | [] => true
               end
       else true)
      && singleSpaced t'
  end.

(** A title candidate: non-empty, shorter than 60, without a colon. *)
Definition isTitleCandidate (line : Str) : bool :=
  negb (length line =? 0) && (length line <? 60) && negb (includes colon line).

(** The cue name [parseScript] reads from a line, and the cue names of a
    list of lines in the order they are met. *)
Definition cueName (textLine : Str) : option Str :=
  match exec cuePattern textLine with
  | Some characterMatch => option_map trim (group 1 (groups characterMatch))
  | None => None
  end.

Definition cueNames (textLines : list Str) : list Str :=
  flat_map (fun textLine => match cueName textLine with
                            | Some name => [name]
                            | None => []
                            end) textLines.

(** The lines [parseScript] walks: trimmed, non-empty, without the title
    line. *)
Definition parsedLines (rawText : Str) : list Str :=
  match filter (fun line => 0 <? length line) (map trim (split_nl rawText)) with
  | first :: rest => if negb (includes colon first) then rest else first :: rest
  | [] => []
  end.

(** The distinct names of a list, in first-seen order. *)
Definition distinct (names : list Str) : list Str := fold_left Set_add names [].

(** One iteration of the second loop, as a relation between the states
    before and after it. *)
Inductive Step (characterMap : JsMap Character.t) : Walk.t -> Walk.t -> Prop :=
| StepSkip st :
    Step characterMap st st
| StepScene st name :
    Step characterMap st
      {| Walk.scenes :=
           Walk.scenes st ++
           [ {| Scene.id := toString (length (Walk.scenes st) + 1);
                Scene.name := name; Scene.lines := [] |} ];
         Walk.currentCharacterId := Walk.currentCharacterId st;
         Walk.lineCounter := Walk.lineCounter st |}
| StepCue st character :
    In character (Map_values characterMap) ->
    Step characterMap st
      {| Walk.scenes := Walk.scenes st;
         Walk.currentCharacterId := Some (Character.id character);
         Walk.lineCounter := Walk.lineCounter st |}
| StepSpeech st before scene character text :
    Walk.scenes st = before ++ [scene] ->
    In character (Map_values characterMap) ->
    Tidy text ->
    Step characterMap st
      {| Walk.scenes :=
           before ++
           [ Scene.push {| Line.id := toString (S (Walk.lineCounter st));
                           Line.characterId := Character.id character;
                           Line.text := text;
                           Line.sceneId := Scene.id scene;
                           Line.isDirection := None |} scene ];
         Walk.currentCharacterId := Some (Character.id character);
         Walk.lineCounter := S (Walk.lineCounter st) |}
| StepResume st before scene current text :
    Walk.scenes st = before ++ [scene] ->
    Walk.currentCharacterId st = Some current ->
    Tidy text ->
    Step characterMap st
      {| Walk.scenes :=
           before ++
           [ Scene.push {| Line.id := toString (S (Walk.lineCounter st));
                           Line.characterId := current;
                           Line.text := text;
                           Line.sceneId := Scene.id scene;
                           Line.isDirection := None |} scene ];
         Walk.currentCharacterId := Walk.currentCharacterId st;
         Walk.lineCounter := S (Walk.lineCounter st) |}
| StepDirection st before scene text :
    Walk.scenes st = before ++ [scene] ->
    Tidy text ->
    Step characterMap st
      {| Walk.scenes :=
           before ++
           [ Scene.push {| Line.id := toString (S (Walk.lineCounter st));
                           Line.characterId := noSpeaker;
                           Line.text := text;
                           Line.sceneId := Scene.id scene;
                           Line.isDirection := Some true |} scene ];
         Walk.currentCharacterId := Walk.currentCharacterId st;
         Walk.lineCounter := S (Walk.lineCounter st) |}
| StepMerge st before scene earlier previousLine text :
    Walk.scenes st = before ++ [scene] ->
    Scene.lines scene = earlier ++ [previousLine] ->
    Walk.currentCharacterId st = Some (Line.characterId previousLine) ->
    Tidy text ->
    Step characterMap st
      {| Walk.scenes :=
           before ++
           [ {| Scene.id := Scene.id scene; Scene.name := Scene.name scene;
                Scene.lines :=
                  earlier
                  ++ [Line.appendText (space :: text) previousLine] |} ];
         Walk.currentCharacterId := Walk.currentCharacterId st;
         Walk.lineCounter := Walk.lineCounter st |}.

(** What holds of every state the second loop reaches. *)
Record Reached (characterMap : JsMap Character.t) (st : Walk.t) : Prop := {
  reached_scene : Walk.scenes st <> [];
  reached_scene_ids :
    map Scene.id (Walk.scenes st)
    = map toString (seq 1 (length (Walk.scenes st)));
  reached_ids :
    map Line.id (allLines (Walk.scenes st))
    = map toString (seq 1 (Walk.lineCounter st));
  reached_speakers :
    forall line, In line (allLines (Walk.scenes st)) ->
      (Line.characterId line = noSpeaker /\ Line.isDirection line = Some true)
      \/ exists character, In character (Map_values characterMap)
                           /\ Character.id character = Line.characterId line;
  reached_current :
    forall current, Walk.currentCharacterId st = Some current ->
      exists character, In character (Map_values characterMap)
                        /\ Character.id character = current;
  reached_texts :
    forall line, In line (allLines (Walk.scenes st)) -> Tidy (Line.text line)
}.


(** ** What a pattern consumes and captures *)

(** The indices of the groups of a pattern. *)
Fixpoint groupsOf (r : Regex) : list nat :=
  match r with
  | Cat r1 r2 | Alt r1 r2 => groupsOf r1 ++ groupsOf r2
  | Star r1 => groupsOf r1
  | Group i r1 => i :: groupsOf r1
  | _ => []
  end.

(** Every code unit the pattern can consume satisfies [P]. *)
Fixpoint onlyUnits (P : CodeUnit -> Prop) (r : Regex) : Prop :=
  match r with
  | One p => forall c, p c = true -> P c
  | Cat r1 r2 | Alt r1 r2 => onlyUnits P r1 /\ onlyUnits P r2
  | Star r1 | Group _ r1 => onlyUnits P r1
  | _ => True
  end.

(** Every match of the pattern consumes at least one code unit, and the
    first one satisfies [P]. *)
Fixpoint startsWithUnit (P : CodeUnit -> Prop) (r : Regex) : Prop :=
  match r with
  | One p => forall c, p c = true -> P c
  | Cat r1 _ | Group _ r1 => startsWithUnit P r1
  | Alt r1 r2 => startsWithUnit P r1 /\ startsWithUnit P r2
  | _ => False
  end.

(** The continuation [search] runs a pattern with. *)
Definition found : option CodeUnit -> Str -> Caps -> option Found :=
  fun p s' caps => Some (p, s', caps).

(** The character map [analyzeScriptText] builds in its first pass. *)
Definition characterMapOf (toUpperCase : Str -> Str) (rawText : Str)
  : JsMap Character.t :=
  buildCharacterMap
    (likelyCharacters (countMentions toUpperCase (split_nl rawText))).

(** The text [parseScript] reads after the first colon of a cue line. *)
Definition cueText (textLine : Str) : Str :=
  trim (substring (match indexOf colon textLine with
                   | Some i => i + 1
                   | None => 0
                   end) textLine).

(** Cue lines; those with nothing after the colon; those with a text. *)
Definition isCue (textLine : Str) : bool :=
  match cueName textLine with
  | Some _ => true
  | None => false
  end.

Definition bareCue (textLine : Str) : bool :=
  match cueName textLine with
  | Some _ => length (cueText textLine) =? 0
  | None => false
  end.

Definition spokenCue (textLine : Str) : bool :=
  isCue textLine && negb (bareCue textLine).

(** The lines before the first cue line. *)
Fixpoint leadingProse (textLines : list Str) : list Str :=
  match textLines with
  | textLine :: rest =>
      if isCue textLine then [] else textLine :: leadingProse rest
  | [] => []
  end.

(** What holds of the state the loop of [parseScript] reaches after the
    lines [seen]: one scene; its lines numbered in order; first the
    directions, one for each line before the first cue, then the speeches,
    one for each cue line with a text, each under the id of a listed
    character. *)
Definition Parsed (seen : list Str) (st : Parse.t) : Prop :=
  exists directions speeches,
    Script.scenes (Parse.script st)
    = [ {| Scene.id := lit "1"; Scene.name := lit "Scene 1";
           Scene.lines := directions ++ speeches |} ]
    /\ map Line.id (directions ++ speeches)
       = map toString (seq 1 (Parse.lineCounter st))
    /\ Forall (fun line => Line.sceneId line = lit "1"
                           /\ Tidy (Line.text line))
         (directions ++ speeches)
    /\ Forall (fun line => Line.isDirection line = Some true
                           /\ Line.characterId line = noSpeaker) directions
    /\ Forall (fun line =>
                 Line.isDirection line = None
                 /\ exists character,
                      In character (Script.characters (Parse.script st))
                      /\ Character.id character = Line.characterId line)
         speeches
    /\ (forall name character,
          In (name, character) (Parse.characterMap st) ->
          In character (Script.characters (Parse.script st)))
    /\ length directions = length (leadingProse seen)
    /\ length speeches = length (filter spokenCue seen)
    /\ truthy (Parse.currentCharacter st) = existsb isCue seen.

(** What the second pass of [analyzeScriptText] keeps of a trimmed line as
    the text of a Line: nothing of a scene marker, the text after the colon
    of a speaker line, the whole of any other line. *)
Definition spokenPart (characterMap : JsMap Character.t) (line : Str) : Str :=
  if test sceneMarker line then []
  else match findSpeaker characterMap line with
       | Some (matchedName, _) => trim (substring (length matchedName + 1) line)
       | None => line
       end.

(** The texts of the lines of a script, one after the other. *)
Definition allText (scenes : list Scene.t) : Str :=
  concat (map Line.text (allLines scenes)).

(** What [parseScript] keeps of a walked line as the text of a Line: the
    text after the first colon of a cue line, the whole of any other
    line. *)
Definition cueContent (textLine : Str) : Str :=
  if isCue textLine then cueText textLine else textLine.

(** The iterations of a starred pattern, as [matchAt] runs them. *)
Section StarLoop.

Variable r1 : Regex.
Variable k : option CodeUnit -> Str -> Caps -> option Found.

Fixpoint starLoop (fuel : nat) (prev : option CodeUnit) (s : Str)
  (caps : Caps) : option Found :=
  match fuel with
  | O => k prev s caps
  | S fuel' =>
      match matchAt r1 prev s caps
              (fun prev' s' caps' =>
                 if length s' <? length s
                 then starLoop fuel' prev' s' caps'
                 else None) with
      | Some x => Some x
      | None => k prev s caps
      end
  end.

End StarLoop.

(** [.] *)
Definition dot : CodeUnit := 46%N.

Definition isSlash (c : CodeUnit) : bool := chr "/" c || chr "\" c.

(** "pdf" or "txt", in any case. *)
Definition isExtension (ext : Str) : Prop :=
  map upperUnit ext = lit "PDF" \/ map upperUnit ext = lit "TXT".

(** The text ends with a file name: after [dir], which is empty or ends
    with a slash or backslash, come a non-empty [stem] without slash or
    backslash, a dot and the extension [ext]. *)
Definition EndsWithFileName (text dir stem ext : Str) : Prop :=
  text = dir ++ stem ++ dot :: ext
  /\ match lastOf dir with
     | Some c => isSlash c = true
     | None => True
     end
  /\ stem <> []
  /\ Forall (fun c => isSlash c = false) stem
  /\ isExtension ext.

(** [title] is [stem] with a space in place of each underscore and each
    hyphen. *)
Definition SpacedFrom (stem title : Str) : Prop :=
  Forall2 (fun c t => t = if chr "_" c || chr "-" c then space else c)
    stem title.

(** The names the first pass detects on one line, pattern by pattern. *)
Definition detectedOn (toUpperCase : Str -> Str) (line : Str) : list Str :=
  flat_map
    (fun pattern =>
       match candidateName line pattern with
       | Some characterName =>
           if qualifies toUpperCase characterName then [characterName] else []
       | None => []
       end)
    characterPatterns.

(** The line names [name]: one of the patterns detects it there. *)
Definition namedOn (toUpperCase : Str -> Str) (name line : Str) : bool :=
  existsb (eqb_str name) (detectedOn toUpperCase line).

(** The occurrences of a name in a document: the number of lines that name
    it; and the position of the first of them. *)
Definition occurrences (toUpperCase : Str -> Str) (lines : list Str)
  (name : Str) : nat :=
  length (filter (namedOn toUpperCase name) lines).

Fixpoint firstLine (toUpperCase : Str -> Str) (name : Str) (lines : list Str)
  : nat :=
  match lines with
  | [] => 0
  | line :: lines' =>
      if namedOn toUpperCase name line then 0
      else S (firstLine toUpperCase name lines')
  end.

(** [a] is listed before [b]: it occurs more often, or as often and
    first. *)
Definition listedBefore (toUpperCase : Str -> Str) (lines : list Str)
  (a b : Str) : Prop :=
  occurrences toUpperCase lines b < occurrences toUpperCase lines a
  \/ (occurrences toUpperCase lines a = occurrences toUpperCase lines b
      /\ firstLine toUpperCase a lines < firstLine toUpperCase b lines).

(** ** Sample inputs *)

Definition romeo : Character.t :=
  {| Character.id := lit "1"; Character.name := lit "ROMEO" |}.

Definition sampleCatalog : JsMap Character.t := [(lit "ROMEO", romeo)].

Definition helloLine : Line.t :=
  {| Line.id := lit "1"; Line.characterId := lit "1";
     Line.text := lit "Hello there."; Line.sceneId := lit "1";
     Line.isDirection := None |}.

Definition firstScene : Scene.t :=
  {| Scene.id := lit "1"; Scene.name := lit "Scena 1";
     Scene.lines := [helloLine] |}.

(** The state of the second loop after the line "ROMEO: Hello there.". *)
Definition midSpeech : Walk.t :=
  {| Walk.scenes := [firstScene];
     Walk.currentCharacterId := Some (lit "1");
     Walk.lineCounter := 1 |}.

(** A cue without text, its speech on the next line. *)
Definition cueThenSpeech : Str := unlines ["ROMEO:"; "Hello there."]%string.

(** A scene marker right after a speech. *)
Definition speechThenMarker : Str :=
  unlines ["ROMEO: Hello there."; "ACT I"; "ROMEO: Bye."]%string.

(** Three cue lines, then two lines of prose the second of which has a
    colon. *)
Definition cuesThenProse : Str :=
  unlines ["ROMEO: Hi"; "GIULIETTA: Hello"; "ROMEO: Bye"; "The end";
           "note: x"]%string.

(** A title, a cue with its speech, and a continuation line. *)
Definition titledScene : Str :=
  unlines ["Romeo and Juliet"; "ROMEO: Hello"; "there."; "A bell rings.";
           "GIULIETTA:"; "Who is it?"]%string.

(** A line with a carriage return inside: "ROMEO", CR, ": x". *)
Definition crInsideLine : Str := lit "ROMEO" ++ 13%N :: lit ": x".

(** Two speakers, two cues each. *)
Definition twoSpeakers : Str :=
  unlines ["ROMEO: Hello there."; "Still talking."; "GIULIETTA: Hi Romeo.";
           "ROMEO: Again."; "GIULIETTA: Again."]%string.

(** * Properties *)

(** ** Strings and arrays *)

Lemma eqb_str_eq (a b : Str) : eqb_str a b = true <-> a = b.
Proof.
  revert b; induction a as [|x a IH]; intros [|y b]; simpl; split;
    try congruence; try discriminate.
  - intros H; apply andb_true_iff in H as [Hx Hab].
    apply N.eqb_eq in Hx; apply IH in Hab; congruence.
  - intros H; inversion H; subst.
    rewrite N.eqb_refl; simpl; now apply IH.
Qed.

Lemma eqb_str_refl (a : Str) : eqb_str a a = true.
Proof. now apply eqb_str_eq. Qed.

Lemma eqb_str_neq (a b : Str) : eqb_str a b = false <-> a <> b.
Proof.
  split.
  - intros H E; apply eqb_str_eq in E; congruence.
  - intros H; destruct (eqb_str a b) eqn:E; [|reflexivity].
    apply eqb_str_eq in E; contradiction.
Qed.

Lemma lastOf_app (A : Type) (l : list A) (x : A) : lastOf (l ++ [x]) = Some x.
Proof.
  induction l as [|y l IH]; simpl; [reflexivity|].
  destruct (l ++ [x]) eqn:E; [now destruct l|exact IH].
Qed.

Lemma updateLast_app (A : Type) (f : A -> A) (l : list A) (x : A) :
  updateLast f (l ++ [x]) = l ++ [f x].
Proof.
  induction l as [|y l IH]; simpl; [reflexivity|].
  destruct (l ++ [x]) eqn:E; [now destruct l|now rewrite IH].
Qed.

Lemma snoc_of_nonempty (A : Type) (l : list A) :
  l <> [] -> exists before x, l = before ++ [x].
Proof.
  intros H; destruct (exists_last H) as [before [x E]]; eauto.
Qed.

Lemma allLines_snoc (scenes : list Scene.t) (scene : Scene.t) :
  allLines (scenes ++ [scene]) = allLines scenes ++ Scene.lines scene.
Proof.
  unfold allLines; rewrite flat_map_app; simpl; now rewrite app_nil_r.
Qed.

Lemma trimStart_clean (s : Str) : trimStart s = [] \/ startsClean (trimStart s).
Proof.
  induction s as [|c s IH]; simpl; [now left|].
  destruct (isWhiteSpace c) eqn:E; [exact IH|right; exact E].
Qed.

Lemma trimStart_snoc (x : Str) (c : CodeUnit) :
  isWhiteSpace c = false -> trimStart (x ++ [c]) = trimStart x ++ [c].
Proof.
  intros Hc; induction x as [|y x IH]; simpl.
  - now rewrite Hc.
  - destruct (isWhiteSpace y); [exact IH|reflexivity].
Qed.

Lemma trimStart_fixed (t : Str) : startsClean t -> trimStart t = t.
Proof.
  destruct t as [|c t]; simpl; [tauto|]; intros H; now rewrite H.
Qed.

Lemma trim_tidy (s : Str) : trim s = [] \/ Tidy (trim s).
Proof.
  unfold trim, trimEnd.
  destruct (trimStart_clean s) as [E|H]; [rewrite E; now left|].
  right. destruct (trimStart s) as [|c u]; [contradiction|]; simpl in H.
  simpl rev. rewrite trimStart_snoc by exact H. rewrite rev_app_distr; simpl.
  split; [exact H|].
  simpl rev. rewrite rev_involutive.
  destruct (trimStart_clean (rev u)) as [E|H'].
  - rewrite E; simpl; exact H.
  - destruct (trimStart (rev u)); [contradiction|exact H'].
Qed.

Lemma tidy_nonempty (t : Str) : Tidy t -> t <> [].
Proof. intros [H _] E; subst; exact H. Qed.

Lemma tidy_trim (t : Str) : Tidy t -> trim t = t.
Proof.
  intros [H1 H2]; unfold trim, trimEnd.
  rewrite (trimStart_fixed t H1), (trimStart_fixed (rev t) H2).
  apply rev_involutive.
Qed.

Lemma tidy_join (a b : Str) (c : CodeUnit) :
  Tidy a -> Tidy b -> Tidy (a ++ c :: b).
Proof.
  intros [Ha _] [_ Hb]; split.
  - destruct a; [contradiction|exact Ha].
  - rewrite rev_app_distr; simpl rev.
    destruct (rev b); [contradiction|exact Hb].
Qed.

Lemma length_pos_nonempty (A : Type) (l : list A) :
  (0 <? length l) = true -> l <> [].
Proof. destruct l; simpl; [discriminate|discriminate]. Qed.

Lemma digits_zero (d : Decimal.uint) :
  digits d = noSpeaker -> d = Decimal.D0 Decimal.Nil.
Proof.
  destruct d as [|d|d|d|d|d|d|d|d|d|d]; simpl; try discriminate.
  intros H; injection H as H.
  destruct d; simpl in H; try discriminate; reflexivity.
Qed.

Lemma toString_not_zero (n : nat) : toString (S n) <> noSpeaker.
Proof.
  unfold toString; intros H; apply digits_zero in H.
  pose proof (DecimalNat.Unsigned.of_to (S n)) as E.
  rewrite H in E; discriminate.
Qed.

Lemma digits_inj (a b : Decimal.uint) : digits a = digits b -> a = b.
Proof.
  revert b; induction a as [|a IH|a IH|a IH|a IH|a IH|a IH|a IH|a IH|a IH|a IH];
    intros [|b|b|b|b|b|b|b|b|b|b]; simpl; intros H;
    try discriminate; try reflexivity;
    injection H as H; f_equal; now apply IH.
Qed.

Lemma toString_inj (a b : nat) : toString a = toString b -> a = b.
Proof.
  unfold toString; intros H.
  now apply DecimalNat.Unsigned.to_uint_inj, digits_inj.
Qed.



(** ** Captures of a match *)

Lemma group_app (i : nat) (g : Str) (more caps : Caps) :
  exists g', group i (more ++ (i, g) :: caps) = Some g'.
Proof.
  induction more as [|[j h] more IH]; simpl.
  - rewrite Nat.eqb_refl; eauto.
  - destruct (i =? j); eauto.
Qed.

(** A successful match ends in its continuation, with all the captures
    made before still there. *)
Lemma matchAt_grows (r : Regex) :
  forall prev s caps k res,
    matchAt r prev s caps k = Some res ->
    exists prev' s' more, k prev' s' (more ++ caps) = Some res.
Proof.
  induction r as [|p|r1 IH1 r2 IH2|r1 IH1 r2 IH2|r1 IH1|i r1 IH1|m|m];
    intros prev s caps k res H; cbn [matchAt] in H.
  - now exists prev, s, [].
  - destruct s as [|c s']; [discriminate|].
    destruct (p c); [|discriminate]. now exists (Some c), s', [].
  - apply IH1 in H as (p1 & s1 & m1 & H).
    apply IH2 in H as (p2 & s2 & m2 & H).
    exists p2, s2, (m2 ++ m1). now rewrite <- app_assoc.
  - destruct (matchAt r1 prev s caps k) as [x|] eqn:E.
    + injection H as ->. now apply IH1 in E.
    + now apply IH2 in H.
  - revert H. generalize (length s) at 1. intros fuel; revert prev s caps.
    induction fuel as [|fuel IHf]; intros prev s caps H.
    + now exists prev, s, [].
    + match type of H with
      | match ?c with _ => _ end = _ => destruct c as [x|] eqn:E
      end.
      * injection H as ->. apply IH1 in E as (p1 & s1 & m1 & E).
        destruct (length s1 <? length s); [|discriminate].
        apply IHf in E as (p2 & s2 & m2 & E).
        exists p2, s2, (m2 ++ m1). now rewrite <- app_assoc.
      * now exists prev, s, [].
  - apply IH1 in H as (p1 & s1 & m1 & H).
    now exists p1, s1, ((i, firstn (length s - length s1) s) :: m1).
  - destruct (atBol m prev); [|discriminate]. now exists prev, s, [].
  - destruct (atEol m s); [|discriminate]. now exists prev, s, [].
Qed.

Lemma search_found (r : Regex) (s : Str) :
  forall prev m,
    search r prev s = Some m ->
    exists prev' s0,
      matchAt r prev' s0 [] (fun p s' caps => Some (p, s', caps))
      = Some (lastPrev m, remainder m, groups m).
Proof.
  induction s as [|c s IH]; intros prev m H; cbn [search] in H.
  - destruct (matchAt r prev [] [] _) as [[[p s'] caps]|] eqn:E;
      [|discriminate].
    injection H as <-. now exists prev, [].
  - destruct (matchAt r prev (c :: s) [] _) as [[[p s'] caps]|] eqn:E.
    + injection H as <-. now exists prev, (c :: s).
    + now apply IH in H.
Qed.

(** A pattern that begins with a group always captures it. *)
Lemma exec_group_defined (i : nat) (r1 r2 : Regex) (s : Str) (m : Match) :
  exec (Cat (Group i r1) r2) s = Some m ->
  exists g, group i (groups m) = Some g.
Proof.
  intros H. apply search_found in H as (prev & s0 & H).
  cbn [matchAt] in H.
  apply matchAt_grows in H as (p1 & s1 & m1 & H).
  apply matchAt_grows in H as (p2 & s2 & m2 & H).
  injection H as _ _ <-. apply group_app.
Qed.

Lemma lastOf_snoc (A : Type) (l : list A) (x : A) :
  lastOf l = Some x -> exists earlier, l = earlier ++ [x].
Proof.
  intros H. destruct l as [|y l]; [discriminate|].
  assert (Hne : y :: l <> []) by discriminate.
  destruct (snoc_of_nonempty Hne) as (earlier & z & E).
  rewrite E, lastOf_app in H. injection H as ->. eauto.
Qed.

Lemma Map_get_in (V : Type) (m : JsMap V) (k : Str) (v : V) :
  Map_get m k = Some v -> In v (Map_values m).
Proof.
  induction m as [|[k' v'] m IH]; simpl; [discriminate|].
  destruct (eqb_str k' k).
  - intros H; injection H as ->; now left.
  - intros H; right; now apply IH.
Qed.

(** ** The second pass, one line at a time *)

Section Segmenter.

Variable toUpperCase : Str -> Str.
Variable characterMap : JsMap Character.t.

Lemma findSpeaker_known (line name : Str) (character : Character.t) :
  findSpeaker characterMap line = Some (name, character) ->
  In character (Map_values characterMap).
Proof.
  unfold findSpeaker.
  match goal with
  | |- context [find ?f ?l] => destruct (find f l) as [key|]
  end; [|discriminate].
  destruct (Map_get characterMap key) as [found|] eqn:E; [|discriminate].
  intros H; injection H as _ <-. now apply Map_get_in with key.
Qed.

Lemma emit_returns (st : Walk.t) (before : list Scene.t) (scene : Scene.t)
  (current : option Str) (characterId text : Str) (direction : option bool) :
  Walk.scenes st = before ++ [scene] ->
  emit st current characterId text direction
  = Returned
      {| Walk.scenes :=
           before ++
           [ Scene.push {| Line.id := toString (S (Walk.lineCounter st));
                           Line.characterId := characterId;
                           Line.text := text;
                           Line.sceneId := Scene.id scene;
                           Line.isDirection := direction |} scene ];
         Walk.currentCharacterId := current;
         Walk.lineCounter := S (Walk.lineCounter st) |}.
Proof.
  intros E; unfold emit. rewrite E, lastOf_app; simpl.
  now rewrite updateLast_app.
Qed.

Ltac emitted :=
  match goal with
  | E : Walk.scenes _ = _ ++ [_],
    Ec : Walk.currentCharacterId _ = Some _ |- _ =>
      erewrite emit_returns by exact E;
      eexists; split; [reflexivity|]; rewrite <- Ec;
      (now apply StepResume) || (now apply StepDirection)
  end.

Lemma stageDirection_step (st : Walk.t) (line : Str) :
  Walk.scenes st <> [] -> Tidy line ->
  exists st', stageDirection st line = Returned st' /\ Step characterMap st st'.
Proof.
  intros Hne Ht. destruct (snoc_of_nonempty Hne) as (before & scene & E).
  unfold stageDirection.
  destruct line as [|c line]; [now apply tidy_nonempty in Ht|]. simpl.
  erewrite emit_returns by exact E.
  eexists; split; [reflexivity|]. now apply StepDirection.
Qed.

(** Every iteration returns, and is one of the moves of [Step]. *)
Lemma segmentLine_step (st : Walk.t) (raw : Str) :
  Walk.scenes st <> [] ->
  exists st', segmentLine toUpperCase characterMap st raw = Returned st'
              /\ Step characterMap st st'.
Proof.
  intros Hne. destruct (snoc_of_nonempty Hne) as (before & scene & E).
  unfold segmentLine.
  destruct (trim_tidy raw) as [Et|Ht].
  { rewrite Et; simpl. eexists; split; [reflexivity|constructor]. }
  set (line := trim raw) in *.
  assert (Hlen : (length line =? 0) = false).
  { apply Nat.eqb_neq. intros L. apply length_zero_iff_nil in L.
    now apply tidy_nonempty in Ht. }
  rewrite Hlen.
  destruct (test sceneMarker line).
  { eexists; split; [reflexivity|apply StepScene]. }
  destruct (findSpeaker characterMap line) as [[name character]|] eqn:Ef.
  - apply findSpeaker_known in Ef.
    destruct (trim_tidy (substring (length name + 1) line)) as [Ed|Hd].
    + rewrite Ed; simpl. eexists; split; [reflexivity|now apply StepCue].
    + destruct (trim (substring (length name + 1) line)) as [|d rest] eqn:Ed;
        [now apply tidy_nonempty in Hd|].
      cbn [length Nat.ltb Nat.leb].
      erewrite emit_returns by exact E.
      eexists; split; [reflexivity|now apply StepSpeech].
  - destruct (Walk.currentCharacterId st) as [[|c cs]|] eqn:Ec;
      try now apply stageDirection_step.
    destruct ((0 <? length line) && negb (isSceneDirection line));
      [|now apply stageDirection_step].
    rewrite E, lastOf_app. cbn [defined bind].
    destruct (0 <? length (Scene.lines scene)) eqn:Hl;
      [|destruct (looksLikeDialogue toUpperCase line); emitted].
    apply length_pos_nonempty in Hl.
    destruct (snoc_of_nonempty Hl) as (earlier & previousLine & Hs).
    rewrite Hs, lastOf_app. cbn [defined bind].
    destruct (eqb_str (Line.characterId previousLine) (c :: cs)) eqn:Eq;
      [|destruct (looksLikeDialogue toUpperCase line); emitted].
    apply eqb_str_eq in Eq.
    rewrite updateLast_app. unfold Scene.updateLastLine.
    rewrite Hs, updateLast_app.
    eexists; split; [reflexivity|].
    rewrite <- Ec.
    apply StepMerge; try assumption. now rewrite Ec, Eq.
Qed.

End Segmenter.

(** ** What the second pass maintains *)

Section Reachability.

Variable toUpperCase : Str -> Str.
Variable characterMap : JsMap Character.t.

Lemma allLines_push (before : list Scene.t) (scene : Scene.t) (l : Line.t) :
  allLines (before ++ [Scene.push l scene])
  = allLines (before ++ [scene]) ++ [l].
Proof. rewrite !allLines_snoc; simpl; now rewrite app_assoc. Qed.

Lemma Reached_initial : Reached characterMap initialWalk.
Proof.
  constructor; simpl; try discriminate; try reflexivity;
    intros ? [].
Qed.

Lemma Reached_push (st : Walk.t) (before : list Scene.t) (scene : Scene.t)
  (l : Line.t) (current : option Str) :
  Reached characterMap st ->
  Walk.scenes st = before ++ [scene] ->
  Line.id l = toString (S (Walk.lineCounter st)) ->
  ((Line.characterId l = noSpeaker /\ Line.isDirection l = Some true)
   \/ exists character, In character (Map_values characterMap)
                        /\ Character.id character = Line.characterId l) ->
  (forall c, current = Some c ->
     exists character, In character (Map_values characterMap)
                       /\ Character.id character = c) ->
  Tidy (Line.text l) ->
  Reached characterMap
    {| Walk.scenes := before ++ [Scene.push l scene];
       Walk.currentCharacterId := current;
       Walk.lineCounter := S (Walk.lineCounter st) |}.
Proof.
  intros [Hs Hn Hi Hp Hc Ht] E Hid Hsp Hcur Htx.
  constructor; cbn [Walk.scenes Walk.currentCharacterId Walk.lineCounter].
  - now destruct before.
  - rewrite E in Hn. now rewrite !map_app, !length_app in *.
  - rewrite allLines_push, <- E, map_app, Hi, seq_S, map_app; simpl.
    now rewrite Hid.
  - intros line; rewrite allLines_push, <- E, in_app_iff; simpl.
    intros [H|[<-|[]]]; auto.
  - exact Hcur.
  - intros line; rewrite allLines_push, <- E, in_app_iff; simpl.
    intros [H|[<-|[]]]; auto.
Qed.

Lemma Step_Reached (st st' : Walk.t) :
  Step characterMap st st' ->
  Reached characterMap st -> Reached characterMap st'.
Proof.
  intros HS HR; destruct HS.
  - exact HR.
  - destruct HR as [Hs Hn Hi Hp Hc Ht].
    constructor; cbn [Walk.scenes Walk.currentCharacterId Walk.lineCounter];
      rewrite ?allLines_snoc; cbn [Scene.lines]; rewrite ?app_nil_r; auto.
    + now destruct (Walk.scenes st).
    + rewrite map_app, length_app, Hn. cbn [length map Scene.id].
      replace (length (Walk.scenes st) + 1) with (S (length (Walk.scenes st)))
        by lia.
      now rewrite seq_S, map_app.
  - destruct HR as [Hs Hn Hi Hp Hc Ht].
    constructor; cbn [Walk.scenes Walk.currentCharacterId Walk.lineCounter];
      auto.
    intros c E; injection E as <-; eauto.
  - apply Reached_push; simpl; eauto.
    intros c E; injection E as <-; eauto.
  - apply Reached_push; simpl; eauto.
    + right. now apply (reached_current HR).
    + apply (reached_current HR).
  - apply Reached_push; simpl; eauto.
    apply (reached_current HR).
  - destruct HR as [Hs Hn Hi Hp Hc Ht].
    rewrite H, allLines_snoc, H0 in Hi, Hp, Ht. rewrite H in Hn.
    constructor; cbn [Walk.scenes Walk.currentCharacterId Walk.lineCounter];
      rewrite ?allLines_snoc; cbn [Scene.lines]; auto.
    + now destruct before.
    + now rewrite !map_app, !length_app in *.
    + rewrite <- Hi, !map_app. reflexivity.
    + intros line Hin. rewrite app_assoc in Hin, Hp.
      apply in_app_iff in Hin as [Hin|[<-|[]]].
      * apply Hp, in_app_iff; now left.
      * apply (Hp previousLine), in_app_iff; right; now left.
    + intros line Hin. rewrite app_assoc in Hin, Ht.
      apply in_app_iff in Hin as [Hin|[<-|[]]].
      * apply Ht, in_app_iff; now left.
      * simpl. apply tidy_join; [|assumption].
        apply (Ht previousLine), in_app_iff; right; now left.
Qed.

(** The second loop never raises, and ends in a reached state. *)
Lemma walk_Reached (lines : list Str) (st : Walk.t) :
  Reached characterMap st ->
  exists st', forEach (segmentLine toUpperCase characterMap) lines st
              = Returned st'
              /\ Reached characterMap st'.
Proof.
  revert st; induction lines as [|raw lines IH]; intros st HR; simpl.
  - eauto.
  - destruct (segmentLine_step toUpperCase characterMap st raw
                (reached_scene HR)) as (st1 & E1 & HS).
    rewrite E1; simpl. apply IH. now apply Step_Reached with st.
Qed.

End Reachability.

(** ** Maps *)

Lemma Map_get_none (V : Type) (m : JsMap V) (k : Str) :
  Map_get m k = None <-> ~ In k (Map_keys m).
Proof.
  induction m as [|[k' v] m IH]; simpl; [tauto|].
  destruct (eqb_str k' k) eqn:E.
  - apply eqb_str_eq in E; split; [discriminate|intros H; exfalso; auto].
  - apply eqb_str_neq in E; rewrite IH; tauto.
Qed.

Lemma Map_get_entry (V : Type) (m : JsMap V) (k : Str) (v : V) :
  Map_get m k = Some v -> In (k, v) m.
Proof.
  induction m as [|[k' v'] m IH]; simpl; [discriminate|].
  destruct (eqb_str k' k) eqn:E.
  - apply eqb_str_eq in E; intros H; injection H as ->; subst; now left.
  - intros H; right; now apply IH.
Qed.

Lemma Map_set_new (V : Type) (m : JsMap V) (k : Str) (v : V) :
  Map_get m k = None -> Map_set m k v = m ++ [(k, v)].
Proof.
  induction m as [|[k' v'] m IH]; simpl; [reflexivity|].
  destruct (eqb_str k' k); [discriminate|].
  intros H; now rewrite IH.
Qed.

Lemma Map_set_keys (V : Type) (m : JsMap V) (k : Str) (v v0 : V) :
  Map_get m k = Some v0 -> Map_keys (Map_set m k v) = Map_keys m.
Proof.
  induction m as [|[k' v'] m IH]; simpl; [discriminate|].
  destruct (eqb_str k' k); simpl; [reflexivity|].
  intros H; f_equal; now apply IH.
Qed.

Lemma Map_set_entries (V : Type) (m : JsMap V) (k : Str) (v v0 : V) :
  NoDup (Map_keys m) -> Map_get m k = Some v0 ->
  forall k' v', In (k', v') (Map_set m k v)
                <-> (k' = k /\ v' = v) \/ (k' <> k /\ In (k', v') m).
Proof.
  induction m as [|[k1 v1] m IH]; simpl; [discriminate|].
  intros Hnd Hget k' v'; inversion Hnd as [|? ? Hnotin Hnd']; subst.
  destruct (eqb_str k1 k) eqn:E.
  - apply eqb_str_eq in E; subst k1; simpl. split.
    + intros [H|H]; [injection H as <- <-; now left|].
      right; split; [|now right].
      intros ->; apply Hnotin. now apply (in_map fst) in H.
    + intros [[-> ->]|[Hne [H|H]]]; [now left| |now right].
      injection H as <- _; contradiction.
  - apply eqb_str_neq in E; simpl. rewrite (IH Hnd' Hget k' v'). split.
    + intros [H|[H|[Hne H]]]; auto.
      injection H as <- <-; right; split; [exact E|now left].
    + intros [H|[Hne [H|H]]]; auto.
Qed.

(** ** Tallies *)

Lemma tally_snoc (D : list Str) (x k : Str) :
  tally (D ++ [x]) k = tally D k + (if eqb_str k x then 1 else 0).
Proof.
  unfold tally; rewrite filter_app, length_app; simpl.
  now destruct (eqb_str k x).
Qed.

Lemma tally_pos (D : list Str) (k : Str) : 1 <= tally D k <-> In k D.
Proof.
  unfold tally; induction D as [|x D IH]; simpl; [split; [lia|tauto]|].
  destruct (eqb_str k x) eqn:E; simpl.
  - apply eqb_str_eq in E; split; [auto|lia].
  - apply eqb_str_neq in E; rewrite IH; split; [auto|].
    intros [H|H]; [congruence|exact H].
Qed.

Lemma firstSeen_snoc (D : list Str) (x k : Str) :
  In k D -> firstSeen k (D ++ [x]) = firstSeen k D.
Proof.
  induction D as [|y D IH]; simpl; [tauto|].
  destruct (eqb_str y k) eqn:E; [reflexivity|].
  apply eqb_str_neq in E. intros [H|H]; [contradiction|now rewrite IH].
Qed.

Lemma firstSeen_lt (D : list Str) (k : Str) :
  In k D -> firstSeen k D < length D.
Proof.
  induction D as [|y D IH]; simpl; [tauto|].
  destruct (eqb_str y k) eqn:E; [lia|].
  apply eqb_str_neq in E. intros [H|H]; [contradiction|]. apply IH in H; lia.
Qed.

Lemma firstSeen_new (D : list Str) (k : Str) :
  ~ In k D -> firstSeen k (D ++ [k]) = length D.
Proof.
  induction D as [|y D IH]; simpl.
  - now rewrite eqb_str_refl.
  - intros H. destruct (eqb_str y k) eqn:E.
    + apply eqb_str_eq in E; exfalso; auto.
    + rewrite IH; auto.
Qed.

(** ** Sorted lists *)

Lemma StronglySorted_snoc (A : Type) (R : A -> A -> Prop) (l : list A) (x : A) :
  StronglySorted R l -> Forall (fun a => R a x) l ->
  StronglySorted R (l ++ [x]).
Proof.
  induction 1 as [|a l Hs IH Ha]; intros Hx; simpl.
  - constructor; constructor.
  - inversion Hx; subst. constructor; [now apply IH|].
    apply Forall_app; split; [exact Ha|now constructor].
Qed.

Lemma StronglySorted_weaken (A : Type) (R R' : A -> A -> Prop) (l : list A) :
  (forall a b, In a l -> In b l -> R a b -> R' a b) ->
  StronglySorted R l -> StronglySorted R' l.
Proof.
  intros Himp Hs; induction Hs as [|a l Hs IH Ha]; constructor.
  - apply IH; intros; apply Himp; simpl; auto.
  - rewrite Forall_forall in *; intros b Hb.
    apply Himp; simpl; auto.
Qed.

Lemma StronglySorted_filter (A : Type) (R : A -> A -> Prop) (f : A -> bool)
  (l : list A) :
  StronglySorted R l -> StronglySorted R (filter f l).
Proof.
  induction 1 as [|a l Hs IH Ha]; simpl; [constructor|].
  destruct (f a); [|exact IH].
  constructor; [exact IH|].
  rewrite Forall_forall in *; intros b Hb.
  apply filter_In in Hb as [Hb _]; auto.
Qed.

Lemma StronglySorted_map (A B : Type) (R : B -> B -> Prop) (f : A -> B)
  (l : list A) :
  StronglySorted (fun a b => R (f a) (f b)) l <-> StronglySorted R (map f l).
Proof.
  induction l as [|a l IH]; simpl; split; intros H; try constructor;
    inversion H; subst.
  - now apply IH.
  - now apply Forall_map.
  - now apply IH.
  - now apply Forall_map.
Qed.

(** ** The first pass: counting mentions *)

Lemma fold_left_flat_map (A B S : Type) (h : S -> A -> S) (g : S -> B -> S)
  (f : A -> list B) :
  (forall s a, h s a = fold_left g (f a) s) ->
  forall l s, fold_left h l s = fold_left g (flat_map f l) s.
Proof.
  intros Hh l; induction l as [|a l IH]; intros s; simpl; [reflexivity|].
  now rewrite fold_left_app, IH, Hh.
Qed.

Lemma keys_entries (V : Type) (m : JsMap V) (k : Str) :
  In k (Map_keys m) -> exists v, In (k, v) m.
Proof.
  unfold Map_keys; intros H; apply in_map_iff in H as [[k' v] [E H]].
  simpl in E; subst; eauto.
Qed.

(** The map built by recording the detected names one by one: its keys are
    the distinct names in first-seen order, each with its tally. *)
Lemma recordMention_tallies (D : list Str) :
  NoDup (Map_keys (fold_left recordMention D []))
  /\ (forall k v, In (k, v) (fold_left recordMention D []) ->
        v = tally D k /\ 1 <= v)
  /\ (forall k, In k D -> In k (Map_keys (fold_left recordMention D [])))
  /\ StronglySorted (fun a b => firstSeen a D < firstSeen b D)
       (Map_keys (fold_left recordMention D [])).
Proof.
  induction D as [|x D IH] using rev_ind; simpl.
  - repeat split; try constructor; intros; tauto.
  - rewrite fold_left_app; simpl.
    set (M := fold_left recordMention D []) in *.
    destruct IH as (Hnd & Hent & Hin & Hsort).
    assert (Hsub : forall k, In k (Map_keys M) -> In k D).
    { intros k Hk; apply keys_entries in Hk as [v Hv].
      apply Hent in Hv as [-> Hv]; now apply tally_pos. }
    unfold recordMention.
    destruct (Map_get M x) as [v0|] eqn:Eg.
    + pose proof (Map_get_entry _ _ Eg) as Hx.
      destruct (Hent _ _ Hx) as [Hv0 Hpos].
      rewrite (Map_set_keys _ _ _ Eg).
      split; [exact Hnd|]. split; [|split].
      * intros k v Hkv.
        eapply Map_set_entries in Hkv; [|exact Hnd|exact Eg].
        destruct Hkv as [[-> ->]|[Hne Hkv]]; rewrite tally_snoc.
        -- rewrite eqb_str_refl; simpl; lia.
        -- apply eqb_str_neq in Hne; rewrite Hne.
           apply Hent in Hkv; lia.
      * intros k Hk; apply in_app_iff in Hk as [Hk|[<-|[]]]; auto.
        apply (in_map fst) in Hx; exact Hx.
      * apply StronglySorted_weaken with (2 := Hsort).
        intros a b Ha Hb; rewrite !firstSeen_snoc; auto.
    + rewrite Map_set_new by exact Eg.
      apply Map_get_none in Eg.
      assert (Hx : ~ In x D) by (intros H; apply Eg, Hin, H).
      unfold Map_keys in *; rewrite map_app; simpl.
      split; [|split; [|split]].
      * apply NoDup_app; [exact Hnd|repeat constructor; simpl; tauto|].
        intros a Ha [<-|[]]; contradiction.
      * intros k v Hkv; rewrite tally_snoc.
        apply in_app_iff in Hkv as [Hkv|[Hkv|[]]].
        -- destruct (eqb_str k x) eqn:E.
           ++ apply eqb_str_eq in E; subst k.
              apply (in_map fst) in Hkv; contradiction.
           ++ apply Hent in Hkv; lia.
        -- injection Hkv as <- <-. rewrite eqb_str_refl.
           assert (tally D x = 0); [|simpl; lia].
           destruct (tally D x) eqn:Et; [reflexivity|].
           exfalso; apply Hx, tally_pos; lia.
      * intros k Hk; apply in_app_iff.
        apply in_app_iff in Hk as [Hk|[<-|[]]]; [left; auto|right; now left].
      * apply StronglySorted_snoc.
        -- apply StronglySorted_weaken with (2 := Hsort).
           intros a b Ha Hb; rewrite !firstSeen_snoc; auto.
        -- apply Forall_forall; intros a Ha.
           rewrite firstSeen_snoc by auto. rewrite firstSeen_new by exact Hx.
           apply firstSeen_lt; auto.
Qed.

(** ** The stable sort by descending count *)

Lemma insertByCount_perm (e : Str * nat) (l : list (Str * nat)) :
  Permutation (insertByCount e l) (e :: l).
Proof.
  induction l as [|y l IH]; simpl; [reflexivity|].
  destruct (snd e <? snd y); [|reflexivity].
  rewrite IH; apply perm_swap.
Qed.

Lemma sortByCount_perm (l : list (Str * nat)) : Permutation (sortByCount l) l.
Proof.
  induction l as [|x l IH]; simpl; [reflexivity|].
  rewrite insertByCount_perm; now constructor.
Qed.

Section StableSort.

(** [P a b]: [a] stands before [b] in the array that is sorted. *)
Variable P : Str * nat -> Str * nat -> Prop.

Let Q (a b : Str * nat) : Prop := snd b < snd a \/ (snd a = snd b /\ P a b).

Lemma insertByCount_sorted (e : Str * nat) (l : list (Str * nat)) :
  StronglySorted Q l -> Forall (P e) l -> StronglySorted Q (insertByCount e l).
Proof.
  induction 1 as [|y l Hs IH Hy]; intros He; simpl.
  - constructor; constructor.
  - inversion He as [|? ? Hey Hel]; subst.
    destruct (snd e <? snd y) eqn:E.
    + apply Nat.ltb_lt in E. constructor; [now apply IH|].
      apply Forall_forall; intros z Hz.
      apply (Permutation_in _ (insertByCount_perm e l)) in Hz as [<-|Hz].
      * now left.
      * rewrite Forall_forall in Hy; auto.
    + apply Nat.ltb_ge in E. constructor; [now constructor|].
      rewrite Forall_forall in *. intros z [Ez|Hz].
      * subst z. destruct (Nat.eq_dec (snd e) (snd y));
          [right; split; [assumption|exact Hey]|left; lia].
      * assert (Hle : snd z <= snd y).
        { destruct (Hy z Hz) as [H|[H _]]; lia. }
        destruct (Nat.eq_dec (snd e) (snd z));
          [right; split; [assumption|now apply Hel]|left; lia].
Qed.

Lemma sortByCount_sorted (l : list (Str * nat)) :
  StronglySorted P l -> StronglySorted Q (sortByCount l).
Proof.
  induction 1 as [|x l Hs IH Hx]; simpl; [constructor|].
  apply insertByCount_sorted; [exact IH|].
  rewrite Forall_forall in *; intros z Hz.
  apply Hx. now apply (Permutation_in _ (sortByCount_perm l)).
Qed.

End StableSort.

(** ** The character catalog *)

Lemma NoDup_map_filter (A B : Type) (g : A -> B) (f : A -> bool) (l : list A) :
  NoDup (map g l) -> NoDup (map g (filter f l)).
Proof.
  induction l as [|a l IH]; simpl; [auto|].
  intros H; inversion H as [|? ? Hn Hd]; subst.
  destruct (f a); simpl; [|auto].
  constructor; [|auto].
  intros Hin; apply Hn. apply in_map_iff in Hin as [b [E Hb]].
  apply filter_In in Hb as [Hb _]. rewrite <- E; now apply in_map.
Qed.

Lemma buildCharacterMap_from (l : list (Str * nat)) :
  forall (k : nat) (acc : JsMap Character.t),
    NoDup (Map_keys acc ++ map fst l) ->
    let built :=
      fold_left
        (fun characterMap ie =>
           Map_set characterMap (fst (snd ie))
             {| Character.id := toString (fst ie + 1);
                Character.name := fst (snd ie) |})
        (combine (seq k (length l)) l) acc in
    map Character.name (Map_values built)
    = map Character.name (Map_values acc) ++ map fst l
    /\ map Character.id (Map_values built)
       = map Character.id (Map_values acc)
         ++ map toString (seq (k + 1) (length l)).
Proof.
  induction l as [|[n c] l IH]; intros k acc Hnd; simpl.
  - now rewrite !app_nil_r.
  - assert (Hnew : Map_get acc n = None).
    { apply Map_get_none. intros Hin.
      apply NoDup_remove_2 in Hnd. apply Hnd, in_app_iff; now left. }
    rewrite Map_set_new by exact Hnew.
    specialize (IH (S k)
                  (acc ++ [(n, {| Character.id := toString (k + 1);
                                  Character.name := n |})])).
    simpl in IH.
    destruct IH as [IHn IHi].
    { unfold Map_keys in *. rewrite map_app; simpl.
      now rewrite <- app_assoc. }
    rewrite IHn, IHi. unfold Map_values. rewrite !map_app; simpl.
    rewrite <- !app_assoc; simpl. now rewrite Nat.add_1_r.
Qed.

Section Catalog.

Variable toUpperCase : Str -> Str.

Lemma countMentions_detected (lines : list Str) :
  countMentions toUpperCase lines
  = fold_left recordMention (detectedNames toUpperCase lines) [].
Proof.
  unfold countMentions, detectedNames.
  apply fold_left_flat_map; intros m line.
  apply fold_left_flat_map; intros m' pattern.
  unfold mention.
  destruct (candidateName line pattern) as [characterName|]; [|reflexivity].
  now destruct (qualifies toUpperCase characterName).
Qed.

(** The catalog built from the first pass. *)
Lemma catalog_spec (lines : list Str) (catalog : list Character.t) :
  catalog = Map_values
              (buildCharacterMap
                 (likelyCharacters (countMentions toUpperCase lines))) ->
  NoDup (map Character.name catalog)
  /\ (forall name, In name (map Character.name catalog)
                   <-> 2 <= tally (detectedNames toUpperCase lines) name)
  /\ StronglySorted (ranksBefore (detectedNames toUpperCase lines))
       (map Character.name catalog)
  /\ map Character.id catalog = map toString (seq 1 (length catalog)).
Proof.
  intros ->. rewrite countMentions_detected.
  set (D := detectedNames toUpperCase lines).
  destruct (recordMention_tallies D) as (Hnd & Hent & Hin & Hsort).
  set (M := fold_left recordMention D []) in *.
  unfold likelyCharacters, Map_entries.
  set (kept := filter (fun e : Str * nat => 2 <=? snd e) M).
  pose proof (sortByCount_perm kept) as Hperm.
  assert (Hndk : NoDup (map fst (sortByCount kept))).
  { apply Permutation_NoDup with (map fst kept).
    - apply Permutation_map; now symmetry.
    - now apply NoDup_map_filter. }
  destruct (buildCharacterMap_from (sortByCount kept) 0 []) as [Hn Hi];
    [exact Hndk|].
  simpl in Hn, Hi. unfold buildCharacterMap. rewrite Hn.
  assert (Hmem : forall e, In e (sortByCount kept) <-> In e M /\ 2 <= snd e).
  { intros e; split.
    - intros H; apply (Permutation_in _ Hperm), filter_In in H as [H1 H2].
      split; [exact H1|now apply Nat.leb_le].
    - intros [H1 H2]. apply (Permutation_in _ (Permutation_sym Hperm)).
      apply filter_In; split; [exact H1|now apply Nat.leb_le]. }
  split; [exact Hndk|]. split; [|split].
  - intros name; split.
    + intros H; apply in_map_iff in H as [[n v] [E H]]; simpl in E; subst n.
      apply Hmem in H as [H1 H2]. apply Hent in H1 as [H1 _]. simpl in H2; lia.
    + intros H. assert (Hk : In name (Map_keys M)).
      { apply Hin, tally_pos; lia. }
      apply keys_entries in Hk as [v Hv].
      apply in_map_iff; exists (name, v); split; [reflexivity|].
      apply Hmem; split; [exact Hv|]. apply Hent in Hv as [-> _]; exact H.
  - apply (proj1 (@StronglySorted_map _ _ (ranksBefore D) fst
                     (sortByCount kept))).
    apply StronglySorted_weaken
      with (R := fun a b : Str * nat =>
                   snd b < snd a
                   \/ (snd a = snd b
                       /\ firstSeen (fst a) D < firstSeen (fst b) D)).
    + intros [a va] [b vb] Ha Hb; simpl.
      apply Hmem in Ha as [Ha _]; apply Hmem in Hb as [Hb _].
      apply Hent in Ha as [-> _]; apply Hent in Hb as [-> _].
      unfold ranksBefore; tauto.
    + apply sortByCount_sorted
        with (P := fun a b : Str * nat =>
                     firstSeen (fst a) D < firstSeen (fst b) D).
      apply StronglySorted_filter.
      now apply (proj2 (@StronglySorted_map _ _
                          (fun a b => firstSeen a D < firstSeen b D) fst M)).
  - rewrite Hi. f_equal. f_equal.
    rewrite <- (length_map Character.name), Hn. now rewrite length_map.
Qed.

(** Ids of the catalog are decimal strings of positive numbers. *)
Lemma catalog_id_positive (lines : list Str) (character : Character.t) :
  In character (Map_values (buildCharacterMap
                  (likelyCharacters (countMentions toUpperCase lines)))) ->
  exists n, Character.id character = toString (S n).
Proof.
  intros Hin. destruct (catalog_spec lines eq_refl) as (_ & _ & _ & Hid).
  apply (in_map Character.id) in Hin. rewrite Hid in Hin.
  apply in_map_iff in Hin as [i [E Hi]]. apply in_seq in Hi.
  destruct i as [|i]; [lia|]. exists i; now rewrite E.
Qed.

(** Title extraction never raises: a matched file name has its stem. *)
Lemma extractScriptTitle_returns (rawText : Str) (lines : list Str) :
  exists title, extractScriptTitle toUpperCase rawText lines = Returned title.
Proof.
  unfold extractScriptTitle.
  destruct (collectTitleCandidates _ []) as [|first [|second others]];
    [|eauto|destruct (_ && _); eauto].
  destruct (exec fileNamePattern (substring0 100 rawText)) as [fileName|] eqn:E;
    [|eauto].
  apply exec_group_defined in E as [stem ->]. cbn [defined bind]. eauto.
Qed.

(** [analyzeScriptText] returns for every input; the script it returns
    holds the title, the catalog and the scenes of a reached state. *)
Lemma analyzeScriptText_returns (rawText : Str) :
  exists st title,
    Reached (buildCharacterMap
               (likelyCharacters
                  (countMentions toUpperCase (split_nl rawText)))) st
    /\ extractScriptTitle toUpperCase rawText (split_nl rawText)
       = Returned title
    /\ analyzeScriptText toUpperCase rawText
       = Returned
           {| Script.title := title;
              Script.characters :=
                Map_values
                  (buildCharacterMap
                     (likelyCharacters
                        (countMentions toUpperCase (split_nl rawText))));
              Script.scenes := Walk.scenes st |}.
Proof.
  unfold analyzeScriptText.
  set (characterMap := buildCharacterMap _).
  destruct (walk_Reached toUpperCase (split_nl rawText)
              (Reached_initial characterMap)) as (st & E & HR).
  destruct (extractScriptTitle_returns rawText (split_nl rawText))
    as [title Et].
  exists st, title; split; [exact HR|]. split; [exact Et|].
  rewrite Et; cbn [bind]. now rewrite E.
Qed.

End Catalog.

(** ** Scenes opened earlier are left alone *)

Section Frame.

Variable toUpperCase : Str -> Str.
Variable characterMap : JsMap Character.t.

Lemma scene_eta (scene : Scene.t) :
  {| Scene.id := Scene.id scene; Scene.name := Scene.name scene;
     Scene.lines := Scene.lines scene |} = scene.
Proof. now destruct scene. Qed.

(** From a state whose current scene is [current], the loop only ever
    touches [current] and the scenes it opens later. *)
Lemma walk_frame (lines : list Str) :
  forall (st : Walk.t) (before : list Scene.t) (current : Scene.t),
    Walk.scenes st = before ++ [current] ->
    exists st' newLines later,
      forEach (segmentLine toUpperCase characterMap) lines st = Returned st'
      /\ Walk.scenes st'
         = before ++ {| Scene.id := Scene.id current;
                        Scene.name := Scene.name current;
                        Scene.lines := newLines |} :: later.
Proof.
  induction lines as [|raw lines IH]; intros st before current E; simpl.
  - exists st, (Scene.lines current), []. now rewrite scene_eta.
  - assert (Hne : Walk.scenes st <> []) by (rewrite E; now destruct before).
    destruct (segmentLine_step toUpperCase characterMap st raw Hne)
      as (st1 & E1 & HS).
    rewrite E1; cbn [bind].
    destruct HS as [st|st name|st character Hc
                   |st before0 scene character text E0 Hc Ht
                   |st before0 scene current0 text E0 Hc Ht
                   |st before0 scene text E0 Ht
                   |st before0 scene earlier previousLine text E0 El Hc Ht].
    + now apply IH.
    + match goal with
      | |- context [forEach _ _ ?s1] =>
          destruct (IH s1 (before ++ [current])
                      {| Scene.id := toString (length (Walk.scenes st) + 1);
                         Scene.name := name; Scene.lines := [] |})
            as (st' & newLines & later & Er & Es);
            [simpl; now rewrite E|]
      end.
      exists st', (Scene.lines current). eexists. split; [exact Er|].
      rewrite scene_eta, Es, <- app_assoc. reflexivity.
    + now apply IH.
    + rewrite E in E0; apply app_inj_tail in E0 as [<- <-].
      eapply (IH _ before (Scene.push _ current)); reflexivity.
    + rewrite E in E0; apply app_inj_tail in E0 as [<- <-].
      eapply (IH _ before (Scene.push _ current)); reflexivity.
    + rewrite E in E0; apply app_inj_tail in E0 as [<- <-].
      eapply (IH _ before (Scene.push _ current)); reflexivity.
    + rewrite E in E0; apply app_inj_tail in E0 as [<- <-].
      eapply (IH _ before
                {| Scene.id := Scene.id current;
                   Scene.name := Scene.name current;
                   Scene.lines := _ |}); reflexivity.
Qed.

(** A scene marker opens a scene and changes nothing else. *)
Lemma marker_step (st : Walk.t) (raw : Str) :
  test sceneMarker (trim raw) = true ->
  segmentLine toUpperCase characterMap st raw
  = Returned
      {| Walk.scenes :=
           Walk.scenes st ++
           [ {| Scene.id := toString (length (Walk.scenes st) + 1);
                Scene.name := trim raw;
                Scene.lines := [] |} ];
         Walk.currentCharacterId := Walk.currentCharacterId st;
         Walk.lineCounter := Walk.lineCounter st |}.
Proof.
  intros H; unfold segmentLine.
  destruct (trim raw) as [|c line]; [discriminate H|].
  now rewrite H.
Qed.

(** A line that continues the speech of the current speaker is appended to
    the last line of the current scene. *)
Lemma merge_step (st : Walk.t) (raw : Str) (before : list Scene.t)
  (scene : Scene.t) (earlier : list Line.t) (previousLine : Line.t) :
  Walk.scenes st = before ++ [scene] ->
  Scene.lines scene = earlier ++ [previousLine] ->
  Walk.currentCharacterId st = Some (Line.characterId previousLine) ->
  Line.characterId previousLine <> [] ->
  trim raw <> [] ->
  test sceneMarker (trim raw) = false ->
  findSpeaker characterMap (trim raw) = None ->
  isSceneDirection (trim raw) = false ->
  segmentLine toUpperCase characterMap st raw
  = Returned
      {| Walk.scenes :=
           before ++
           [ {| Scene.id := Scene.id scene; Scene.name := Scene.name scene;
                Scene.lines :=
                  earlier
                  ++ [Line.appendText (space :: trim raw) previousLine] |} ];
         Walk.currentCharacterId := Walk.currentCharacterId st;
         Walk.lineCounter := Walk.lineCounter st |}.
Proof.
  intros E El Ec Hc Hl Hm Hf Hd; unfold segmentLine.
  destruct (trim raw) as [|c line] eqn:Et; [contradiction|].
  cbn [length Nat.eqb]. rewrite Hm, Hf, Ec.
  destruct (Line.characterId previousLine) as [|d ds] eqn:Ep; [contradiction|].
  rewrite Hd. cbn [length Nat.ltb Nat.leb andb negb].
  rewrite E, lastOf_app. cbn [defined bind].
  rewrite El, lastOf_app, length_app, Nat.add_comm.
  cbn [length Nat.add Nat.ltb Nat.leb defined bind].
  rewrite Ep, eqb_str_refl.
  rewrite updateLast_app. unfold Scene.updateLastLine.
  now rewrite El, updateLast_app.
Qed.

End Frame.

(** ** Title extraction *)

Lemma firstn_min_length (A : Type) (n : nat) (l : list A) :
  firstn (Nat.min n (length l)) l = firstn n l.
Proof.
  destruct (Nat.le_ge_cases n (length l)) as [H|H].
  - now rewrite Nat.min_l.
  - rewrite Nat.min_r by exact H. now rewrite firstn_all, firstn_all2.
Qed.

(** The loop keeps the first two candidates it meets. *)
Lemma collectTitleCandidates_spec (lines : list Str) :
  forall titleCandidates,
    length titleCandidates < 2 ->
    collectTitleCandidates lines titleCandidates
    = firstn 2 (titleCandidates ++ filter isTitleCandidate (map trim lines)).
Proof.
  induction lines as [|raw lines IH]; intros acc Hacc;
    cbn [collectTitleCandidates map filter].
  - rewrite app_nil_r. symmetry; apply firstn_all2; lia.
  - unfold isTitleCandidate at 1.
    destruct (length (trim raw) =? 0) eqn:E0; cbn [negb andb];
      [now apply IH|].
    assert (Hpos : (0 <? length (trim raw)) = true).
    { apply Nat.ltb_lt. apply Nat.eqb_neq in E0. lia. }
    rewrite Hpos; cbn [andb].
    destruct ((length (trim raw) <? 60) && negb (includes colon (trim raw))).
    + destruct (2 <=? length (acc ++ [trim raw])) eqn:E2.
      * apply Nat.leb_le in E2. rewrite length_app in E2; simpl in E2.
        replace (acc ++ trim raw :: filter isTitleCandidate (map trim lines))
          with ((acc ++ [trim raw])
                ++ filter isTitleCandidate (map trim lines))
          by now rewrite <- app_assoc.
        rewrite firstn_app.
        replace (2 - length (acc ++ [trim raw])) with 0
          by (rewrite length_app; cbn [length]; lia).
        rewrite firstn_all2 by (rewrite length_app; cbn [length]; lia).
        rewrite firstn_O. now rewrite app_nil_r.
      * apply Nat.leb_gt in E2. rewrite IH by exact E2.
        now rewrite <- app_assoc.
    + destruct (2 <=? length acc) eqn:E2.
      * apply Nat.leb_le in E2; lia.
      * now apply IH.
Qed.

(** ** The catalog of [parseScript] *)

Lemma existsb_eqb_str (name : Str) (l : list Str) :
  existsb (eqb_str name) l = true <-> In name l.
Proof.
  rewrite existsb_exists; split.
  - intros [x [Hx E]]; apply eqb_str_eq in E; now subst.
  - intros H; exists name; split; [exact H|apply eqb_str_refl].
Qed.

Lemma distinct_snoc (seen : list Str) (name : Str) :
  distinct (seen ++ [name]) = Set_add (distinct seen) name.
Proof. unfold distinct; now rewrite fold_left_app. Qed.

Lemma pushFirstScene_characters (l : Line.t) (script script' : Script.t) :
  pushFirstScene l script = Returned script' ->
  Script.characters script' = Script.characters script.
Proof.
  unfold pushFirstScene, firstSceneLines.
  destruct (nth_error (Script.scenes script) 0); simpl; [|discriminate].
  intros H; injection H as <-; reflexivity.
Qed.

(** What [parseScript] keeps true of its catalog while [seen] are the cue
    names met so far. *)
Lemma parseLine_catalog (st st' : Parse.t) (textLine : Str) (seen : list Str) :
  parseLine st textLine = Returned st' ->
  map Character.name (Script.characters (Parse.script st)) = distinct seen
  /\ Map_keys (Parse.characterMap st)
     = map Character.name (Script.characters (Parse.script st))
  /\ map Character.id (Script.characters (Parse.script st))
     = map toString (seq 1 (length (Script.characters (Parse.script st)))) ->
  map Character.name (Script.characters (Parse.script st'))
  = distinct (seen ++ cueNames [textLine])
  /\ Map_keys (Parse.characterMap st')
     = map Character.name (Script.characters (Parse.script st'))
  /\ map Character.id (Script.characters (Parse.script st'))
     = map toString (seq 1 (length (Script.characters (Parse.script st')))).
Proof.
  intros Hrun (Hnames & Hkeys & Hids).
  unfold parseLine in Hrun. unfold cueNames, cueName; cbn [flat_map].
  destruct (exec cuePattern textLine) as [characterMatch|].
  - destruct (group 1 (groups characterMatch)) as [captured|];
      [|discriminate Hrun].
    cbn [defined bind option_map app] in *. rewrite distinct_snoc.
    set (name := trim captured) in *.
    assert (Hst1 :
      forall st1,
        st1 = (if negb (Map_has (Parse.characterMap st) name)
               then {| Parse.script :=
                         addCharacter
                           {| Character.id :=
                                toString (Map_size (Parse.characterMap st) + 1);
                              Character.name := name |} (Parse.script st);
                       Parse.characterMap :=
                         Map_set (Parse.characterMap st) name
                           {| Character.id :=
                                toString (Map_size (Parse.characterMap st) + 1);
                              Character.name := name |};
                       Parse.currentCharacter := Some name;
                       Parse.lineCounter := Parse.lineCounter st |}
               else {| Parse.script := Parse.script st;
                       Parse.characterMap := Parse.characterMap st;
                       Parse.currentCharacter := Some name;
                       Parse.lineCounter := Parse.lineCounter st |}) ->
        map Character.name (Script.characters (Parse.script st1))
        = Set_add (distinct seen) name
        /\ Map_keys (Parse.characterMap st1)
           = map Character.name (Script.characters (Parse.script st1))
        /\ map Character.id (Script.characters (Parse.script st1))
           = map toString
               (seq 1 (length (Script.characters (Parse.script st1))))).
    { intros st1 ->. unfold Map_has, Set_add.
      destruct (Map_get (Parse.characterMap st) name) as [known|] eqn:Eg;
        cbn [negb Parse.script Parse.characterMap].
      - apply Map_get_entry, (in_map fst) in Eg. cbn [fst] in Eg.
        fold (Map_keys (Parse.characterMap st)) in Eg.
        rewrite Hkeys, Hnames in Eg.
        apply existsb_eqb_str in Eg. rewrite Eg. auto.
      - pose proof Eg as Enew. apply Map_get_none in Eg.
        rewrite Hkeys, Hnames in Eg.
        destruct (existsb (eqb_str name) (distinct seen)) eqn:Ex;
          [apply existsb_eqb_str in Ex; contradiction|].
        rewrite Map_set_new by exact Enew.
        unfold addCharacter, Map_keys, Map_size in *;
          cbn [Script.characters].
        rewrite !map_app, length_app; cbn [map length fst Character.name
                                              Character.id].
        rewrite Hkeys, Hnames, Hids.
        assert (El : length (Parse.characterMap st)
                     = length (Script.characters (Parse.script st))).
        { apply (f_equal (@length Str)) in Hkeys.
          now rewrite !length_map in Hkeys. }
        rewrite El.
        replace (length (Script.characters (Parse.script st)) + 1)
          with (S (length (Script.characters (Parse.script st)))) by lia.
        now rewrite seq_S, map_app. }
    match type of Hrun with
    | context [if negb ?c then ?a else ?b] =>
        specialize (Hst1 (if negb c then a else b) eq_refl);
        set (st1 := if negb c then a else b) in *
    end.
    destruct (0 <? length _) in Hrun.
    + destruct (Map_get (Parse.characterMap st1) name) as [speaker|];
        [|discriminate Hrun].
      cbn [defined bind] in Hrun.
      destruct (pushFirstScene _ (Parse.script st1)) as [script|] eqn:Ep;
        [|discriminate Hrun].
      cbn [bind] in Hrun. injection Hrun as <-.
      cbn [Parse.script Parse.characterMap].
      now rewrite (pushFirstScene_characters _ _ Ep).
    + injection Hrun as <-. exact Hst1.
  - cbn [app]. rewrite app_nil_r.
    destruct (truthy (Parse.currentCharacter st) && (0 <? length textLine)).
    + destruct (firstSceneLines (Parse.script st)) as [lines|];
        [|discriminate Hrun].
      cbn [bind] in Hrun.
      destruct (lastOf lines); [|discriminate Hrun].
      cbn [defined bind] in Hrun. injection Hrun as <-.
      cbn [Parse.script Parse.characterMap updateFirstScene
             Script.characters]. auto.
    + destruct (0 <? length textLine).
      * destruct (pushFirstScene _ (Parse.script st)) as [script|] eqn:Ep;
          [|discriminate Hrun].
        cbn [bind] in Hrun. injection Hrun as <-.
        cbn [Parse.script Parse.characterMap].
        now rewrite (pushFirstScene_characters _ _ Ep).
      * injection Hrun as <-. auto.
Qed.

Lemma parseLines_catalog (textLines : list Str) :
  forall (st st' : Parse.t) (seen : list Str),
    forEach parseLine textLines st = Returned st' ->
    map Character.name (Script.characters (Parse.script st)) = distinct seen
    /\ Map_keys (Parse.characterMap st)
       = map Character.name (Script.characters (Parse.script st))
    /\ map Character.id (Script.characters (Parse.script st))
       = map toString (seq 1 (length (Script.characters (Parse.script st)))) ->
    map Character.name (Script.characters (Parse.script st'))
    = distinct (seen ++ cueNames textLines)
    /\ map Character.id (Script.characters (Parse.script st'))
       = map toString (seq 1 (length (Script.characters (Parse.script st')))).
Proof.
  induction textLines as [|textLine textLines IH]; intros st st' seen Hrun J.
  - injection Hrun as <-. unfold cueNames; cbn [flat_map].
    rewrite app_nil_r. tauto.
  - cbn [forEach] in Hrun.
    destruct (parseLine st textLine) as [st1|] eqn:E1; [|discriminate Hrun].
    cbn [bind] in Hrun.
    pose proof (@parseLine_catalog st st1 textLine seen E1 J) as J1.
    specialize (IH st1 st' _ Hrun J1).
    unfold cueNames in *; cbn [flat_map] in *.
    now rewrite app_nil_r, <- app_assoc in IH.
Qed.

(** Whenever [parseScript] returns, its catalog lists every cue name it met,
    once, in first-seen order, with ids "1", "2", ... *)
Lemma parseScript_catalog (rawText : Str) (script : Script.t) :
  parseScript rawText = Returned script ->
  map Character.name (Script.characters script)
  = distinct (cueNames (parsedLines rawText))
  /\ map Character.id (Script.characters script)
     = map toString (seq 1 (length (Script.characters script))).
Proof.
  unfold parseScript, parsedLines.
  match goal with
  | |- context [filter ?f ?l] => destruct (filter f l) as [|first rest]
  end.
  - cbn [forEach bind]. intros H; injection H as <-. now split.
  - destruct (negb (includes colon first)).
    + destruct (forEach parseLine rest _) as [st|] eqn:E; [|discriminate].
      cbn [bind]. intros H; injection H as <-.
      apply (@parseLines_catalog _ _ st [] E). now repeat split.
    + destruct (forEach parseLine (first :: rest) _) as [st|] eqn:E;
        [|discriminate].
      cbn [bind]. intros H; injection H as <-.
      apply (@parseLines_catalog _ _ st [] E). now repeat split.
Qed.

(** ** The structuring engine *)

Section Engine.

Variable toUpperCase : Str -> Str.

(** X19: [analyzeScriptText] never raises.  Its catalog is empty exactly
    when no detected name reaches a tally of 2, and then every line it emits
    is a stage direction under the sentinel id "0". *)
Lemma analyzeScriptText_never_raises (rawText : Str) :
  exists script,
    analyzeScriptText toUpperCase rawText = Returned script
    /\ (Script.characters script = []
        <-> forall name,
              tally (detectedNames toUpperCase (split_nl rawText)) name < 2)
    /\ (Script.characters script = [] ->
        forall line, In line (allLines (Script.scenes script)) ->
          Line.characterId line = noSpeaker
          /\ Line.isDirection line = Some true).
Proof.
  destruct (analyzeScriptText_returns toUpperCase rawText)
    as (st & title & HR & _ & E).
  eexists; split; [exact E|]. cbn [Script.characters Script.scenes].
  destruct (catalog_spec toUpperCase (split_nl rawText) eq_refl)
    as (_ & Hin & _ & _).
  split; [split|].
  - intros E0 name. rewrite E0 in Hin. specialize (Hin name); simpl in Hin.
    destruct (Nat.lt_ge_cases (tally (detectedNames toUpperCase
                                        (split_nl rawText)) name) 2);
      tauto.
  - intros Hno.
    destruct (Map_values _) as [|character catalog] eqn:Ec; [reflexivity|].
    specialize (Hno (Character.name character)).
    assert (2 <= tally (detectedNames toUpperCase (split_nl rawText))
                   (Character.name character)); [|lia].
    apply Hin; now left.
  - intros E0 line Hl. destruct (reached_speakers HR line Hl) as [H|H];
      [exact H|].
    destruct H as (character & Hc & _). rewrite E0 in Hc; contradiction.
Qed.

(** C2: for every input string the returned script has at least one scene,
    and the ids of its lines, read in document order across all scenes, are
    exactly the decimal strings "1", "2", "3", ... *)
Theorem line_ids_sequential (rawText : Str) :
  exists script,
    analyzeScriptText toUpperCase rawText = Returned script
    /\ Script.scenes script <> []
    /\ map Line.id (allLines (Script.scenes script))
       = map toString (seq 1 (length (allLines (Script.scenes script)))).
Proof.
  destruct (analyzeScriptText_returns toUpperCase rawText)
    as (st & title & HR & _ & E).
  eexists; split; [exact E|]. cbn [Script.scenes].
  split; [exact (reached_scene HR)|].
  pose proof (reached_ids HR) as Hi. rewrite Hi. do 2 f_equal.
  apply (f_equal (@length Str)) in Hi.
  now rewrite !length_map, length_seq in Hi.
Qed.

(** C4: for every input string, the character id of every line of the
    returned script is the sentinel "0" or the id of a character of
    [script.characters], and "0" is not the id of any character there. *)
Theorem speaker_ids_known (rawText : Str) :
  exists script,
    analyzeScriptText toUpperCase rawText = Returned script
    /\ (forall line, In line (allLines (Script.scenes script)) ->
          Line.characterId line = noSpeaker
          \/ exists character,
               In character (Script.characters script)
               /\ Character.id character = Line.characterId line)
    /\ (forall character, In character (Script.characters script) ->
          Character.id character <> noSpeaker).
Proof.
  destruct (analyzeScriptText_returns toUpperCase rawText)
    as (st & title & HR & _ & E).
  eexists; split; [exact E|]. cbn [Script.characters Script.scenes]. split.
  - intros line Hl. destruct (reached_speakers HR line Hl) as [[H _]|H]; auto.
  - intros character Hc.
    destruct (catalog_id_positive toUpperCase _ _ Hc) as [n ->].
    apply toString_not_zero.
Qed.

(** C5 (amended): when the current scene's last line belongs to the current
    speaker, consecutive non-blank lines that are not scene or act markers,
    are not speaker-prefixed and do not look like stage directions are all
    merged into that line: its text becomes the space-joined concatenation
    of the pieces, and no new line is emitted. *)
Theorem continuation_merge (characterMap : JsMap Character.t) (st : Walk.t)
  (before : list Scene.t) (scene : Scene.t) (earlier : list Line.t)
  (previousLine : Line.t) (raws : list Str) :
  Walk.scenes st = before ++ [scene] ->
  Scene.lines scene = earlier ++ [previousLine] ->
  Walk.currentCharacterId st = Some (Line.characterId previousLine) ->
  Line.characterId previousLine <> [] ->
  Forall (fun raw => trim raw <> []
                     /\ test sceneMarker (trim raw) = false
                     /\ findSpeaker characterMap (trim raw) = None
                     /\ isSceneDirection (trim raw) = false) raws ->
  forEach (segmentLine toUpperCase characterMap) raws st
  = Returned
      {| Walk.scenes :=
           before ++
           [ {| Scene.id := Scene.id scene; Scene.name := Scene.name scene;
                Scene.lines :=
                  earlier
                  ++ [Line.appendText
                        (concat (map (fun raw => space :: trim raw) raws))
                        previousLine] |} ];
         Walk.currentCharacterId := Walk.currentCharacterId st;
         Walk.lineCounter := Walk.lineCounter st |}.
Proof.
  revert st scene previousLine.
  induction raws as [|raw raws IH]; intros st scene previousLine E El Ec Hc Hr.
  - destruct st, scene, previousLine; simpl in *; subst.
    unfold Line.appendText; simpl. now rewrite app_nil_r.
  - inversion Hr as [|? ? (Hl & Hm & Hf & Hd) Hr']; subst.
    cbn [forEach].
    rewrite (@merge_step toUpperCase characterMap st raw before scene earlier
               previousLine E El Ec Hc Hl Hm Hf Hd).
    cbn [bind].
    erewrite IH; [|reflexivity|reflexivity|exact Ec|exact Hc|exact Hr'].
    cbn [Walk.currentCharacterId Walk.lineCounter Scene.id Scene.name].
    do 5 f_equal. unfold Line.appendText; simpl.
    now rewrite <- app_assoc.
Qed.

(** C9 (amended): for every input string, the text of every line of the
    returned script is non-empty and has no leading or trailing
    whitespace. *)
Theorem line_text_trimmed (rawText : Str) :
  exists script,
    analyzeScriptText toUpperCase rawText = Returned script
    /\ forall line, In line (allLines (Script.scenes script)) ->
         Line.text line <> [] /\ trim (Line.text line) = Line.text line.
Proof.
  destruct (analyzeScriptText_returns toUpperCase rawText)
    as (st & title & HR & _ & E).
  eexists; split; [exact E|]. cbn [Script.scenes].
  intros line Hl. pose proof (reached_texts HR line Hl) as Ht.
  split; [now apply tidy_nonempty|now apply tidy_trim].
Qed.

(** C10: once a scene marker has opened a new scene, the scenes opened
    before it are never modified for the rest of the run, whatever the
    current speaker is: they are, unchanged, the first scenes of the final
    state. *)
Theorem opened_scenes_frozen (characterMap : JsMap Character.t)
  (st : Walk.t) (marker : Str) (rest : list Str) :
  test sceneMarker (trim marker) = true ->
  exists st' later,
    forEach (segmentLine toUpperCase characterMap) (marker :: rest) st
    = Returned st'
    /\ Walk.scenes st' = Walk.scenes st ++ later
    /\ later <> [].
Proof.
  intros H. cbn [forEach].
  rewrite (marker_step toUpperCase characterMap st marker H); cbn [bind].
  match goal with
  | |- context [forEach _ rest ?opened] =>
      destruct (walk_frame toUpperCase characterMap rest opened
                  (Walk.scenes st)
                  {| Scene.id := toString (length (Walk.scenes st) + 1);
                     Scene.name := trim marker; Scene.lines := [] |} eq_refl)
        as (st' & newLines & later & E & Es)
  end.
  exists st'. eexists. split; [exact E|]. split; [exact Es|discriminate].
Qed.

End Engine.

(** ** The engine on sample inputs *)

(** C1: [parseScript] raises on a cue line without text followed by a plain
    line: it extends the text of a previous line that does not exist.
    [analyzeScriptText] returns on the same input. *)
Theorem parseScript_raises_after_bare_cue :
  parseScript cueThenSpeech = Thrown TypeError
  /\ exists script,
       analyzeScriptText asciiToUpperCase cueThenSpeech = Returned script.
Proof.
  split; [vm_compute; reflexivity|].
  eexists; vm_compute; reflexivity.
Qed.

(** C5, counterexample: the line "ACT I" is not speaker-prefixed, does not
    look like a stage direction, and comes when the last line of the current
    scene belongs to the current speaker; it is not merged into that line
    but opens a scene. *)
Lemma marker_line_not_merged :
  findSpeaker sampleCatalog (lit "ACT I") = None
  /\ isSceneDirection (lit "ACT I") = false
  /\ forEach (segmentLine asciiToUpperCase sampleCatalog)
       [lit "ROMEO: Hello there."] initialWalk
     = Returned midSpeech
  /\ option_map Line.characterId (lastOf (Scene.lines firstScene))
     = Walk.currentCharacterId midSpeech
  /\ segmentLine asciiToUpperCase sampleCatalog midSpeech (lit "ACT I")
     = Returned
         {| Walk.scenes :=
              [ firstScene;
                {| Scene.id := lit "2"; Scene.name := lit "ACT I";
                   Scene.lines := [] |} ];
            Walk.currentCharacterId := Some (lit "1");
            Walk.lineCounter := 1 |}
  /\ exists script,
       analyzeScriptText asciiToUpperCase speechThenMarker = Returned script
       /\ Script.characters script = [romeo]
       /\ map (fun scene => map Line.text (Scene.lines scene))
            (Script.scenes script)
          = [[lit "Hello there."]; [lit "Bye."]].
Proof.
  repeat split; try (vm_compute; reflexivity).
  eexists; repeat split; vm_compute; reflexivity.
Qed.

(** Two lines after "ROMEO: Hello there." are merged into its line. *)
Lemma continuation_merge_witness :
  (Walk.scenes midSpeech = [] ++ [firstScene]
   /\ Scene.lines firstScene = [] ++ [helloLine]
   /\ Walk.currentCharacterId midSpeech = Some (Line.characterId helloLine)
   /\ Line.characterId helloLine <> []
   /\ Forall (fun raw => trim raw <> []
                         /\ test sceneMarker (trim raw) = false
                         /\ findSpeaker sampleCatalog (trim raw) = None
                         /\ isSceneDirection (trim raw) = false)
        [lit "Still talking."; lit "  And more.  "])
  /\ forEach (segmentLine asciiToUpperCase sampleCatalog)
       [lit "Still talking."; lit "  And more.  "] midSpeech
     = Returned
         {| Walk.scenes :=
              [] ++
              [ {| Scene.id := Scene.id firstScene;
                   Scene.name := Scene.name firstScene;
                   Scene.lines :=
                     [] ++ [Line.appendText
                              (concat (map (fun raw => space :: trim raw)
                                         [lit "Still talking.";
                                          lit "  And more.  "]))
                              helloLine] |} ];
            Walk.currentCharacterId := Walk.currentCharacterId midSpeech;
            Walk.lineCounter := Walk.lineCounter midSpeech |}.
Proof.
  assert (H : Forall (fun raw => trim raw <> []
                         /\ test sceneMarker (trim raw) = false
                         /\ findSpeaker sampleCatalog (trim raw) = None
                         /\ isSceneDirection (trim raw) = false)
                [lit "Still talking."; lit "  And more.  "]).
  { repeat constructor; try (vm_compute; discriminate);
      vm_compute; reflexivity. }
  split.
  - split; [reflexivity|]. split; [reflexivity|]. split; [reflexivity|].
    split; [vm_compute; discriminate|exact H].
  - apply (continuation_merge asciiToUpperCase sampleCatalog midSpeech []
             firstScene [] helloLine);
      [reflexivity|reflexivity|reflexivity|vm_compute; discriminate|exact H].
Defined.

(** C8: on three cue lines followed by two lines of prose, the estimator
    counts four matches, the fourth spanning the two prose lines, and
    reports a likely script with three characters, although only three
    lines match the pattern and they name two characters. *)
Theorem estimator_counts_match_across_lines :
  detectScriptStructure cuesThenProse
  = {| Structure.isLikelyScript := true;
       Structure.characterCount := 3;
       Structure.characterNames :=
         [lit "ROMEO"; lit "GIULIETTA"; unlines ["The end"; "note"]%string];
       Structure.dialogueLines := 4 |}
  /\ filter (test characterLinePattern) (split_nl cuesThenProse)
     = [lit "ROMEO: Hi"; lit "GIULIETTA: Hello"; lit "ROMEO: Bye"].
Proof. split; vm_compute; reflexivity. Qed.

(** C9, counterexample: a run of two spaces inside a line is kept. *)
Lemma line_text_not_collapsed :
  exists script line,
    analyzeScriptText asciiToUpperCase (lit "a  b") = Returned script
    /\ In line (allLines (Script.scenes script))
    /\ Line.text line = lit "a  b"
    /\ singleSpaced (Line.text line) = false.
Proof.
  do 2 eexists. split; [vm_compute; reflexivity|].
  split; [left; reflexivity|]. split; vm_compute; reflexivity.
Qed.

(** A marker, a continuation and a cue after one speech. *)
Lemma opened_scenes_frozen_witness :
  test sceneMarker (trim (lit "SCENE 2")) = true
  /\ exists st' later,
       forEach (segmentLine asciiToUpperCase sampleCatalog)
         [lit "SCENE 2"; lit "Still talking."; lit "ROMEO: Bye."] midSpeech
       = Returned st'
       /\ Walk.scenes st' = Walk.scenes midSpeech ++ later
       /\ later <> [].
Proof.
  split; [vm_compute; reflexivity|].
  apply (opened_scenes_frozen asciiToUpperCase sampleCatalog midSpeech
           (lit "SCENE 2") [lit "Still talking."; lit "ROMEO: Bye."]).
  vm_compute; reflexivity.
Defined.

(** ** Title extraction on sample inputs *)

Example title_second_candidate_upper :
  extractScriptTitle asciiToUpperCase
    (unlines ["di Autore Ignoto"; "AMLETO"; "AMLETO: Essere."]%string)
    [lit "di Autore Ignoto"; lit "AMLETO"; lit "AMLETO: Essere."]
  = Returned (lit "AMLETO").
Proof. vm_compute; reflexivity. Qed.

Example title_from_file_name :
  extractScriptTitle asciiToUpperCase (lit "C:\docs\my_play-v2.TXT")
    [lit "C:\docs\my_play-v2.TXT"]
  = Returned (lit "my play v2").
Proof. vm_compute; reflexivity. Qed.

Example title_placeholder :
  extractScriptTitle asciiToUpperCase [] [[]]
  = Returned (lit "Copione Importato").
Proof. vm_compute; reflexivity. Qed.

(** The scenario of the specification: a continuation line is merged. *)
Example romeo_giulietta :
  exists script,
    analyzeScriptText asciiToUpperCase
      (unlines ["ROMEO: Hello there."; "Still talking.";
                "GIULIETTA: Hi Romeo."; "ROMEO: Again.";
                "GIULIETTA: Again."]%string)
    = Returned script
    /\ map Character.name (Script.characters script)
       = [lit "ROMEO"; lit "GIULIETTA"]
    /\ map (fun l => (Line.characterId l, Line.text l))
         (allLines (Script.scenes script))
       = [ (lit "1", lit "Hello there. Still talking.");
           (lit "2", lit "Hi Romeo.");
           (lit "1", lit "Again.");
           (lit "2", lit "Again.") ].
Proof. eexists; repeat split; vm_compute; reflexivity. Qed.

(** The scenario of the specification: the empty input. *)
Example empty_input :
  analyzeScriptText asciiToUpperCase []
  = Returned {| Script.title := lit "Copione Importato";
                Script.characters := [];
                Script.scenes := [initialScene] |}.
Proof. vm_compute; reflexivity. Qed.

(** ** The patterns on sample lines *)

Example sceneMarker_samples :
  map (fun line => test sceneMarker (lit line))
    ["ATTO I"; "scena 12"; "Act iv"; "SCENE X - the garden"; "Act violently";
     "ATTO"; "ACTOR 1"; "Scene one"; "Primo ATTO I"]%string
  = [true; true; true; true; true; false; false; false; false].
Proof. vm_compute; reflexivity. Qed.

Example characterPatterns_samples :
  map (fun line => map (candidateName (lit line)) characterPatterns)
    ["ROMEO: Hello"; "Frate Lorenzo (entra) Pace"; "  GIULIETTA  ";
     "romeo: hello"]%string
  = [ [Some (lit "ROMEO"); None; None];
      [None; Some (lit "Frate Lorenzo"); None];
      [None; None; Some (lit "GIULIETTA")];
      [None; None; None] ].
Proof. vm_compute; reflexivity. Qed.

Example isSceneDirection_samples :
  map (fun line => isSceneDirection (lit line))
    ["(ride)"; "Entra Romeo"; "si siede"; "Romeo entra";
     "(a parte) Addio"]%string
  = [true; true; true; false; false].
Proof. vm_compute; reflexivity. Qed.

Example looksLikeDialogue_samples :
  map (fun line => looksLikeDialogue asciiToUpperCase (lit line))
    ["Si"; "Addio!"; "(piano) vieni"; "NOTTE A VERONA"; "buona notte"]%string
  = [false; true; false; false; true].
Proof. vm_compute; reflexivity. Qed.

(** * More of the code *)

(** ** What a match consumes *)

Lemma onlyUnits_any (r : Regex) : onlyUnits (fun _ => True) r.
Proof. induction r; simpl; auto. Qed.

Lemma firstn_consumed (consumed rest : Str) :
  firstn (length (consumed ++ rest) - length rest) (consumed ++ rest)
  = consumed.
Proof.
  rewrite length_app, Nat.add_sub, firstn_app, Nat.sub_diag, firstn_all.
  simpl. apply app_nil_r.
Qed.

(** A successful match consumes a prefix of the input and then runs its
    continuation on the rest, with the captures of the groups of the pattern
    added to those made before. *)
Lemma matchAt_trace (P : CodeUnit -> Prop) (r : Regex) :
  onlyUnits P r ->
  forall prev s caps k res,
    matchAt r prev s caps k = Some res ->
    exists consumed prev' s' more,
      s = consumed ++ s'
      /\ Forall P consumed
      /\ Forall (fun e => In (fst e) (groupsOf r)) more
      /\ (forall Q, startsWithUnit Q r ->
            exists c t, consumed = c :: t /\ Q c)
      /\ k prev' s' (more ++ caps) = Some res.
Proof.
  induction r as [|p|r1 IH1 r2 IH2|r1 IH1 r2 IH2|r1 IH1|i r1 IH1|m|m];
    intros HP prev s caps k res H; cbn [matchAt] in H;
    cbn [onlyUnits groupsOf startsWithUnit] in *.
  - exists [], prev, s, []. repeat split; auto; intros Q [].
  - destruct s as [|c s']; [discriminate|].
    destruct (p c) eqn:Ep; [|discriminate].
    exists [c], (Some c), s', []. repeat split; auto.
    intros Q HQ; eauto.
  - destruct HP as [HP1 HP2].
    apply (IH1 HP1) in H as (c1 & p1 & s1 & m1 & -> & F1 & K1 & S1 & H).
    apply (IH2 HP2) in H as (c2 & p2 & s2 & m2 & -> & F2 & K2 & S2 & H).
    exists (c1 ++ c2), p2, s2, (m2 ++ m1).
    rewrite <- !app_assoc. repeat split; auto.
    + apply Forall_app; auto.
    + apply Forall_app; split;
        (eapply Forall_impl; [|eassumption]); intros e He;
        apply in_app_iff; auto.
    + intros Q HQ. destruct (S1 Q HQ) as (c & t & -> & Hc).
      exists c, (t ++ c2); auto.
  - destruct HP as [HP1 HP2].
    destruct (matchAt r1 prev s caps k) as [x|] eqn:E.
    + injection H as ->.
      apply (IH1 HP1) in E as (c1 & p1 & s1 & m1 & -> & F1 & K1 & S1 & H).
      exists c1, p1, s1, m1. repeat split; auto.
      * eapply Forall_impl; [|eassumption]. intros e He.
        apply in_app_iff; auto.
      * intros Q [HQ _]; auto.
    + apply (IH2 HP2) in H as (c2 & p2 & s2 & m2 & -> & F2 & K2 & S2 & H).
      exists c2, p2, s2, m2. repeat split; auto.
      * eapply Forall_impl; [|eassumption]. intros e He.
        apply in_app_iff; auto.
      * intros Q [_ HQ]; auto.
  - revert H. generalize (length s) at 1. intros fuel; revert prev s caps.
    induction fuel as [|fuel IHf]; intros prev s caps H.
    + exists [], prev, s, []. repeat split; auto; intros Q [].
    + match type of H with
      | match ?c with _ => _ end = _ => destruct c as [x|] eqn:E
      end.
      * injection H as ->.
        apply (IH1 HP) in E as (c1 & p1 & s1 & m1 & -> & F1 & K1 & S1 & E).
        destruct (length s1 <? length (c1 ++ s1)); [|discriminate].
        apply IHf in E as (c2 & p2 & s2 & m2 & -> & F2 & K2 & S2 & E).
        exists (c1 ++ c2), p2, s2, (m2 ++ m1).
        rewrite <- !app_assoc. repeat split; auto.
        -- apply Forall_app; auto.
        -- apply Forall_app; auto.
        -- intros Q [].
      * exists [], prev, s, []. repeat split; auto; intros Q [].
  - apply (IH1 HP) in H as (c1 & p1 & s1 & m1 & -> & F1 & K1 & S1 & H).
    exists c1, p1, s1, ((i, firstn (length (c1 ++ s1) - length s1) (c1 ++ s1))
                        :: m1).
    repeat split; auto.
    constructor; [now left|].
    eapply Forall_impl; [|eassumption]. intros e He; now right.
  - destruct (atBol m prev); [|discriminate].
    exists [], prev, s, []. repeat split; auto; intros Q [].
  - destruct (atEol m s); [|discriminate].
    exists [], prev, s, []. repeat split; auto; intros Q [].
Qed.

Lemma matchAt_Cat (r1 r2 : Regex) (prev : option CodeUnit) (s : Str)
  (caps : Caps) (k : option CodeUnit -> Str -> Caps -> option Found) :
  matchAt (Cat r1 r2) prev s caps k
  = matchAt r1 prev s caps (fun prev' s' caps' => matchAt r2 prev' s' caps' k).
Proof. reflexivity. Qed.

(** A group captures what its pattern consumed. *)
Lemma matchAt_group (P : CodeUnit -> Prop) (i : nat) (r1 : Regex) :
  onlyUnits P r1 ->
  forall prev s caps k res,
    matchAt (Group i r1) prev s caps k = Some res ->
    exists g prev' s' more,
      s = g ++ s'
      /\ Forall P g
      /\ Forall (fun e => In (fst e) (groupsOf r1)) more
      /\ (forall Q, startsWithUnit Q r1 -> exists c t, g = c :: t /\ Q c)
      /\ k prev' s' ((i, g) :: more ++ caps) = Some res.
Proof.
  intros HP prev s caps k res H. cbn [matchAt] in H.
  apply (matchAt_trace P r1 HP) in H
    as (g & p1 & s1 & m1 & -> & F1 & K1 & S1 & H).
  rewrite firstn_consumed in H. exists g, p1, s1, m1. auto.
Qed.

Lemma group_skip (i : nat) (g : Str) (more caps : Caps) :
  Forall (fun e => fst e <> i) more ->
  group i (more ++ (i, g) :: caps) = Some g.
Proof.
  induction 1 as [|[j h] more Hj _ IH]; simpl.
  - now rewrite Nat.eqb_refl.
  - simpl in Hj. destruct (i =? j) eqn:E; [|exact IH].
    apply Nat.eqb_eq in E; congruence.
Qed.

(** The capture of a group that the rest of the pattern does not overwrite:
    it is a prefix of the input at the position of the group. *)
Lemma matchAt_capture (P : CodeUnit -> Prop) (i : nat) (r1 post : Regex)
  (prev : option CodeUnit) (s : Str) (caps : Caps) (res : Found) :
  onlyUnits P r1 ->
  ~ In i (groupsOf post) ->
  matchAt (Cat (Group i r1) post) prev s caps found = Some res ->
  exists g rest,
    s = g ++ rest
    /\ group i (snd res) = Some g
    /\ Forall P g
    /\ (forall Q, startsWithUnit Q r1 -> exists c t, g = c :: t /\ Q c).
Proof.
  intros HP Hi H. rewrite matchAt_Cat in H.
  apply (matchAt_group P i r1 HP) in H
    as (g & p1 & s1 & m1 & -> & F1 & K1 & S1 & H).
  apply (matchAt_trace (fun _ => True) post (onlyUnits_any post)) in H
    as (c2 & p2 & s2 & m2 & _ & _ & K2 & _ & H).
  injection H as <-. exists g, s1. repeat split; auto.
  cbn [snd]. apply group_skip.
  eapply Forall_impl; [|exact K2]. intros e He E. apply Hi. now rewrite <- E.
Qed.

(** Where [search] found its match. *)
Lemma search_trace (r : Regex) (s : Str) :
  forall prev m,
    search r prev s = Some m ->
    exists skipped prev' s0,
      s = skipped ++ s0
      /\ ((skipped = [] /\ prev' = prev) \/ exists c, prev' = Some c)
      /\ matchAt r prev' s0 [] found
         = Some (lastPrev m, remainder m, groups m)
      /\ matched m = firstn (length s0 - length (remainder m)) s0.
Proof.
  induction s as [|c s IH]; intros prev m H; cbn [search] in H.
  - fold found in H.
    destruct (matchAt r prev [] [] found) as [[[p s'] caps]|] eqn:E;
      [|discriminate].
    injection H as <-. exists [], prev, []. auto.
  - fold found in H.
    destruct (matchAt r prev (c :: s) [] found) as [[[p s'] caps]|] eqn:E.
    + injection H as <-. exists [], prev, (c :: s). auto.
    + apply IH in H as (skipped & prev' & s0 & -> & Hp & H).
      exists (c :: skipped), prev', s0. split; [reflexivity|].
      split; [|exact H].
      right. destruct Hp as [[-> ->]|Hp]; eauto.
Qed.

(** ** The names of the catalog *)

Lemma upperAZ_clean (c : CodeUnit) : upperAZ c = true -> isWhiteSpace c = false.
Proof.
  unfold upperAZ; intros H. apply andb_true_iff in H as [H1 H2].
  apply N.leb_le in H1, H2.
  unfold isWhiteSpace, isLineTerminator.
  repeat match goal with
         | |- context [(c =? ?k)%N] =>
             replace (c =? k)%N with false by (symmetry; apply N.eqb_neq; lia)
         end.
  replace (8192 <=? c)%N with false by (symmetry; apply N.leb_gt; lia).
  reflexivity.
Qed.

Lemma trimStart_Forall (P : CodeUnit -> Prop) (s : Str) :
  Forall P s -> Forall P (trimStart s).
Proof.
  induction 1 as [|c s Hc Hs IH]; simpl; [constructor|].
  destruct (isWhiteSpace c); [exact IH|now constructor].
Qed.

Lemma trim_Forall (P : CodeUnit -> Prop) (s : Str) :
  Forall P s -> Forall P (trim s).
Proof.
  intros H; unfold trim, trimEnd.
  apply Forall_rev, trimStart_Forall, Forall_rev, trimStart_Forall, H.
Qed.

Lemma trim_head (c : CodeUnit) (g : Str) :
  isWhiteSpace c = false -> exists t, trim (c :: g) = c :: t.
Proof.
  intros Hc; unfold trim, trimEnd. simpl trimStart. rewrite Hc. simpl rev.
  rewrite trimStart_snoc by exact Hc. rewrite rev_app_distr; simpl. eauto.
Qed.

(** What the three speaker patterns capture: an upper-case ASCII letter
    followed by ASCII letters and whitespace. *)
Lemma candidateName_shape (line : Str) (pattern : Regex) (name : Str) :
  In pattern characterPatterns ->
  candidateName line pattern = Some name ->
  (exists c t, name = c :: t /\ upperAZ c = true)
  /\ Forall (fun c => letterOrSpace c = true) name
  /\ Tidy name.
Proof.
  intros Hin H. unfold candidateName in H.
  destruct (exec pattern line) as [m|] eqn:E; [|discriminate].
  destruct (group 1 (groups m)) as [[|c g]|] eqn:Eg; try discriminate.
  injection H as <-.
  assert (Hshape : upperAZ c = true
                   /\ Forall (fun c => letterOrSpace c = true) (c :: g)).
  { apply search_trace in E as (skipped & prev' & s0 & _ & _ & E & _).
    assert (Hup : forall x, upperAZ x = true -> letterOrSpace x = true).
    { intros x Hx; unfold letterOrSpace; now rewrite Hx. }
    assert (Hany : forall x, letterOrSpace x = true -> letterOrSpace x = true)
      by auto.
    destruct Hin as [<-|[<-|[<-|[]]]]; rewrite matchAt_Cat in E;
      apply matchAt_grows in E as (p1 & s1 & m1 & E).
    - apply (@matchAt_capture (fun c => letterOrSpace c = true)) in E
        as (g' & rest & _ & Eg' & Fg & Sg);
        [|cbn; auto|cbn; tauto].
      cbn [snd] in Eg'. rewrite Eg in Eg'; injection Eg' as <-.
      split; [|exact Fg].
      destruct (Sg (fun c => upperAZ c = true)) as (c' & t & Ec & Hc);
        [cbn; auto|].
      now injection Ec as -> _.
    - apply (@matchAt_capture (fun c => letterOrSpace c = true)) in E
        as (g' & rest & _ & Eg' & Fg & Sg);
        [|cbn; auto|cbn; tauto].
      cbn [snd] in Eg'. rewrite Eg in Eg'; injection Eg' as <-.
      split; [|exact Fg].
      destruct (Sg (fun c => upperAZ c = true)) as (c' & t & Ec & Hc);
        [cbn; auto|].
      now injection Ec as -> _.
    - rewrite matchAt_Cat in E.
      apply matchAt_grows in E as (p2 & s2 & m2 & E).
      apply (@matchAt_capture (fun c => letterOrSpace c = true)) in E
        as (g' & rest & _ & Eg' & Fg & Sg);
        [|cbn; auto|cbn; tauto].
      cbn [snd] in Eg'. rewrite Eg in Eg'; injection Eg' as <-.
      split; [|exact Fg].
      destruct (Sg (fun c => upperAZ c = true)) as (c' & t & Ec & Hc);
        [cbn; auto|].
      now injection Ec as -> _. }
  destruct Hshape as [Hc Hg].
  destruct (trim_head c g (upperAZ_clean c Hc)) as [t Et].
  split; [rewrite Et; eauto|]. split; [now apply trim_Forall|].
  destruct (trim_tidy (c :: g)) as [E0|Ht]; [|exact Ht].
  rewrite Et in E0; discriminate.
Qed.

Lemma detectedNames_shape (toUpperCase : Str -> Str) (lines : list Str)
  (name : Str) :
  In name (detectedNames toUpperCase lines) ->
  (exists c t, name = c :: t /\ upperAZ c = true)
  /\ Forall (fun c => letterOrSpace c = true) name
  /\ Tidy name
  /\ 2 <= length name
  /\ isCommonWord toUpperCase name = false.
Proof.
  unfold detectedNames. intros H.
  apply in_flat_map in H as (line & _ & H).
  apply in_flat_map in H as (pattern & Hp & H).
  destruct (candidateName line pattern) as [n|] eqn:E; [|contradiction].
  destruct (qualifies toUpperCase n) eqn:Eq; [|contradiction].
  destruct H as [<-|[]].
  destruct (candidateName_shape line Hp E) as (H1 & H2 & H3).
  unfold qualifies in Eq. apply andb_true_iff in Eq as [El Ew].
  apply Nat.ltb_lt in El. apply negb_true_iff in Ew.
  split; [exact H1|]. split; [exact H2|]. split; [exact H3|].
  split; [lia|exact Ew].
Qed.

(** ** More on the maps *)

Lemma Map_set_in (V : Type) (m : JsMap V) (k : Str) (v : V) (k' : Str)
  (v' : V) :
  In (k', v') (Map_set m k v) -> (k' = k /\ v' = v) \/ In (k', v') m.
Proof.
  induction m as [|[k1 v1] m IH]; simpl.
  - intros [H|[]]; injection H as <- <-; auto.
  - destruct (eqb_str k1 k) eqn:E; simpl.
    + apply eqb_str_eq in E; subst k1.
      intros [H|H]; [injection H as <- <-; auto|auto].
    + intros [H|H]; [auto|]. apply IH in H as [H|H]; auto.
Qed.

Lemma Map_get_NoDup (V : Type) (m : JsMap V) (k : Str) (v : V) :
  NoDup (Map_keys m) -> In (k, v) m -> Map_get m k = Some v.
Proof.
  induction m as [|[k1 v1] m IH]; simpl; [tauto|].
  intros Hnd Hin; inversion Hnd as [|? ? Hnotin Hnd']; subst.
  destruct Hin as [H|H].
  - injection H as -> ->. now rewrite eqb_str_refl.
  - destruct (eqb_str k1 k) eqn:E; [|now apply IH].
    apply eqb_str_eq in E; subst k1. exfalso; apply Hnotin.
    now apply (in_map fst) in H.
Qed.

Lemma Map_get_set_same (V : Type) (m : JsMap V) (k : Str) (v : V) :
  Map_get (Map_set m k v) k = Some v.
Proof.
  induction m as [|[k1 v1] m IH]; simpl.
  - now rewrite eqb_str_refl.
  - destruct (eqb_str k1 k) eqn:E; simpl; now rewrite E.
Qed.

(** Every key of the character map is the name of its character. *)
Lemma buildCharacterMap_entries (likely : list (Str * nat)) (name : Str)
  (character : Character.t) :
  In (name, character) (buildCharacterMap likely) ->
  Character.name character = name.
Proof.
  unfold buildCharacterMap.
  generalize (combine (seq 0 (length likely)) likely); intros l.
  assert (H0 : forall n c, In (n, c) (@nil (Str * Character.t)) ->
                           Character.name c = n) by (intros ? ? []).
  revert H0. generalize (@nil (Str * Character.t)) as acc.
  induction l as [|ie l IH]; intros acc Hacc; simpl; [now apply Hacc|].
  apply IH. intros n c Hin. apply Map_set_in in Hin as [[-> ->]|Hin]; auto.
Qed.

Lemma characterMap_keys (likely : list (Str * nat)) :
  Map_keys (buildCharacterMap likely)
  = map Character.name (Map_values (buildCharacterMap likely)).
Proof.
  pose proof (buildCharacterMap_entries likely) as H.
  unfold Map_keys, Map_values. rewrite map_map.
  induction (buildCharacterMap likely) as [|[n c] m IH]; simpl; [reflexivity|].
  f_equal.
  - symmetry; apply H; now left.
  - apply IH. intros n' c' Hin. apply H; now right.
Qed.

Lemma NoDup_map_eq (A B : Type) (f : A -> B) (l : list A) (a b : A) :
  NoDup (map f l) -> In a l -> In b l -> f a = f b -> a = b.
Proof.
  induction l as [|x l IH]; simpl; [tauto|].
  intros Hnd Ha Hb E; inversion Hnd as [|? ? Hnotin Hnd']; subst.
  destruct Ha as [->|Ha], Hb as [->|Hb]; auto.
  - exfalso; apply Hnotin. rewrite E. now apply in_map.
  - exfalso; apply Hnotin. rewrite <- E. now apply in_map.
Qed.

(** Two names without a colon that are both followed by a colon at the
    start of a line are the same name. *)
Lemma prefix_delimited (x : CodeUnit) (a : Str) :
  forall b l,
    startsWith (a ++ [x]) l = true -> startsWith (b ++ [x]) l = true ->
    ~ In x a -> ~ In x b -> a = b.
Proof.
  induction a as [|y a IH]; intros [|z b] [|c l]; simpl;
    try discriminate; try reflexivity.
  - intros Ha Hb _ Hn. exfalso; apply Hn.
    apply andb_true_iff in Ha as [Ha _], Hb as [Hb _].
    apply N.eqb_eq in Ha, Hb. left; congruence.
  - intros Ha Hb Hn _. exfalso; apply Hn.
    apply andb_true_iff in Ha as [Ha _], Hb as [Hb _].
    apply N.eqb_eq in Ha, Hb. left; congruence.
  - intros Ha Hb Hna Hnb.
    apply andb_true_iff in Ha as [Ha Ha'], Hb as [Hb Hb'].
    apply N.eqb_eq in Ha, Hb. f_equal; [congruence|].
    apply (IH b l); auto.
Qed.

Lemma In_firstn (A : Type) (n : nat) (l : list A) (x : A) :
  In x (firstn n l) -> In x l.
Proof.
  revert l; induction n as [|n IH]; intros [|y l]; simpl; try tauto.
  intros [H|H]; auto.
Qed.

Section Names.

Variable toUpperCase : Str -> Str.

Lemma catalog_name_shape (rawText : Str) (character : Character.t) :
  In character (Map_values (characterMapOf toUpperCase rawText)) ->
  (exists c t, Character.name character = c :: t /\ upperAZ c = true)
  /\ Forall (fun c => letterOrSpace c = true) (Character.name character)
  /\ Tidy (Character.name character)
  /\ 2 <= length (Character.name character)
  /\ isCommonWord toUpperCase (Character.name character) = false.
Proof.
  intros Hin. apply detectedNames_shape with (lines := split_nl rawText).
  destruct (catalog_spec toUpperCase (split_nl rawText) eq_refl)
    as (_ & Hmem & _ & _).
  apply tally_pos.
  assert (2 <= tally (detectedNames toUpperCase (split_nl rawText))
                 (Character.name character)); [|lia].
  apply Hmem. now apply in_map.
Qed.

Lemma catalog_name_no_colon (rawText : Str) (character : Character.t) :
  In character (Map_values (characterMapOf toUpperCase rawText)) ->
  ~ In colon (Character.name character).
Proof.
  intros Hin Hc.
  destruct (catalog_name_shape rawText character Hin) as (_ & HF & _).
  rewrite Forall_forall in HF. apply HF in Hc. discriminate Hc.
Qed.

(** [analyzeScriptText] with its parts named. *)
Lemma analyzeScriptText_script (rawText : Str) :
  exists st title,
    Reached (characterMapOf toUpperCase rawText) st
    /\ extractScriptTitle toUpperCase rawText (split_nl rawText)
       = Returned title
    /\ forEach (segmentLine toUpperCase (characterMapOf toUpperCase rawText))
         (split_nl rawText) initialWalk = Returned st
    /\ analyzeScriptText toUpperCase rawText
       = Returned
           {| Script.title := title;
              Script.characters :=
                Map_values (characterMapOf toUpperCase rawText);
              Script.scenes := Walk.scenes st |}.
Proof.
  unfold analyzeScriptText. fold (characterMapOf toUpperCase rawText).
  destruct (walk_Reached toUpperCase (split_nl rawText)
              (Reached_initial (characterMapOf toUpperCase rawText)))
    as (st & E & HR).
  destruct (extractScriptTitle_returns toUpperCase rawText (split_nl rawText))
    as [title Et].
  exists st, title. split; [exact HR|]. split; [exact Et|].
  split; [exact E|]. rewrite Et; cbn [bind]. now rewrite E.
Qed.

End Names.

(** ** The catalog and the speaker search *)

Section SpeakerSearch.

Variable toUpperCase : Str -> Str.

(** X1: for every input, each character name in the catalog of the script
    returned by [analyzeScriptText] begins with an upper-case ASCII letter,
    consists of ASCII letters and whitespace only, has no whitespace at
    either end, has at least two code units and is not a stop-listed
    word. *)
Theorem catalog_names_wellformed (rawText : Str) :
  exists script,
    analyzeScriptText toUpperCase rawText = Returned script
    /\ forall character, In character (Script.characters script) ->
         (exists c t, Character.name character = c :: t /\ upperAZ c = true)
         /\ Forall (fun c => letterOrSpace c = true) (Character.name character)
         /\ Tidy (Character.name character)
         /\ 2 <= length (Character.name character)
         /\ isCommonWord toUpperCase (Character.name character) = false.
Proof.
  destruct (analyzeScriptText_script toUpperCase rawText)
    as (st & title & _ & _ & _ & E).
  eexists; split; [exact E|]. cbn [Script.characters].
  intros character. apply catalog_name_shape.
Qed.

(** X2: the speaker search of the second pass is unambiguous.  For every
    input and every line, a character of the catalog is the one
    [findSpeaker] returns exactly when the line starts with its name
    followed by a colon; so at most one cataloged name prefixes a line, and
    the order in which the catalog is searched does not matter. *)
Theorem speaker_search_unambiguous (rawText : Str) :
  exists script,
    analyzeScriptText toUpperCase rawText = Returned script
    /\ forall line character, In character (Script.characters script) ->
         (findSpeaker (characterMapOf toUpperCase rawText) line
          = Some (Character.name character, character)
          <-> startsWith (Character.name character ++ [colon]) line = true).
Proof.
  destruct (analyzeScriptText_script toUpperCase rawText)
    as (st & title & _ & _ & _ & E).
  eexists; split; [exact E|]. cbn [Script.characters].
  intros line character Hin.
  destruct (catalog_spec toUpperCase (split_nl rawText) eq_refl)
    as (Hnd & _ & _ & _).
  fold (characterMapOf toUpperCase rawText) in Hnd.
  pose proof (characterMap_keys
                (likelyCharacters
                   (countMentions toUpperCase (split_nl rawText)))) as Hk.
  fold (characterMapOf toUpperCase rawText) in Hk.
  unfold findSpeaker. rewrite Hk.
  match goal with
  | |- context [find ?f ?l] => destruct (find f l) as [name|] eqn:Ef
  end.
  - apply find_some in Ef as [Hname Hs].
    apply in_map_iff in Hname as (found & <- & Hfound).
    assert (Hget : Map_get (characterMapOf toUpperCase rawText)
                     (Character.name found) = Some found).
    { apply Map_get_NoDup; [now rewrite Hk|].
      unfold Map_values in Hfound.
      apply in_map_iff in Hfound as ([n c] & Ec & Hnc). simpl in Ec; subst c.
      now rewrite (buildCharacterMap_entries _ _ _ Hnc). }
    rewrite Hget. split.
    + intros H; injection H as _ <-. exact Hs.
    + intros H.
      assert (En : Character.name found = Character.name character).
      { apply prefix_delimited with colon line; try assumption;
          now apply catalog_name_no_colon with toUpperCase rawText. }
      now rewrite (NoDup_map_eq Character.name _ found character Hnd Hfound
                     Hin En).
  - split; [discriminate|]. intros H. exfalso.
    pose proof (find_none _ _ Ef (Character.name character)
                  (in_map Character.name _ _ Hin)) as Hno.
    cbv beta in Hno. congruence.
Qed.

(** X3: for every input, the title of the script returned by
    [analyzeScriptText] is not the empty string. *)
Theorem title_never_empty (rawText : Str) :
  exists script,
    analyzeScriptText toUpperCase rawText = Returned script
    /\ Script.title script <> [].
Proof.
  destruct (analyzeScriptText_script toUpperCase rawText)
    as (st & title & _ & Et & _ & E).
  eexists; split; [exact E|]. cbn [Script.title].
  unfold extractScriptTitle in Et.
  rewrite collectTitleCandidates_spec in Et by (simpl; lia).
  cbn [app] in Et.
  match type of Et with
  | context [firstn 2 ?l] =>
      assert (Hc : forall t, In t (firstn 2 l) -> t <> []);
      [|destruct (firstn 2 l) as [|first [|second others]]]
  end.
  - intros t Ht Hnil. apply In_firstn, filter_In in Ht as [_ Ht].
    now rewrite Hnil in Ht.
  - destruct (exec fileNamePattern (substring0 100 rawText)) as [m|] eqn:Em.
    + apply search_trace in Em as (skipped & prev' & s0 & _ & _ & Em & _).
      apply (@matchAt_capture (fun _ => True)) in Em
        as (g & rest & _ & Eg & _ & Sg); [|apply onlyUnits_any|].
      * cbn [snd] in Eg. rewrite Eg in Et. cbn [defined bind] in Et.
        injection Et as <-.
        destruct (Sg (fun _ => True)) as (c & t & -> & _); [cbn; auto|].
        discriminate.
      * cbv. intros [H|[]]; discriminate H.
    + injection Et as <-. discriminate.
  - injection Et as <-. apply Hc; now left.
  - destruct (_ && _) in Et; injection Et as <-; apply Hc; simpl; auto.
Qed.

End SpeakerSearch.

(** ** More invariants of the second pass *)

Section Walks.

Variable toUpperCase : Str -> Str.
Variable characterMap : JsMap Character.t.

(** Whatever holds at the start of the second loop and is kept by every
    move of [Step] holds at its end. *)
Lemma walk_invariant (I : Walk.t -> Prop) :
  (forall a b, Reached characterMap a -> I a -> Step characterMap a b -> I b) ->
  forall lines st,
    Reached characterMap st -> I st ->
    exists st',
      forEach (segmentLine toUpperCase characterMap) lines st = Returned st'
      /\ Reached characterMap st' /\ I st'.
Proof.
  intros Hkeep lines; induction lines as [|raw lines IH]; intros st HR HI;
    simpl.
  - eauto.
  - destruct (segmentLine_step toUpperCase characterMap st raw
                (reached_scene HR)) as (st1 & E1 & HS).
    rewrite E1; simpl. apply IH.
    + now apply Step_Reached with st.
    + now apply Hkeep with st.
Qed.

(** Every line carries the id of the scene that holds it. *)
Lemma Step_placed (a b : Walk.t) :
  Step characterMap a b ->
  Forall (fun scene =>
            Forall (fun line => Line.sceneId line = Scene.id scene)
              (Scene.lines scene)) (Walk.scenes a) ->
  Forall (fun scene =>
            Forall (fun line => Line.sceneId line = Scene.id scene)
              (Scene.lines scene)) (Walk.scenes b).
Proof.
  intros HS HI; destruct HS; cbn [Walk.scenes]; try assumption.
  - apply Forall_app; split; [exact HI|]. repeat constructor.
  - rewrite H in HI. apply Forall_app in HI as [Hb Hs].
    apply Forall_app; split; [exact Hb|]. inversion Hs; subst.
    repeat constructor; simpl. apply Forall_app; split; [assumption|].
    now repeat constructor.
  - rewrite H in HI. apply Forall_app in HI as [Hb Hs].
    apply Forall_app; split; [exact Hb|]. inversion Hs; subst.
    repeat constructor; simpl. apply Forall_app; split; [assumption|].
    now repeat constructor.
  - rewrite H in HI. apply Forall_app in HI as [Hb Hs].
    apply Forall_app; split; [exact Hb|]. inversion Hs; subst.
    repeat constructor; simpl. apply Forall_app; split; [assumption|].
    now repeat constructor.
  - rewrite H in HI. apply Forall_app in HI as [Hb Hs].
    apply Forall_app; split; [exact Hb|]. inversion Hs as [|? ? Hl _]; subst.
    repeat constructor; simpl. rewrite H0 in Hl.
    apply Forall_app in Hl as [He Hp]. apply Forall_app; split; [exact He|].
    inversion Hp; subst. now repeat constructor.
Qed.

(** A line is either a stage direction under the sentinel id, flagged as
    such, or an unflagged speech of a cataloged character. *)
Lemma Step_flagged (a b : Walk.t) :
  Reached characterMap a ->
  Step characterMap a b ->
  Forall (fun line =>
            (Line.isDirection line = Some true
             /\ Line.characterId line = noSpeaker)
            \/ (Line.isDirection line = None
                /\ exists character,
                     In character (Map_values characterMap)
                     /\ Character.id character = Line.characterId line))
    (allLines (Walk.scenes a)) ->
  Forall (fun line =>
            (Line.isDirection line = Some true
             /\ Line.characterId line = noSpeaker)
            \/ (Line.isDirection line = None
                /\ exists character,
                     In character (Map_values characterMap)
                     /\ Character.id character = Line.characterId line))
    (allLines (Walk.scenes b)).
Proof.
  intros HR HS HI; destruct HS; cbn [Walk.scenes]; try assumption.
  - rewrite allLines_snoc; simpl. now rewrite app_nil_r.
  - rewrite allLines_push, <- H. apply Forall_app; split; [exact HI|].
    constructor; [|constructor]. right; simpl; eauto.
  - rewrite allLines_push, <- H. apply Forall_app; split; [exact HI|].
    constructor; [|constructor]. right; simpl. split; [reflexivity|].
    now apply (reached_current HR).
  - rewrite allLines_push, <- H. apply Forall_app; split; [exact HI|].
    constructor; [|constructor]. left; simpl; auto.
  - rewrite H, allLines_snoc, H0 in HI.
    rewrite allLines_snoc; cbn [Scene.lines].
    rewrite app_assoc in *. apply Forall_app in HI as [He Hp].
    apply Forall_app; split; [exact He|]. inversion Hp; subst.
    constructor; [|constructor]. assumption.
Qed.

(** The scenes are the first scene and one scene per marker line. *)
Lemma segmentLine_scene_names (st : Walk.t) (raw : Str) :
  Walk.scenes st <> [] ->
  exists st',
    segmentLine toUpperCase characterMap st raw = Returned st'
    /\ map Scene.name (Walk.scenes st')
       = map Scene.name (Walk.scenes st)
         ++ (if test sceneMarker (trim raw) then [trim raw] else []).
Proof.
  intros Hne. destruct (test sceneMarker (trim raw)) eqn:Hm.
  { rewrite (marker_step toUpperCase characterMap st raw Hm).
    eexists; split; [reflexivity|]. cbn [Walk.scenes].
    now rewrite map_app. }
  rewrite app_nil_r.
  destruct (snoc_of_nonempty Hne) as (before & scene & E).
  unfold segmentLine. rewrite Hm.
  assert (Hemit : forall current characterId text direction,
             exists st',
               emit st current characterId text direction = Returned st'
               /\ map Scene.name (Walk.scenes st')
                  = map Scene.name (Walk.scenes st)).
  { intros. erewrite emit_returns by exact E.
    eexists; split; [reflexivity|]. cbn [Walk.scenes].
    now rewrite E, !map_app. }
  assert (Hstage : exists st',
             stageDirection st (trim raw) = Returned st'
             /\ map Scene.name (Walk.scenes st')
                = map Scene.name (Walk.scenes st)).
  { unfold stageDirection. destruct (0 <? length (trim raw)); [apply Hemit|].
    eauto. }
  destruct (length (trim raw) =? 0); [eauto|].
  destruct (findSpeaker characterMap (trim raw)) as [[name character]|].
  - destruct (0 <? length _); [apply Hemit|]. eauto.
  - destruct (Walk.currentCharacterId st) as [[|c cs]|]; try exact Hstage.
    destruct ((0 <? length (trim raw)) && negb (isSceneDirection (trim raw)));
      [|exact Hstage].
    replace (lastOf (Walk.scenes st)) with (Some scene)
      by (rewrite E; symmetry; apply lastOf_app).
    cbn [defined bind].
    destruct (0 <? length (Scene.lines scene)) eqn:Hl;
      [|destruct (looksLikeDialogue toUpperCase (trim raw)); apply Hemit].
    apply length_pos_nonempty in Hl.
    destruct (snoc_of_nonempty Hl) as (earlier & previousLine & Hs).
    rewrite Hs, lastOf_app. cbn [defined bind].
    destruct (eqb_str (Line.characterId previousLine) (c :: cs));
      [|destruct (looksLikeDialogue toUpperCase (trim raw)); apply Hemit].
    eexists; split; [reflexivity|]. cbn [Walk.scenes].
    now rewrite E, updateLast_app, !map_app.
Qed.

Lemma walk_scene_names (lines : list Str) :
  forall st,
    Walk.scenes st <> [] ->
    exists st',
      forEach (segmentLine toUpperCase characterMap) lines st = Returned st'
      /\ map Scene.name (Walk.scenes st')
         = map Scene.name (Walk.scenes st)
           ++ filter (test sceneMarker) (map trim lines).
Proof.
  induction lines as [|raw lines IH]; intros st Hne; simpl.
  - exists st. now rewrite app_nil_r.
  - destruct (segmentLine_scene_names st raw Hne) as (st1 & E1 & N1).
    rewrite E1; cbn [bind].
    destruct (IH st1) as (st' & E' & N').
    { intros Hnil. rewrite Hnil in N1. destruct (Walk.scenes st);
        [contradiction|discriminate N1]. }
    exists st'; split; [exact E'|]. rewrite N', N1, <- app_assoc.
    now destruct (test sceneMarker (trim raw)).
Qed.

End Walks.

Lemma NoDup_map_toString (l : list nat) : NoDup l -> NoDup (map toString l).
Proof.
  induction 1 as [|n l Hn Hd IH]; simpl; constructor; [|exact IH].
  intros Hin; apply in_map_iff in Hin as (m & E & Hm).
  apply toString_inj in E; now subst.
Qed.

Section Scenes.

Variable toUpperCase : Str -> Str.

(** The script [analyzeScriptText] returns, with what its second pass
    keeps true of scenes and lines. *)
Lemma analyzeScriptText_walk (rawText : Str) :
  exists st title,
    analyzeScriptText toUpperCase rawText
    = Returned
        {| Script.title := title;
           Script.characters :=
             Map_values (characterMapOf toUpperCase rawText);
           Script.scenes := Walk.scenes st |}
    /\ Reached (characterMapOf toUpperCase rawText) st
    /\ Forall (fun scene =>
                 Forall (fun line => Line.sceneId line = Scene.id scene)
                   (Scene.lines scene)) (Walk.scenes st)
    /\ Forall (fun line =>
                 (Line.isDirection line = Some true
                  /\ Line.characterId line = noSpeaker)
                 \/ (Line.isDirection line = None
                     /\ exists character,
                          In character
                            (Map_values (characterMapOf toUpperCase rawText))
                          /\ Character.id character = Line.characterId line))
         (allLines (Walk.scenes st)).
Proof.
  destruct (analyzeScriptText_script toUpperCase rawText)
    as (st & title & HR & _ & Ew & E).
  exists st, title. split; [exact E|]. split; [exact HR|].
  destruct (walk_invariant toUpperCase
              (fun st =>
                 Forall (fun scene =>
                           Forall (fun line =>
                                     Line.sceneId line = Scene.id scene)
                             (Scene.lines scene)) (Walk.scenes st)
                 /\ Forall (fun line =>
                              (Line.isDirection line = Some true
                               /\ Line.characterId line = noSpeaker)
                              \/ (Line.isDirection line = None
                                  /\ exists character,
                                       In character
                                         (Map_values
                                            (characterMapOf toUpperCase
                                               rawText))
                                       /\ Character.id character
                                          = Line.characterId line))
                      (allLines (Walk.scenes st)))
              (fun a b Hr Ha Hs =>
                 conj (Step_placed Hs (proj1 Ha))
                      (Step_flagged Hr Hs (proj2 Ha)))
              (split_nl rawText)
              (Reached_initial (characterMapOf toUpperCase rawText)))
    as (st' & Ew' & _ & HI).
  { split; repeat constructor. }
  rewrite Ew in Ew'; injection Ew' as <-. exact HI.
Qed.

(** X4: for every input, the scenes of the script returned by
    [analyzeScriptText] are the implicit first scene "Scena 1" followed by
    one scene for each line whose trimmed text matches the scene marker
    pattern, in document order and named by that trimmed text; their ids
    are "1", "2", ... in that order. *)
Theorem scenes_follow_markers (rawText : Str) :
  exists script,
    analyzeScriptText toUpperCase rawText = Returned script
    /\ map Scene.name (Script.scenes script)
       = lit "Scena 1"
         :: filter (test sceneMarker) (map trim (split_nl rawText))
    /\ map Scene.id (Script.scenes script)
       = map toString (seq 1 (length (Script.scenes script))).
Proof.
  destruct (analyzeScriptText_script toUpperCase rawText)
    as (st & title & HR & _ & Ew & E).
  eexists; split; [exact E|]. cbn [Script.scenes].
  split; [|exact (reached_scene_ids HR)].
  destruct (walk_scene_names toUpperCase (characterMapOf toUpperCase rawText)
              (split_nl rawText) initialWalk) as (st' & Ew' & Hn);
    [discriminate|].
  rewrite Ew in Ew'; injection Ew' as <-. exact Hn.
Qed.

(** X5: for every input and every line of the script returned by
    [analyzeScriptText], the line's [sceneId] is the id of the scene that
    holds it, and no other scene of the script has that id. *)
Theorem lines_carry_scene_id (rawText : Str) :
  exists script,
    analyzeScriptText toUpperCase rawText = Returned script
    /\ forall scene line,
         In scene (Script.scenes script) -> In line (Scene.lines scene) ->
         Line.sceneId line = Scene.id scene
         /\ forall other, In other (Script.scenes script) ->
              Scene.id other = Line.sceneId line -> other = scene.
Proof.
  destruct (analyzeScriptText_walk rawText)
    as (st & title & E & HR & HI & _).
  eexists; split; [exact E|]. cbn [Script.scenes].
  intros scene line Hs Hl.
  rewrite Forall_forall in HI. specialize (HI scene Hs).
  rewrite Forall_forall in HI. specialize (HI line Hl).
  split; [exact HI|]. intros other Ho Eo.
  apply (NoDup_map_eq Scene.id (Walk.scenes st)); try assumption.
  - rewrite (reached_scene_ids HR). apply NoDup_map_toString, seq_NoDup.
  - now rewrite Eo.
Qed.

(** X6: for every input, every line of the script returned by
    [analyzeScriptText] is either a stage direction, flagged [isDirection]
    and filed under the sentinel id "0", or a speech, with no [isDirection]
    flag and the id of a character of the catalog, which is never "0". *)
Theorem direction_flag_matches_sentinel (rawText : Str) :
  exists script,
    analyzeScriptText toUpperCase rawText = Returned script
    /\ forall line, In line (allLines (Script.scenes script)) ->
         (Line.isDirection line = Some true
          /\ Line.characterId line = noSpeaker)
         \/ (Line.isDirection line = None
             /\ Line.characterId line <> noSpeaker
             /\ exists character,
                  In character (Script.characters script)
                  /\ Character.id character = Line.characterId line).
Proof.
  destruct (analyzeScriptText_walk rawText)
    as (st & title & E & HR & _ & HI).
  eexists; split; [exact E|]. cbn [Script.scenes Script.characters].
  intros line Hl. rewrite Forall_forall in HI.
  destruct (HI line Hl) as [H|(Hd & character & Hc & Hid)]; [now left|].
  right. split; [exact Hd|]. split; [|eauto].
  destruct (catalog_id_positive toUpperCase (split_nl rawText) character Hc)
    as [n En].
  rewrite <- Hid, En. apply toString_not_zero.
Qed.

End Scenes.

(** ** The loop of [parseScript] *)

Lemma matchAt_Bol (m : bool) (prev : option CodeUnit) (s : Str) (caps : Caps)
  (k : option CodeUnit -> Str -> Caps -> option Found) :
  matchAt (Bol m) prev s caps k = if atBol m prev then k prev s caps else None.
Proof. reflexivity. Qed.

(** A cue line has its name, and on a trimmed line the name is not empty. *)
Lemma cue_exec (textLine : Str) (characterMatch : Match) :
  Tidy textLine ->
  exec cuePattern textLine = Some characterMatch ->
  exists captured,
    group 1 (groups characterMatch) = Some captured
    /\ truthy (Some (trim captured)) = true.
Proof.
  intros [Hclean _] H.
  apply search_trace in H as (skipped & prev' & s0 & Es & Hp & H & _).
  unfold cuePattern in H. rewrite matchAt_Cat, matchAt_Bol in H.
  destruct Hp as [[-> ->]|[c ->]]; [|discriminate H].
  cbn [atBol app] in *. subst s0.
  apply (@matchAt_capture (fun _ => True)) in H
    as (g & rest & Eg & Hg & _ & Sg);
    [|apply onlyUnits_any|cbv; tauto].
  cbn [snd] in Hg. exists g; split; [exact Hg|].
  destruct (Sg (fun _ => True)) as (c & t & -> & _); [cbn; auto|].
  rewrite Eg in Hclean; simpl in Hclean.
  destruct (trim_head c t Hclean) as [t' ->]. reflexivity.
Qed.

Lemma cueName_exec (textLine : Str) :
  Tidy textLine ->
  match exec cuePattern textLine with
  | Some characterMatch =>
      exists captured,
        group 1 (groups characterMatch) = Some captured
        /\ cueName textLine = Some (trim captured)
        /\ truthy (Some (trim captured)) = true
  | None => cueName textLine = None
  end.
Proof.
  intros Ht. unfold cueName.
  destruct (exec cuePattern textLine) as [m|] eqn:E; [|reflexivity].
  destruct (cue_exec Ht E) as (g & Eg & Hg).
  exists g. rewrite Eg. auto.
Qed.

Lemma map_updateLast (A B : Type) (f : A -> A) (g : A -> B) (l : list A) :
  (forall a, g (f a) = g a) -> map g (updateLast f l) = map g l.
Proof.
  intros H; induction l as [|x l IH]; simpl; [reflexivity|].
  destruct l as [|y l]; simpl in *; [now rewrite H|now rewrite IH].
Qed.

Lemma leadingProse_snoc (seen : list Str) (textLine : Str) :
  leadingProse (seen ++ [textLine])
  = if existsb isCue seen || isCue textLine then leadingProse seen
    else leadingProse seen ++ [textLine].
Proof.
  induction seen as [|l seen IH]; simpl.
  - now destruct (isCue textLine).
  - destruct (isCue l); simpl; [reflexivity|]. rewrite IH.
    now destruct (existsb isCue seen || isCue textLine).
Qed.

Lemma spokenCue_none (seen : list Str) :
  existsb isCue seen = false -> filter spokenCue seen = [].
Proof.
  induction seen as [|l seen IH]; simpl; [reflexivity|].
  intros H; apply orb_false_iff in H as [Hl Hs].
  unfold spokenCue at 1. rewrite Hl; simpl. now apply IH.
Qed.

(** One iteration of the loop of [parseScript] on a trimmed, non-empty
    line: a cue line never raises; any other line raises exactly when a
    speaker is set and no line has been emitted yet. *)
Lemma parseLine_spec (seen : list Str) (st : Parse.t) (textLine : Str) :
  Parsed seen st -> Tidy textLine ->
  if isCue textLine then
    exists st',
      parseLine st textLine = Returned st' /\ Parsed (seen ++ [textLine]) st'
      /\ truthy (Parse.currentCharacter st') = true
      /\ (if bareCue textLine
          then allLines (Script.scenes (Parse.script st'))
               = allLines (Script.scenes (Parse.script st))
          else allLines (Script.scenes (Parse.script st')) <> [])
  else if truthy (Parse.currentCharacter st)
  then match allLines (Script.scenes (Parse.script st)) with
       | [] => parseLine st textLine = Thrown TypeError
       | _ :: _ =>
           exists st',
             parseLine st textLine = Returned st'
             /\ Parsed (seen ++ [textLine]) st'
             /\ allLines (Script.scenes (Parse.script st')) <> []
       end
  else exists st',
         parseLine st textLine = Returned st'
         /\ Parsed (seen ++ [textLine]) st'
         /\ allLines (Script.scenes (Parse.script st')) <> [].
Proof.
  intros (directions & speeches & Hsc & Hids & Hl & Hdir & Hsp & Hmap
          & Hnd & Hns & Hcur) Ht.
  pose proof (cueName_exec Ht) as Hcue.
  pose proof (leadingProse_snoc seen textLine) as Elead.
  assert (Efilter : filter spokenCue (seen ++ [textLine])
                    = filter spokenCue seen
                      ++ (if isCue textLine && negb (bareCue textLine)
                          then [textLine] else [])).
  { rewrite filter_app. reflexivity. }
  assert (Eexists : existsb isCue (seen ++ [textLine])
                    = existsb isCue seen || isCue textLine).
  { rewrite existsb_app; simpl. now rewrite orb_false_r. }
  unfold parseLine.
  destruct (exec cuePattern textLine) as [characterMatch|] eqn:Ee.
  - destruct Hcue as (captured & Eg & En & Htruthy).
    assert (Ei : isCue textLine = true) by (unfold isCue; now rewrite En).
    assert (Eb : bareCue textLine = (length (cueText textLine) =? 0))
      by (unfold bareCue; now rewrite En).
    rewrite Ei, Eb in *. clear Ei Eb.
    rewrite Eg. cbn [defined bind].
    change (trim (substring _ textLine)) with (cueText textLine).
    set (name := trim captured) in *.
    rewrite orb_true_r in Elead, Eexists. cbn [andb] in Efilter.
    match goal with
    | |- context [if negb ?c then ?a else ?b] =>
        assert (Hst1 :
          exists speaker,
            Script.scenes (Parse.script (if negb c then a else b))
            = Script.scenes (Parse.script st)
            /\ Map_get (Parse.characterMap (if negb c then a else b)) name
               = Some speaker
            /\ In speaker
                 (Script.characters
                    (Parse.script (if negb c then a else b)))
            /\ Parse.currentCharacter (if negb c then a else b) = Some name
            /\ Parse.lineCounter (if negb c then a else b)
               = Parse.lineCounter st
            /\ (forall character,
                  In character (Script.characters (Parse.script st)) ->
                  In character
                    (Script.characters
                       (Parse.script (if negb c then a else b))))
            /\ (forall n character,
                  In (n, character)
                    (Parse.characterMap (if negb c then a else b)) ->
                  In character
                    (Script.characters
                       (Parse.script (if negb c then a else b)))));
        [|set (st1 := if negb c then a else b) in *]
    end.
    { unfold Map_has.
      destruct (Map_get (Parse.characterMap st) name) as [known|] eqn:Eget;
        cbn [negb].
      - exists known. cbn [Parse.script Parse.characterMap
                             Parse.currentCharacter Parse.lineCounter].
        repeat split; try assumption; try reflexivity; auto.
        apply Hmap with name. now apply Map_get_entry.
      - eexists. cbn [Parse.script Parse.characterMap
                        Parse.currentCharacter Parse.lineCounter
                        addCharacter Script.scenes Script.characters].
        split; [reflexivity|]. split; [apply Map_get_set_same|].
        split; [apply in_app_iff; right; now left|].
        split; [reflexivity|]. split; [reflexivity|]. split.
        + intros character Hc. apply in_app_iff; now left.
        + intros n c Hin. apply in_app_iff.
          apply Map_set_in in Hin as [[-> ->]|Hin]; [right; now left|].
          left; now apply Hmap with n. }
    destruct Hst1 as (speaker & Hsame & Hget & Hspeaker & Hcur1 & Hcount
                      & Hgrow & Hmap1).
    clearbody st1.
    assert (Hsp1 : Forall (fun line =>
                 Line.isDirection line = None
                 /\ exists character,
                      In character (Script.characters (Parse.script st1))
                      /\ Character.id character = Line.characterId line)
              speeches).
    { eapply Forall_impl; [|exact Hsp].
      intros line (Hd & character & Hc & Hid). eauto. }
    rewrite Hsc in Hsame.
    destruct (trim_tidy (substring (match indexOf colon textLine with
                                    | Some i => i + 1
                                    | None => 0
                                    end) textLine)) as [Ed|Hd];
      fold (cueText textLine) in *.
    + rewrite Ed in *. cbn [length Nat.ltb Nat.leb Nat.eqb negb] in *.
      exists st1. split; [reflexivity|]. split; [|split].
      * exists directions, speeches. rewrite Hsame, Hcount, Hcur1.
        rewrite Elead, Efilter, Eexists, app_nil_r.
        repeat split; assumption.
      * now rewrite Hcur1.
      * now rewrite Hsame, Hsc.
    + destruct (cueText textLine) as [|d rest] eqn:Ec;
        [now apply tidy_nonempty in Hd|].
      cbn [length Nat.ltb Nat.leb Nat.eqb negb] in *.
      rewrite Hget. cbn [defined bind].
      unfold pushFirstScene, firstSceneLines. rewrite Hsame.
      cbn [nth_error defined bind].
      eexists. split; [reflexivity|]. unfold Parsed.
      cbn [Parse.script Parse.characterMap Parse.currentCharacter
             Parse.lineCounter updateFirstScene Script.scenes
             Script.characters].
      rewrite Hsame. split; [|split; [now rewrite Hcur1|]].
      * eexists directions, (speeches ++ [_]).
        cbn [Scene.push Scene.lines Scene.id Scene.name].
        split; [now rewrite app_assoc|].
        rewrite Elead, Efilter, Eexists, Hcur1, Hcount.
        rewrite app_assoc, !length_app.
        split; [|split; [|split; [exact Hdir|split; [|split;
          [exact Hmap1|split; [exact Hnd|split; [|exact Htruthy]]]]]]].
        -- rewrite map_app, Hids, seq_S, map_app. reflexivity.
        -- apply Forall_app; split; [exact Hl|].
           constructor; [|constructor]. split; [reflexivity|exact Hd].
        -- apply Forall_app; split; [exact Hsp1|].
           constructor; [|constructor]. split; [reflexivity|eauto].
        -- cbn [length]. now rewrite Hns.
      * unfold allLines, Scene.push; simpl. rewrite app_nil_r.
        now destruct (directions ++ speeches).
  - assert (Ei : isCue textLine = false) by (unfold isCue; now rewrite Hcue).
    rewrite Ei in *. clear Ei.
    rewrite orb_false_r in Elead, Eexists.
    cbn [andb] in Efilter. rewrite app_nil_r in Efilter.
    assert (Hlen : (0 <? length textLine) = true).
    { destruct textLine; [now apply tidy_nonempty in Ht|reflexivity]. }
    rewrite Hlen, andb_true_r.
    destruct (truthy (Parse.currentCharacter st)) eqn:Etruthy.
    + unfold firstSceneLines. rewrite Hsc. cbn [nth_error defined bind].
      unfold allLines; cbn [flat_map Scene.lines]. rewrite app_nil_r.
      destruct (directions ++ speeches) as [|l0 lines0] eqn:Elines;
        [reflexivity|].
      assert (Hne : l0 :: lines0 <> []) by discriminate.
      destruct (snoc_of_nonempty Hne) as (front & previousLine & Es).
      rewrite Es in *. clear Hne.
      assert (Hwhich : (speeches = [] /\ directions = front ++ [previousLine])
                       \/ exists se, speeches = se ++ [previousLine]
                                     /\ front = directions ++ se).
      { destruct speeches as [|s0 speeches0].
        - rewrite app_nil_r in Elines. auto.
        - assert (Hne : s0 :: speeches0 <> []) by discriminate.
          destruct (snoc_of_nonempty Hne) as (se & p & E).
          rewrite E, app_assoc in Elines.
          apply app_inj_tail in Elines as [<- <-]. eauto. }
      rewrite lastOf_app. cbn [defined bind].
      eexists. split; [reflexivity|]. unfold Parsed.
      cbn [Parse.script Parse.characterMap Parse.currentCharacter
             Parse.lineCounter updateFirstScene Script.scenes
             Script.characters].
      rewrite Hsc.
      cbn [Scene.updateLastLine Scene.lines Scene.id Scene.name].
      unfold Scene.updateLastLine; cbn [Scene.lines Scene.id Scene.name].
      rewrite updateLast_app. split.
      * apply Forall_app in Hl as [Hl1 Hl2].
        inversion Hl2 as [|? ? [Hp1 Hp2] _]; subst.
        assert (Hl' : Forall (fun line => Line.sceneId line = lit "1"
                                          /\ Tidy (Line.text line))
                        (front ++ [Line.appendText (space :: textLine)
                                     previousLine])).
        { apply Forall_app; split; [exact Hl1|].
          constructor; [|constructor]. split; [exact Hp1|].
          now apply tidy_join. }
        assert (Hids' : map Line.id
                          (front ++ [Line.appendText (space :: textLine)
                                       previousLine])
                        = map toString (seq 1 (Parse.lineCounter st))).
        { rewrite <- Hids, !map_app. reflexivity. }
        rewrite Elead, Efilter, Eexists, Etruthy, <- Hcur.
        destruct Hwhich as [[-> ->]|(se & -> & ->)].
        -- exists (front ++ [Line.appendText (space :: textLine)
                               previousLine]), [].
           rewrite app_nil_r.
           apply Forall_app in Hdir as [Hd1 Hd2]. inversion Hd2; subst.
           repeat split; try assumption.
           ++ apply Forall_app; split; [exact Hd1|].
              constructor; [|constructor]. assumption.
           ++ rewrite <- Hnd, !length_app. reflexivity.
        -- exists directions,
             (se ++ [Line.appendText (space :: textLine) previousLine]).
           rewrite app_assoc.
           apply Forall_app in Hsp as [Hs1 Hs2]. inversion Hs2; subst.
           repeat split; try assumption.
           ++ apply Forall_app; split; [exact Hs1|].
              constructor; [|constructor]. assumption.
           ++ rewrite <- Hns, !length_app. reflexivity.
      * cbn [flat_map Scene.lines]. rewrite app_nil_r. now destruct front.
    + assert (Hnone : speeches = []).
      { rewrite (spokenCue_none seen (eq_sym Hcur)) in Hns.
        now apply length_zero_iff_nil. }
      subst speeches. rewrite app_nil_r in *.
      unfold pushFirstScene, firstSceneLines. rewrite Hsc.
      cbn [nth_error defined bind].
      eexists. split; [reflexivity|]. unfold Parsed.
      cbn [Parse.script Parse.characterMap Parse.currentCharacter
             Parse.lineCounter updateFirstScene Script.scenes
             Script.characters].
      rewrite Hsc. split.
      * eexists (directions ++ [_]), [].
        cbn [Scene.push Scene.lines Scene.id Scene.name].
        rewrite app_nil_r. split; [reflexivity|].
        rewrite Elead, Efilter, Eexists, Etruthy, <- Hcur.
        split; [|split; [|split; [|split; [constructor|split;
          [exact Hmap|split; [|split; [exact Hns|reflexivity]]]]]]].
        -- rewrite map_app, Hids, seq_S, map_app. reflexivity.
        -- apply Forall_app; split; [exact Hl|].
           constructor; [|constructor]. split; [reflexivity|exact Ht].
        -- apply Forall_app; split; [exact Hdir|].
           constructor; [|constructor]. split; reflexivity.
        -- rewrite !length_app, Hnd. reflexivity.
      * unfold allLines, Scene.push; simpl. rewrite app_nil_r.
        now destruct directions.
Qed.

(** Once a line has been emitted, the loop never raises. *)
Lemma parse_safe (textLines : list Str) :
  forall seen st,
    Parsed seen st -> allLines (Script.scenes (Parse.script st)) <> [] ->
    Forall Tidy textLines ->
    exists st', forEach parseLine textLines st = Returned st'
                /\ Parsed (seen ++ textLines) st'.
Proof.
  induction textLines as [|textLine textLines IH]; intros seen st HP Hne Ht;
    cbn [forEach].
  - rewrite app_nil_r. eauto.
  - inversion Ht as [|? ? Ht1 Ht2]; subst.
    pose proof (parseLine_spec HP Ht1) as H.
    replace (seen ++ textLine :: textLines)
      with ((seen ++ [textLine]) ++ textLines)
      by (now rewrite <- app_assoc).
    destruct (isCue textLine).
    + destruct H as (st1 & E1 & HP1 & _ & Hb). rewrite E1; cbn [bind].
      apply IH; try assumption.
      destruct (bareCue textLine); [now rewrite Hb|exact Hb].
    + destruct (truthy (Parse.currentCharacter st)).
      * destruct (allLines (Script.scenes (Parse.script st)));
          [contradiction|].
        destruct H as (st1 & E1 & HP1 & Hne1). rewrite E1; cbn [bind].
        now apply IH.
      * destruct H as (st1 & E1 & HP1 & Hne1). rewrite E1; cbn [bind].
        now apply IH.
Qed.

Lemma bareCue_isCue (textLine : Str) :
  bareCue textLine = true -> isCue textLine = true.
Proof. unfold bareCue, isCue. now destruct (cueName textLine). Qed.

(** With a speaker set and no line emitted yet, the loop raises exactly at
    the first line that is not a cue, provided only bare cues precede it. *)
Lemma parse_armed (textLines : list Str) :
  forall seen st,
    Parsed seen st -> allLines (Script.scenes (Parse.script st)) = [] ->
    truthy (Parse.currentCharacter st) = true ->
    Forall Tidy textLines ->
    (forEach parseLine textLines st = Thrown TypeError
     <-> exists bare line rest,
           textLines = bare ++ line :: rest
           /\ Forall (fun l => bareCue l = true) bare
           /\ isCue line = false)
    /\ forall st', forEach parseLine textLines st = Returned st' ->
                   Parsed (seen ++ textLines) st'.
Proof.
  induction textLines as [|textLine textLines IH];
    intros seen st HP Hnil Hcur Ht; cbn [forEach].
  - split; [split; [discriminate|]|].
    + intros (bare & line & rest & E & _). now destruct bare.
    + intros st' H; injection H as <-. now rewrite app_nil_r.
  - inversion Ht as [|? ? Ht1 Ht2]; subst.
    pose proof (parseLine_spec HP Ht1) as H.
    replace (seen ++ textLine :: textLines)
      with ((seen ++ [textLine]) ++ textLines)
      by (now rewrite <- app_assoc).
    destruct (isCue textLine) eqn:En.
    + destruct H as (st1 & E1 & HP1 & Hcur1 & Hb). rewrite E1; cbn [bind].
      destruct (bareCue textLine) eqn:Eb.
      * rewrite Hnil in Hb.
        destruct (IH _ st1 HP1 Hb Hcur1 Ht2) as [IH1 IH2].
        split; [|exact IH2]. rewrite IH1. split.
        -- intros (bare & line & rest & -> & Hbare & Hline).
           exists (textLine :: bare), line, rest. auto.
        -- intros (bare & line & rest & E & Hbare & Hline).
           destruct bare as [|b bare]; cbn [app] in E; injection E as <- ->.
           ++ congruence.
           ++ inversion Hbare; subst. exists bare, line, rest. auto.
      * destruct (parse_safe HP1 Hb Ht2) as (st' & E' & HP').
        rewrite E'. split.
        -- split; [discriminate|].
           intros (bare & line & rest & E & Hbare & Hline).
           destruct bare as [|b bare]; cbn [app] in E; injection E as <- ->.
           ++ congruence.
           ++ inversion Hbare; subst. congruence.
        -- intros st'' H; now injection H as <-.
    + rewrite Hcur, Hnil in H. rewrite H; cbn [bind].
      split; [|discriminate]. split; [|reflexivity].
      intros _. exists [], textLine, textLines. auto.
Qed.

(** From the start, the loop raises exactly when one or more bare cues are
    followed by a line that is not a cue. *)
Lemma parse_fresh (textLines : list Str) (st : Parse.t) :
  Parsed [] st -> allLines (Script.scenes (Parse.script st)) = [] ->
  truthy (Parse.currentCharacter st) = false ->
  Forall Tidy textLines ->
  (forEach parseLine textLines st = Thrown TypeError
   <-> exists bare line rest,
         textLines = bare ++ line :: rest
         /\ bare <> []
         /\ Forall (fun l => bareCue l = true) bare
         /\ isCue line = false)
  /\ forall st', forEach parseLine textLines st = Returned st' ->
                 Parsed textLines st'.
Proof.
  intros HP Hnil Hcur Ht.
  destruct textLines as [|textLine textLines]; cbn [forEach].
  - split; [split; [discriminate|]|intros st' H; now injection H as <-].
    intros (bare & line & rest & E & _). now destruct bare.
  - inversion Ht as [|? ? Ht1 Ht2]; subst.
    pose proof (parseLine_spec HP Ht1) as H. cbn [app] in H.
    assert (Hbare : forall bare line rest,
               textLine :: textLines = bare ++ line :: rest ->
               bare <> [] ->
               Forall (fun l => bareCue l = true) bare ->
               exists bare', bare = textLine :: bare'
                             /\ textLines = bare' ++ line :: rest
                             /\ bareCue textLine = true
                             /\ Forall (fun l => bareCue l = true) bare').
    { intros [|b bare] line rest E Hne Hb; [contradiction|].
      cbn [app] in E; injection E as <- ->. inversion Hb; subst. eauto. }
    destruct (isCue textLine) eqn:En.
    + destruct H as (st1 & E1 & HP1 & Hcur1 & Hb). rewrite E1; cbn [bind].
      destruct (bareCue textLine) eqn:Eb.
      * rewrite Hnil in Hb.
        destruct (parse_armed HP1 Hb Hcur1 Ht2) as [IH1 IH2].
        split; [|exact IH2]. rewrite IH1. split.
        -- intros (bare & line & rest & -> & Hb' & Hline).
           exists (textLine :: bare), line, rest.
           split; [reflexivity|]. split; [discriminate|]. auto.
        -- intros (bare & line & rest & E & Hne & Hb' & Hline).
           destruct (Hbare _ _ _ E Hne Hb') as (bare' & _ & -> & _ & Hb'').
           exists bare', line, rest. auto.
      * destruct (parse_safe HP1 Hb Ht2) as (st' & E' & HP').
        rewrite E'. split; [|intros st'' H; now injection H as <-].
        split; [discriminate|].
        intros (bare & line & rest & E & Hne & Hb' & Hline).
        destruct (Hbare _ _ _ E Hne Hb') as (bare' & _ & _ & Hx & _).
        congruence.
    + rewrite Hcur in H. destruct H as (st1 & E1 & HP1 & Hne1).
      rewrite E1; cbn [bind].
      destruct (parse_safe HP1 Hne1 Ht2) as (st' & E' & HP').
      rewrite E'. split; [|intros st'' H; now injection H as <-].
      split; [discriminate|].
      intros (bare & line & rest & E & Hne & Hb' & Hline).
      destruct (Hbare _ _ _ E Hne Hb') as (bare' & _ & _ & Hx & _).
      apply bareCue_isCue in Hx. congruence.
Qed.

Lemma trimmed_lines_tidy (rawText : Str) :
  Forall Tidy
    (filter (fun line => 0 <? length line) (map trim (split_nl rawText))).
Proof.
  apply Forall_forall. intros line Hin.
  apply filter_In in Hin as [Hin Hlen].
  apply in_map_iff in Hin as (raw & <- & _).
  destruct (trim_tidy raw) as [E|H]; [|exact H].
  rewrite E in Hlen; discriminate.
Qed.

(** [parseScript] runs its loop from a fresh state over [parsedLines]. *)
Lemma parseScript_run (rawText : Str) :
  exists st0,
    Parsed [] st0
    /\ allLines (Script.scenes (Parse.script st0)) = []
    /\ truthy (Parse.currentCharacter st0) = false
    /\ Forall Tidy (parsedLines rawText)
    /\ parseScript rawText
       = (st <- forEach parseLine (parsedLines rawText) st0 ;;
          Returned (Parse.script st)).
Proof.
  unfold parseScript, parsedLines.
  pose proof (trimmed_lines_tidy rawText) as Ht.
  assert (Hstart : forall title,
             Parsed []
               {| Parse.script :=
                    {| Script.title := title;
                       Script.characters := [];
                       Script.scenes :=
                         [ {| Scene.id := lit "1";
                              Scene.name := lit "Scene 1";
                              Scene.lines := [] |} ] |};
                  Parse.characterMap := [];
                  Parse.currentCharacter := None;
                  Parse.lineCounter := 0 |}).
  { intros title. exists [], []. cbn.
    repeat split; try constructor; intros; contradiction. }
  match goal with
  | |- context [filter ?f ?l] => destruct (filter f l) as [|first rest]
  end.
  - eexists. split; [apply (Hstart [])|]. repeat split. constructor.
  - destruct (negb (includes colon first)).
    + eexists. split; [apply (Hstart first)|]. repeat split.
      now inversion Ht.
    + eexists. split; [apply (Hstart [])|]. repeat split. exact Ht.
Qed.

(** ** What [parseScript] returns, and when it raises *)

(** X7: [parseScript] raises a TypeError exactly when the lines it walks
    (trimmed, non-empty, without the title line) begin with one or more cue
    lines that have no text after their colon, directly followed by a line
    that is not a cue line; on every other input it returns. *)
Theorem parseScript_raises_exactly (rawText : Str) :
  (parseScript rawText = Thrown TypeError
   <-> exists bare line rest,
         parsedLines rawText = bare ++ line :: rest
         /\ bare <> []
         /\ Forall (fun textLine => bareCue textLine = true) bare
         /\ isCue line = false)
  /\ (parseScript rawText <> Thrown TypeError
      -> exists script, parseScript rawText = Returned script).
Proof.
  destruct (parseScript_run rawText) as (st0 & HP & Hnil & Hcur & Ht & E).
  destruct (parse_fresh HP Hnil Hcur Ht) as [Hraise _].
  rewrite E.
  destruct (forEach parseLine (parsedLines rawText) st0) as [st|[]] eqn:Er;
    cbn [bind].
  - split; [|eauto]. rewrite <- Hraise. split; discriminate.
  - split; [|intros H; now contradiction H]. rewrite <- Hraise. tauto.
Qed.

(** X8: whenever [parseScript] returns, the script has exactly one scene,
    with id "1" and name "Scene 1"; the ids of its lines are "1", "2", ...
    in order; and every line has scene id "1", a trimmed non-empty text,
    and is either a flagged direction under "0" or an unflagged speech
    with the id of a listed character, which is never "0". *)
Theorem parseScript_single_scene (rawText : Str) (script : Script.t) :
  parseScript rawText = Returned script ->
  exists lines,
    Script.scenes script
    = [ {| Scene.id := lit "1"; Scene.name := lit "Scene 1";
           Scene.lines := lines |} ]
    /\ map Line.id lines = map toString (seq 1 (length lines))
    /\ forall line, In line lines ->
         Line.sceneId line = lit "1"
         /\ Tidy (Line.text line)
         /\ ((Line.isDirection line = Some true
              /\ Line.characterId line = noSpeaker)
             \/ (Line.isDirection line = None
                 /\ Line.characterId line <> noSpeaker
                 /\ exists character,
                      In character (Script.characters script)
                      /\ Character.id character = Line.characterId line)).
Proof.
  intros Hrun.
  destruct (parseScript_catalog rawText Hrun) as [_ Hcat].
  destruct (parseScript_run rawText) as (st0 & HP & Hnil & Hcur & Ht & E).
  destruct (parse_fresh HP Hnil Hcur Ht) as [_ Hret].
  rewrite E in Hrun.
  destruct (forEach parseLine (parsedLines rawText) st0) as [st|] eqn:Er;
    [|discriminate Hrun].
  cbn [bind] in Hrun. injection Hrun as <-.
  destruct (Hret st eq_refl)
    as (directions & speeches & Hsc & Hids & Hl & Hdir & Hsp & _).
  exists (directions ++ speeches). split; [exact Hsc|]. split.
  - rewrite Hids. do 2 f_equal.
    apply (f_equal (@length Str)) in Hids.
    now rewrite !length_map, length_seq in Hids.
  - intros line Hin. rewrite Forall_forall in Hl, Hdir, Hsp.
    destruct (Hl line Hin) as [H1 H2].
    split; [exact H1|]. split; [exact H2|].
    apply in_app_iff in Hin as [Hin|Hin]; [left; now apply Hdir|].
    destruct (Hsp line Hin) as (Hd & character & Hc & Hid).
    right. split; [exact Hd|]. split; [|eauto].
    apply (in_map Character.id) in Hc. rewrite Hcat in Hc.
    apply in_map_iff in Hc as (n & En & Hn). apply in_seq in Hn.
    destruct n as [|n]; [lia|]. rewrite <- Hid, <- En.
    apply toString_not_zero.
Qed.

(** A title, a cue with its speech and three more lines: [parseScript]
    returns. *)
Lemma parseScript_single_scene_witness :
  exists script,
    parseScript titledScene = Returned script
    /\ exists lines,
         Script.scenes script
         = [ {| Scene.id := lit "1"; Scene.name := lit "Scene 1";
                Scene.lines := lines |} ]
         /\ map Line.id lines = map toString (seq 1 (length lines))
         /\ forall line, In line lines ->
              Line.sceneId line = lit "1"
              /\ Tidy (Line.text line)
              /\ ((Line.isDirection line = Some true
                   /\ Line.characterId line = noSpeaker)
                  \/ (Line.isDirection line = None
                      /\ Line.characterId line <> noSpeaker
                      /\ exists character,
                           In character (Script.characters script)
                           /\ Character.id character
                              = Line.characterId line)).
Proof.
  eexists. split; [vm_compute; reflexivity|].
  apply (@parseScript_single_scene titledScene). vm_compute; reflexivity.
Defined.

(** X9: whenever [parseScript] returns, the lines of its scene are one
    flagged direction for each walked line that precedes the first cue
    line, followed by one unflagged speech for each cue line that has a
    text after its colon.  No other walked line gets a Line of its own:
    neither a cue without text, nor a line that is not a cue and comes
    after the first cue. *)
Theorem parseScript_lines_from_cues (rawText : Str) (script : Script.t) :
  parseScript rawText = Returned script ->
  exists directions speeches,
    allLines (Script.scenes script) = directions ++ speeches
    /\ Forall (fun line => Line.isDirection line = Some true) directions
    /\ Forall (fun line => Line.isDirection line = None) speeches
    /\ length directions = length (leadingProse (parsedLines rawText))
    /\ length speeches = length (filter spokenCue (parsedLines rawText)).
Proof.
  intros Hrun.
  destruct (parseScript_run rawText) as (st0 & HP & Hnil & Hcur & Ht & E).
  destruct (parse_fresh HP Hnil Hcur Ht) as [_ Hret].
  rewrite E in Hrun.
  destruct (forEach parseLine (parsedLines rawText) st0) as [st|] eqn:Er;
    [|discriminate Hrun].
  cbn [bind] in Hrun. injection Hrun as <-.
  destruct (Hret st eq_refl)
    as (directions & speeches & Hsc & _ & _ & Hdir & Hsp & _ & Hnd & Hns & _).
  exists directions, speeches. rewrite Hsc.
  split; [unfold allLines; simpl; apply app_nil_r|].
  split; [eapply Forall_impl; [|exact Hdir]; now intros line [H _]|].
  split; [eapply Forall_impl; [|exact Hsp]; now intros line [H _]|].
  split; assumption.
Qed.

(** On the sample the title line is not walked; "ROMEO: Hello" is the only
    cue with a text and no line precedes it, so there is one speech. *)
Lemma parseScript_lines_from_cues_witness :
  exists script,
    parseScript titledScene = Returned script
    /\ exists directions speeches,
         allLines (Script.scenes script) = directions ++ speeches
         /\ Forall (fun line => Line.isDirection line = Some true) directions
         /\ Forall (fun line => Line.isDirection line = None) speeches
         /\ length directions = length (leadingProse (parsedLines titledScene))
         /\ length speeches
            = length (filter spokenCue (parsedLines titledScene)).
Proof.
  eexists. split; [vm_compute; reflexivity|].
  apply (@parseScript_lines_from_cues titledScene). vm_compute; reflexivity.
Defined.

(** ** The queries on a script *)

Lemma filter_flat_map (A B : Type) (f : B -> bool) (g : A -> list B)
  (l : list A) :
  flat_map (fun a => filter f (g a)) l = filter f (flat_map g l).
Proof.
  induction l as [|a l IH]; simpl; [reflexivity|].
  now rewrite filter_app, IH.
Qed.

Lemma getLinesForCharacter_filter (script : Script.t) (characterId : Str) :
  getLinesForCharacter script characterId
  = filter (fun line => eqb_str (Line.characterId line) characterId)
      (allLines (Script.scenes script)).
Proof. unfold getLinesForCharacter, allLines. apply filter_flat_map. Qed.

Lemma Permutation_filter_split (A : Type) (f : A -> bool) (l : list A) :
  Permutation l (filter f l ++ filter (fun x => negb (f x)) l).
Proof.
  induction l as [|a l IH]; simpl; [constructor|].
  destruct (f a); simpl.
  - now constructor.
  - now apply Permutation_cons_app.
Qed.

Lemma filter_filter_sub (A : Type) (f g : A -> bool) (l : list A) :
  (forall x, f x = true -> g x = true) ->
  filter f (filter g l) = filter f l.
Proof.
  intros H; induction l as [|a l IH]; simpl; [reflexivity|].
  destruct (g a) eqn:Eg; simpl.
  - now rewrite IH.
  - rewrite IH. destruct (f a) eqn:Ef; [|reflexivity].
    apply H in Ef; congruence.
Qed.

(** Sorting the elements of a list by a key taken from a duplicate-free
    list of keys rearranges the list. *)
Lemma partition_by_key (A : Type) (key : A -> Str) (keys : list Str) :
  NoDup keys ->
  forall l,
    (forall x, In x l -> In (key x) keys) ->
    Permutation l
      (flat_map (fun k => filter (fun x => eqb_str (key x) k) l) keys).
Proof.
  induction 1 as [|k keys Hk Hnd IH]; intros l Hl; simpl.
  - destruct l as [|x l]; [constructor|]. destruct (Hl x); now left.
  - etransitivity;
      [apply (Permutation_filter_split (fun x => eqb_str (key x) k))|].
    apply Permutation_app_head.
    set (others := filter (fun x => negb (eqb_str (key x) k)) l).
    etransitivity; [apply (IH others)|].
    + intros x Hx. apply filter_In in Hx as [Hx Hne].
      destruct (Hl x Hx) as [E|Hin]; [|exact Hin].
      rewrite <- E, eqb_str_refl in Hne. discriminate.
    + assert (Hsame : forall ks, ~ In k ks ->
                flat_map (fun k' => filter (fun x => eqb_str (key x) k')
                                      others) ks
                = flat_map (fun k' => filter (fun x => eqb_str (key x) k') l)
                    ks).
      { induction ks as [|k' ks IHk]; simpl; [reflexivity|].
        intros Hn. rewrite IHk by tauto. f_equal.
        apply filter_filter_sub. intros x Ex. apply eqb_str_eq in Ex.
        apply negb_true_iff, eqb_str_neq. intros E. apply Hn. left.
        congruence. }
      rewrite (Hsame keys Hk). reflexivity.
Qed.

Lemma nth_error_after (A : Type) (prefix : list A) (a : A) (rest : list A) :
  nth_error (prefix ++ a :: rest) (length prefix) = Some a.
Proof. induction prefix; simpl; auto. Qed.

(** The index loop of [getCueLines] over one scene visits the pairs of
    neighbouring lines; no index it reads is out of range. *)
Lemma cueAt_loop (characterId : Str) (lines : list Line.t) :
  forall prefix cueLines,
    forEach (cueAt characterId (prefix ++ lines))
      (seq (length prefix) (length lines - 1)) cueLines
    = Returned (cueLines ++ adjacentCues characterId lines).
Proof.
  induction lines as [|cue lines IH]; intros prefix cueLines.
  - simpl. now rewrite app_nil_r.
  - destruct lines as [|response rest].
    + simpl. now rewrite app_nil_r.
    + replace (length (cue :: response :: rest) - 1)
        with (S (length (response :: rest) - 1)) by (simpl; lia).
      cbn [seq forEach]. unfold cueAt at 1.
      replace (prefix ++ cue :: response :: rest)
        with ((prefix ++ [cue]) ++ response :: rest)
        by (now rewrite <- app_assoc).
      replace (length prefix + 1) with (length (prefix ++ [cue]))
        by (rewrite length_app; reflexivity).
      rewrite nth_error_after. cbn [defined bind].
      replace ((prefix ++ [cue]) ++ response :: rest)
        with (prefix ++ cue :: response :: rest) at 1
        by (now rewrite <- app_assoc).
      replace (S (length prefix)) with (length (prefix ++ [cue]))
        by (rewrite length_app; simpl; lia).
      cbn [adjacentCues].
      destruct (eqb_str (Line.characterId response) characterId).
      * rewrite nth_error_after. cbn [defined bind andb].
        destruct (negb (isTrue (Line.isDirection cue))); cbn [bind].
        -- rewrite IH. now rewrite <- app_assoc.
        -- rewrite IH. reflexivity.
      * cbn [bind andb]. rewrite IH. reflexivity.
Qed.

Lemma getCueLines_returns (script : Script.t) (characterId : Str) :
  getCueLines script characterId
  = Returned (flat_map (fun scene =>
                          adjacentCues characterId (Scene.lines scene))
                (Script.scenes script)).
Proof.
  unfold getCueLines.
  assert (H : forall scenes cueLines,
             forEach
               (fun cueLines scene =>
                  forEach (cueAt characterId (Scene.lines scene))
                    (seq 0 (length (Scene.lines scene) - 1)) cueLines)
               scenes cueLines
             = Returned
                 (cueLines
                  ++ flat_map (fun scene =>
                                 adjacentCues characterId (Scene.lines scene))
                       scenes)).
  { induction scenes as [|scene scenes IH]; intros cueLines; cbn [forEach].
    - simpl. now rewrite app_nil_r.
    - pose proof (cueAt_loop characterId (Scene.lines scene) [] cueLines)
        as Hl.
      cbn [app length] in Hl. rewrite Hl.
      cbn [bind]. rewrite IH. simpl. now rewrite app_assoc. }
  apply (H (Script.scenes script) []).
Qed.

Lemma adjacentCues_spec (characterId : Str) (cue response : Line.t)
  (lines : list Line.t) :
  In {| Cue.cue := cue; Cue.response := response |}
    (adjacentCues characterId lines)
  <-> exists earlier later,
        lines = earlier ++ cue :: response :: later
        /\ Line.characterId response = characterId
        /\ Line.isDirection cue <> Some true.
Proof.
  induction lines as [|a lines IH]; [|destruct lines as [|b rest]].
  - simpl. split; [tauto|]. intros (earlier & later & E & _).
    now destruct earlier.
  - simpl. split; [tauto|]. intros (earlier & later & E & _).
    destruct earlier as [|x [|y earlier]]; discriminate E.
  - cbn [adjacentCues]. rewrite in_app_iff, IH. split.
    + intros [H|(earlier & later & E & H)].
      * destruct (eqb_str (Line.characterId b) characterId) eqn:Eb;
          [|contradiction H].
        destruct (isTrue (Line.isDirection a)) eqn:Ed; [contradiction H|].
        destruct H as [H|[]]. injection H as -> ->.
        exists [], rest. split; [reflexivity|].
        apply eqb_str_eq in Eb. split; [exact Eb|].
        intros Hd; rewrite Hd in Ed; discriminate.
      * exists (a :: earlier), later. rewrite E. auto.
    + intros (earlier & later & E & Hc & Hd).
      destruct earlier as [|x earlier]; cbn [app] in E.
      * injection E as -> -> ->. left.
        rewrite Hc, eqb_str_refl.
        destruct (Line.isDirection cue) as [[|]|]; simpl; auto.
      * injection E as -> E. right. exists earlier, later. auto.
Qed.

Lemma neighbours_numbered (A B : Type) (f : A -> B) (g : nat -> B)
  (a b : A) (post : list A) :
  forall pre s k,
    map f (pre ++ a :: b :: post) = map g (seq s k) ->
    f a = g (s + length pre) /\ f b = g (S (s + length pre)).
Proof.
  induction pre as [|x pre IH]; intros s k H.
  - destruct k as [|[|k]]; simpl in H; try discriminate.
    injection H as Ha Hb _. rewrite Nat.add_0_r. auto.
  - destruct k as [|k]; simpl in H; [discriminate|].
    injection H as _ H. apply IH in H. simpl.
    now rewrite <- plus_n_Sm.
Qed.

(** X10: [getCueLines] never raises, and it returns exactly the pairs of
    neighbouring lines of one scene whose second line is spoken by the
    given character and whose first line is not flagged as a direction; a
    pair never spans two scenes. *)
Theorem getCueLines_adjacent (script : Script.t) (characterId : Str) :
  exists cueLines,
    getCueLines script characterId = Returned cueLines
    /\ forall cue response,
         In {| Cue.cue := cue; Cue.response := response |} cueLines
         <-> exists scene earlier later,
               In scene (Script.scenes script)
               /\ Scene.lines scene = earlier ++ cue :: response :: later
               /\ Line.characterId response = characterId
               /\ Line.isDirection cue <> Some true.
Proof.
  eexists; split; [apply getCueLines_returns|].
  intros cue response. rewrite in_flat_map. split.
  - intros (scene & Hs & H). apply adjacentCues_spec in H
      as (earlier & later & H).
    exists scene, earlier, later. tauto.
  - intros (scene & earlier & later & Hs & H).
    exists scene. split; [exact Hs|]. apply adjacentCues_spec.
    exists earlier, later. exact H.
Qed.

Section Queries.

Variable toUpperCase : Str -> Str.

(** X11: for every input, the lines [getLinesForCharacter] returns for the
    sentinel id "0" and for the ids of the catalog, taken together, are a
    rearrangement of all the lines of the script returned by
    [analyzeScriptText]: every line is found under exactly one of these
    ids. *)
Theorem lines_partition_by_character (rawText : Str) :
  exists script,
    analyzeScriptText toUpperCase rawText = Returned script
    /\ Permutation (allLines (Script.scenes script))
         (flat_map (getLinesForCharacter script)
            (noSpeaker :: map Character.id (Script.characters script))).
Proof.
  destruct (analyzeScriptText_script toUpperCase rawText)
    as (st & title & HR & _ & _ & E).
  eexists; split; [exact E|]. cbn [Script.scenes Script.characters].
  destruct (catalog_spec toUpperCase (split_nl rawText) eq_refl)
    as (_ & _ & _ & Hid).
  fold (characterMapOf toUpperCase rawText) in Hid.
  erewrite flat_map_ext by (intros; apply getLinesForCharacter_filter).
  cbn [Script.scenes]. apply partition_by_key.
  - constructor.
    + rewrite Hid. intros Hin. apply in_map_iff in Hin as (n & En & Hn).
      apply in_seq in Hn. destruct n as [|n]; [lia|].
      now apply toString_not_zero in En.
    + rewrite Hid. apply NoDup_map_toString, seq_NoDup.
  - intros line Hl.
    destruct (reached_speakers HR line Hl) as [[H _]|(character & Hc & H)].
    + left; now rewrite H.
    + right. rewrite <- H. now apply in_map.
Qed.

(** X12: for every input, every pair [getCueLines] returns on the script
    of [analyzeScriptText] has as its cue the line right before the
    response: both carry the same scene id, their ids are consecutive
    numbers, and the cue is an unflagged speech of a character of the
    catalog. *)
Theorem cues_precede_responses (rawText : Str) :
  exists script,
    analyzeScriptText toUpperCase rawText = Returned script
    /\ forall characterId,
       exists cueLines,
         getCueLines script characterId = Returned cueLines
         /\ forall pair, In pair cueLines ->
              Line.characterId (Cue.response pair) = characterId
              /\ Line.sceneId (Cue.cue pair)
                 = Line.sceneId (Cue.response pair)
              /\ (exists n, Line.id (Cue.cue pair) = toString n
                            /\ Line.id (Cue.response pair) = toString (S n))
              /\ Line.isDirection (Cue.cue pair) = None
              /\ exists character,
                   In character (Script.characters script)
                   /\ Character.id character
                      = Line.characterId (Cue.cue pair).
Proof.
  destruct (analyzeScriptText_walk toUpperCase rawText)
    as (st & title & E & HR & Hplaced & Hflag).
  eexists; split; [exact E|]. cbn [Script.scenes Script.characters].
  intros characterId. eexists; split; [apply getCueLines_returns|].
  cbn [Script.scenes]. intros [cue response] Hin. cbn [Cue.cue Cue.response].
  apply in_flat_map in Hin as (scene & Hs & Hin).
  apply adjacentCues_spec in Hin as (earlier & later & El & Hc & Hd).
  split; [exact Hc|].
  rewrite Forall_forall in Hplaced, Hflag.
  pose proof (Hplaced scene Hs) as Hp. rewrite El, Forall_forall in Hp.
  assert (Hcue : In cue (earlier ++ cue :: response :: later))
    by (apply in_app_iff; right; now left).
  assert (Hresp : In response (earlier ++ cue :: response :: later))
    by (apply in_app_iff; right; right; now left).
  split; [now rewrite (Hp cue Hcue), (Hp response Hresp)|].
  split.
  - apply in_split in Hs as (s1 & s2 & Es).
    pose proof (reached_ids HR) as Hi.
    rewrite Es in Hi. unfold allLines in Hi.
    rewrite flat_map_app in Hi. cbn [flat_map] in Hi.
    rewrite El, <- !app_assoc, app_assoc in Hi. cbn [app] in Hi.
    apply neighbours_numbered in Hi as [Ha Hb]. eauto.
  - assert (Hall : In cue (allLines (Walk.scenes st))).
    { unfold allLines. apply in_flat_map. exists scene.
      split; [exact Hs|]. now rewrite El. }
    destruct (Hflag cue Hall) as [[H _]|H]; [contradiction|exact H].
Qed.

End Queries.

(** ** Searching and replacing *)

(** The leftmost match splits the input into the text skipped, the match
    and the rest; the match is what the pattern consumed. *)
Lemma search_split (P : CodeUnit -> Prop) (r : Regex) (s : Str)
  (prev : option CodeUnit) (m : Match) :
  onlyUnits P r ->
  search r prev s = Some m ->
  exists skipped,
    s = skipped ++ matched m ++ remainder m
    /\ firstn (length s - length (matched m) - length (remainder m)) s
       = skipped
    /\ Forall P (matched m).
Proof.
  intros HP H.
  apply search_trace in H as (skipped & prev' & s0 & -> & _ & H & Em).
  apply (matchAt_trace P r HP) in H
    as (consumed & p1 & s1 & more & -> & Fc & _ & _ & H).
  unfold found in H. injection H as _ E2 _. subst s1.
  rewrite firstn_consumed in Em.
  exists skipped. rewrite Em. split; [reflexivity|]. split; [|exact Fc].
  rewrite !length_app.
  replace (length skipped + (length consumed + length (remainder m))
           - length consumed - length (remainder m))
    with (length skipped + 0) by lia.
  rewrite firstn_app_2. simpl. apply app_nil_r.
Qed.

(** A global replacement keeps every code unit that the pattern cannot
    consume and the replacement text does not contain. *)
Lemma replaceAllFrom_keeps (keep : CodeUnit -> bool) (r : Regex)
  (replacement : Str) :
  onlyUnits (fun c => keep c = false) r ->
  filter keep replacement = [] ->
  forall fuel prev s,
    filter keep (replaceAllFrom fuel r replacement prev s) = filter keep s.
Proof.
  intros Hr Hrep fuel; induction fuel as [|fuel IH]; intros prev s;
    cbn [replaceAllFrom]; [reflexivity|].
  destruct (search r prev s) as [m|] eqn:E; [|reflexivity].
  destruct (@search_split _ r s prev m Hr E) as (skipped & Es & Ef & Fm).
  rewrite Ef.
  assert (Hm : filter keep (matched m) = []).
  { clear -Fm. induction Fm as [|c l Hc _ IHm]; simpl; [reflexivity|].
    now rewrite Hc. }
  rewrite Es at 1. rewrite !filter_app, Hrep, Hm. cbn [app]. f_equal.
  destruct (matched m) as [|x xs]; [destruct (remainder m) as [|c s']|].
  - reflexivity.
  - cbn [filter]. now rewrite IH.
  - apply IH.
Qed.

(** A global replacement only puts units of the replacement text in. *)
Lemma replaceAllFrom_Forall (Q : CodeUnit -> Prop) (r : Regex)
  (replacement : Str) :
  Forall Q replacement ->
  forall fuel prev s,
    Forall Q s -> Forall Q (replaceAllFrom fuel r replacement prev s).
Proof.
  intros Hrep fuel; induction fuel as [|fuel IH]; intros prev s Hs;
    cbn [replaceAllFrom]; [exact Hs|].
  destruct (search r prev s) as [m|] eqn:E; [|exact Hs].
  destruct (@search_split _ r s prev m (onlyUnits_any r) E)
    as (skipped & Es & Ef & _).
  rewrite Ef.
  rewrite Es in Hs. apply Forall_app in Hs as [H1 Hs].
  apply Forall_app in Hs as [H2 H3].
  apply Forall_app; split; [exact H1|]. apply Forall_app; split; [exact Hrep|].
  destruct (matched m) as [|x xs]; [destruct (remainder m) as [|c s']|].
  - constructor.
  - inversion H3; subst. constructor; [assumption|]. now apply IH.
  - now apply IH.
Qed.

Lemma filter_trimStart (keep : CodeUnit -> bool) (s : Str) :
  (forall c, isWhiteSpace c = true -> keep c = false) ->
  filter keep (trimStart s) = filter keep s.
Proof.
  intros H; induction s as [|c s IH]; simpl; [reflexivity|].
  destruct (isWhiteSpace c) eqn:E; [|reflexivity].
  now rewrite (H c E).
Qed.

Lemma filter_trim (keep : CodeUnit -> bool) (s : Str) :
  (forall c, isWhiteSpace c = true -> keep c = false) ->
  filter keep (trim s) = filter keep s.
Proof.
  intros H; unfold trim, trimEnd.
  rewrite filter_rev, filter_trimStart, <- filter_rev, rev_involutive by exact H.
  now apply filter_trimStart.
Qed.

(** [search] tries every position from the left: the pattern fails at each
    position it skips. *)
Lemma search_leftmost (r : Regex) (s : Str) :
  forall prev m,
    search r prev s = Some m ->
    exists skipped prev' s0,
      s = skipped ++ s0
      /\ matchAt r prev' s0 [] found
         = Some (lastPrev m, remainder m, groups m)
      /\ matched m = firstn (length s0 - length (remainder m)) s0
      /\ forall pre c post,
           skipped = pre ++ c :: post ->
           exists p, matchAt r p (c :: post ++ s0) [] found = None.
Proof.
  induction s as [|c s IH]; intros prev m H; cbn [search] in H;
    fold found in H.
  - destruct (matchAt r prev [] [] found) as [[[p s'] caps]|] eqn:E;
      [|discriminate].
    injection H as <-. exists [], prev, []. repeat split; auto.
    intros [|x pre] y post Hp; discriminate Hp.
  - destruct (matchAt r prev (c :: s) [] found) as [[[p s'] caps]|] eqn:E.
    + injection H as <-. exists [], prev, (c :: s). repeat split; auto.
      intros [|x pre] y post Hp; discriminate Hp.
    + apply IH in H as (skipped & prev' & s0 & -> & H & Em & Hskip).
      exists (c :: skipped), prev', s0. repeat split; auto.
      intros [|x pre] y post Hp; injection Hp as <- Hp.
      * subst skipped. exists prev. exact E.
      * now apply Hskip with pre.
Qed.

Lemma search_nowhere (r : Regex) (s : Str) :
  forall prev,
    search r prev s = None ->
    forall pre suffix,
      s = pre ++ suffix -> exists p, matchAt r p suffix [] found = None.
Proof.
  induction s as [|c s IH]; intros prev H pre suffix Es; cbn [search] in H;
    fold found in H.
  - destruct pre; [|discriminate Es]. simpl in Es; subst suffix.
    exists prev. destruct (matchAt r prev [] [] found) as [[[p s'] caps]|];
      [discriminate|reflexivity].
  - destruct (matchAt r prev (c :: s) [] found) as [[[p s'] caps]|] eqn:E;
      [discriminate|].
    destruct pre as [|x pre]; simpl in Es.
    + subst suffix. exists prev. exact E.
    + injection Es as _ Es. now apply (IH (Some c) H pre).
Qed.

(** A starred class, run to the end of the match, takes the longest run. *)
Lemma star_class (p : CodeUnit -> bool) (s : Str) :
  forall prev caps,
    exists run rest prev',
      s = run ++ rest
      /\ Forall (fun c => p c = true) run
      /\ match rest with
         | c :: _ => p c = false
         | [] => True
         end
      /\ matchAt (Star (One p)) prev s caps found = Some (prev', rest, caps).
Proof.
  cbn [matchAt]. intros prev caps.
  generalize (Nat.le_refl (length s)). generalize (length s) at 2 3.
  intros fuel; revert s prev; induction fuel as [|fuel IH]; intros s prev Hf.
  - destruct s; [|simpl in Hf; lia].
    exists [], [], prev. repeat split; auto.
  - destruct s as [|c s'].
    + exists [], [], prev. repeat split; auto.
    + destruct (p c) eqn:Ec.
      * simpl in Hf.
        destruct (IH s' (Some c)) as (run & rest & prev' & -> & Fr & Hr & E);
          [lia|].
        exists (c :: run), rest, prev'. split; [reflexivity|].
        split; [now constructor|]. split; [exact Hr|].
        replace (length (run ++ rest) <? length (c :: run ++ rest)) with true
          by (symmetry; apply Nat.ltb_lt; simpl; lia).
        now rewrite E.
      * exists [], (c :: s'), prev. repeat split; auto.
Qed.

Lemma class_found (p : CodeUnit -> bool) (prev : option CodeUnit) (s : Str)
  (res : Found) :
  matchAt (One p) prev s [] found = Some res ->
  exists c rest, s = c :: rest /\ p c = true /\ res = (Some c, rest, []).
Proof.
  cbn [matchAt]. destruct s as [|c rest]; [discriminate|].
  destruct (p c) eqn:E; [|discriminate].
  intros H; injection H as <-. eauto.
Qed.

Lemma class_missed (p : CodeUnit -> bool) (prev : option CodeUnit)
  (c : CodeUnit) (rest : Str) :
  matchAt (One p) prev (c :: rest) [] found = None -> p c = false.
Proof. cbn [matchAt]. now destruct (p c). Qed.

Lemma run_found (p : CodeUnit -> bool) (prev : option CodeUnit) (s : Str)
  (res : Found) :
  matchAt (Plus (One p)) prev s [] found = Some res ->
  exists c run rest,
    s = c :: run ++ rest /\ p c = true
    /\ Forall (fun x => p x = true) run
    /\ match rest with
       | x :: _ => p x = false
       | [] => True
       end
    /\ snd (fst res) = rest.
Proof.
  unfold Plus. rewrite matchAt_Cat. cbn [matchAt].
  destruct s as [|c s']; [discriminate|].
  destruct (p c) eqn:Ec; [|discriminate].
  destruct (star_class p s' (Some c) []) as (run & rest & prev' & -> & Fr
                                             & Hr & E).
  cbn [matchAt] in E. rewrite E. intros H; injection H as <-.
  exists c, run, rest. auto.
Qed.

Lemma run_missed (p : CodeUnit -> bool) (prev : option CodeUnit)
  (c : CodeUnit) (rest : Str) :
  matchAt (Plus (One p)) prev (c :: rest) [] found = None -> p c = false.
Proof.
  unfold Plus. rewrite matchAt_Cat.
  destruct (p c) eqn:Ec; [|reflexivity].
  destruct (star_class p rest (Some c) []) as (run & rest' & prev' & _ & _
                                               & _ & E).
  cbn [matchAt] in *. rewrite Ec, E. discriminate.
Qed.

(** The search for a pattern that can only fail on a unit outside the
    class [p]: either no unit of the input is in the class, or the units
    skipped are outside it and the match starts right after them. *)
Lemma search_view (p : CodeUnit -> bool) (r : Regex) (s : Str)
  (prev : option CodeUnit) :
  (forall pv c rest, matchAt r pv (c :: rest) [] found = None -> p c = false) ->
  match search r prev s with
  | None => Forall (fun c => p c = false) s
  | Some m =>
      exists skipped prev',
        s = skipped ++ matched m ++ remainder m
        /\ firstn (length s - length (matched m) - length (remainder m)) s
           = skipped
        /\ Forall (fun c => p c = false) skipped
        /\ matchAt r prev' (matched m ++ remainder m) [] found
           = Some (lastPrev m, remainder m, groups m)
  end.
Proof.
  intros Hfail. destruct (search r prev s) as [m|] eqn:E.
  - destruct (search_leftmost _ _ _ E)
      as (skipped & prev' & s0 & Es & Hm & Em & Hskip).
    pose proof Hm as Hm'.
    apply (matchAt_trace (fun _ => True) r (onlyUnits_any r)) in Hm'
      as (consumed & p1 & s1 & more & E0 & _ & _ & _ & Hm').
    unfold found in Hm'. injection Hm' as _ E2 _. subst s1.
    rewrite E0, firstn_consumed in Em. subst consumed s0.
    exists skipped, prev'. split; [exact Es|]. split; [|split; [|exact Hm]].
    + rewrite Es, !length_app.
      replace (length skipped + (length (matched m) + length (remainder m))
               - length (matched m) - length (remainder m))
        with (length skipped + 0) by lia.
      rewrite firstn_app_2. simpl. apply app_nil_r.
    + apply Forall_forall. intros c Hc.
      apply in_split in Hc as (pre & post & Ec).
      destruct (Hskip pre c post Ec) as [pv Hpv]. now apply Hfail in Hpv.
  - apply Forall_forall. intros c Hc. apply in_split in Hc as (pre & post & Ec).
    destruct (search_nowhere _ _ E pre (c :: post) Ec) as [pv Hpv].
    now apply Hfail in Hpv.
Qed.

(** ** Cleaning the extracted text *)

(** Replacing a class by nothing removes every unit of the class. *)
Lemma remove_class (p : CodeUnit -> bool) :
  forall fuel prev s,
    length s < fuel ->
    Forall (fun c => p c = false) (replaceAllFrom fuel (One p) [] prev s).
Proof.
  induction fuel as [|fuel IH]; intros prev s Hf; [lia|].
  cbn [replaceAllFrom].
  pose proof (search_view p (One p) s prev (class_missed p)) as Hv.
  destruct (search (One p) prev s) as [m|]; [|exact Hv].
  destruct Hv as (skipped & prev' & Es & -> & Fs & Hm).
  apply class_found in Hm as (c & rest & Ec & Hc & Hres).
  injection Hres as _ Er _.
  cbn [app]. apply Forall_app; split; [exact Fs|].
  assert (Hlen : length (remainder m) < fuel).
  { apply (f_equal (@length CodeUnit)) in Es, Ec.
    rewrite length_app in Ec. rewrite 2!length_app in Es.
    rewrite Er in Ec. simpl in Ec. rewrite <- Er in Ec. lia. }
  rewrite Er in Ec. change (c :: rest) with ([c] ++ rest) in Ec.
  apply app_inv_tail in Ec. rewrite Ec. now apply IH.
Qed.

Lemma singleSpaced_clean (s : Str) :
  Forall (fun c => isWhiteSpace c = false) s -> singleSpaced s = true.
Proof.
  induction 1 as [|c s Hc _ IH]; simpl; [reflexivity|]. now rewrite Hc.
Qed.

Lemma singleSpaced_after_clean (a b : Str) :
  Forall (fun c => isWhiteSpace c = false) a ->
  singleSpaced b = true -> singleSpaced (a ++ b) = true.
Proof.
  induction 1 as [|c s Hc _ IH]; simpl; [auto|]. rewrite Hc. auto.
Qed.

(** Replacing every run of whitespace by one space leaves single spaces,
    each followed by a unit that is not whitespace or by the end. *)
Lemma squeeze_runs :
  forall fuel prev s,
    length s < fuel ->
    singleSpaced
      (replaceAllFrom fuel (Plus (One isWhiteSpace)) [space] prev s) = true
    /\ match s with
       | c :: _ =>
           isWhiteSpace c = false ->
           exists t,
             replaceAllFrom fuel (Plus (One isWhiteSpace)) [space] prev s
             = c :: t
       | [] =>
           replaceAllFrom fuel (Plus (One isWhiteSpace)) [space] prev s = []
       end.
Proof.
  induction fuel as [|fuel IH]; intros prev s Hf; [lia|].
  cbn [replaceAllFrom].
  pose proof (search_view isWhiteSpace (Plus (One isWhiteSpace)) s prev
                (run_missed isWhiteSpace)) as Hv.
  destruct (search (Plus (One isWhiteSpace)) prev s) as [m|] eqn:E.
  - destruct Hv as (skipped & prev' & Es & -> & Fs & Hm).
    apply run_found in Hm as (c & run & rest & Ec & Hc & Fr & Hrest & Hres).
    cbn [snd fst] in Hres. subst rest.
    destruct (matched m) as [|x xs] eqn:Em.
    { exfalso. cbn [app] in Ec.
      apply (f_equal (@length CodeUnit)) in Ec. simpl in Ec.
      rewrite length_app in Ec. lia. }
    assert (Hlen : length (remainder m) < fuel).
    { apply (f_equal (@length CodeUnit)) in Es.
      rewrite 2!length_app in Es. simpl in Es. lia. }
    destruct (IH (lastPrev m) (remainder m) Hlen) as [IH1 IH2].
    split.
    + apply singleSpaced_after_clean; [exact Fs|].
      cbn [app singleSpaced].
      replace (isWhiteSpace space) with true by reflexivity.
      rewrite N.eqb_refl, IH1. cbn [andb].
      destruct (remainder m) as [|y s'] eqn:Er.
      * now rewrite IH2.
      * destruct (IH2 Hrest) as [t ->]. now rewrite Hrest.
    + destruct s as [|c0 s0].
      * now destruct skipped.
      * intros Hc0. destruct skipped as [|k skipped]; cbn [app] in *.
        -- exfalso. injection Es as -> _. injection Ec as -> _. congruence.
        -- injection Es as -> _. eauto.
  - split; [now apply singleSpaced_clean|].
    destruct s as [|c0 s0]; [reflexivity|]. eauto.
Qed.

Lemma trimStart_drops (s : Str) : exists dropped, s = dropped ++ trimStart s.
Proof.
  induction s as [|c s [dropped IH]]; simpl; [now exists []|].
  destruct (isWhiteSpace c); [|now exists []].
  exists (c :: dropped). simpl. now rewrite <- IH.
Qed.

Lemma singleSpaced_suffix (a b : Str) :
  singleSpaced (a ++ b) = true -> singleSpaced b = true.
Proof.
  induction a as [|c a IH]; simpl; [auto|].
  intros H; apply andb_true_iff in H as [_ H]. auto.
Qed.

Lemma singleSpaced_prefix (a b : Str) :
  singleSpaced (a ++ b) = true -> singleSpaced a = true.
Proof.
  induction a as [|c a IH]; simpl; [auto|].
  intros H; apply andb_true_iff in H as [H1 H2].
  rewrite (IH H2), andb_true_r.
  destruct (isWhiteSpace c); [|reflexivity].
  apply andb_true_iff in H1 as [H1 H3]. rewrite H1. cbn [andb].
  destruct a as [|d a]; [reflexivity|exact H3].
Qed.

Lemma singleSpaced_trim (s : Str) :
  singleSpaced s = true -> singleSpaced (trim s) = true.
Proof.
  intros H. unfold trim, trimEnd.
  destruct (trimStart_drops s) as [d1 E1].
  rewrite E1 in H. apply singleSpaced_suffix in H.
  destruct (trimStart_drops (rev (trimStart s))) as [d2 E2].
  apply (f_equal (@rev CodeUnit)) in E2.
  rewrite rev_involutive, rev_app_distr in E2.
  rewrite E2 in H. now apply singleSpaced_prefix in H.
Qed.

Lemma cleanPdfText_no_control (text : Str) :
  Forall (fun c => isControl c = false) (cleanPdfText text).
Proof.
  destruct text as [|c text]; [constructor|]. cbn [cleanPdfText].
  apply trim_Forall. unfold replaceAll at 1.
  apply replaceAllFrom_Forall; [now repeat constructor|].
  apply remove_class. lia.
Qed.

(** A text without a unit of the class is left as it is. *)
Lemma remove_class_fixed (p : CodeUnit -> bool) (s : Str) :
  Forall (fun c => p c = false) s ->
  forall fuel prev, replaceAllFrom fuel (One p) [] prev s = s.
Proof.
  intros Hs [|fuel] prev; [reflexivity|]. cbn [replaceAllFrom].
  pose proof (search_view p (One p) s prev (class_missed p)) as Hv.
  destruct (search (One p) prev s) as [m|]; [|reflexivity].
  exfalso. destruct Hv as (skipped & prev' & Es & _ & _ & Hm).
  apply class_found in Hm as (c & rest & Ec & Hc & _).
  rewrite Es, Ec in Hs. apply Forall_app in Hs as [_ Hs].
  inversion Hs; subst. congruence.
Qed.

(** A text whose runs of whitespace are single spaces is left as it is. *)
Lemma squeeze_fixed :
  forall fuel prev s,
    singleSpaced s = true ->
    replaceAllFrom fuel (Plus (One isWhiteSpace)) [space] prev s = s.
Proof.
  induction fuel as [|fuel IH]; intros prev s Hs; [reflexivity|].
  cbn [replaceAllFrom].
  pose proof (search_view isWhiteSpace (Plus (One isWhiteSpace)) s prev
                (run_missed isWhiteSpace)) as Hv.
  destruct (search (Plus (One isWhiteSpace)) prev s) as [m|]; [|reflexivity].
  destruct Hv as (skipped & prev' & Es & -> & _ & Hm).
  apply run_found in Hm as (c & run & rest & Ec & Hc & Fr & _ & Hres).
  cbn [snd fst] in Hres. subst rest.
  rewrite Es in Hs. apply singleSpaced_suffix in Hs. rewrite Ec in Hs.
  cbn [singleSpaced] in Hs. rewrite Hc in Hs.
  apply andb_true_iff in Hs as [Hs Hrest].
  apply andb_true_iff in Hs as [Hsp Hnext]. apply N.eqb_eq in Hsp. subst c.
  assert (Hrun : run = []).
  { destruct run as [|d run]; [reflexivity|]. exfalso.
    inversion Fr as [|? ? Hd _]; subst. cbn [app] in Hnext.
    rewrite Hd in Hnext. discriminate Hnext. }
  subst run. cbn [app] in Ec, Hrest.
  change (space :: remainder m) with ([space] ++ remainder m) in Ec.
  apply app_inv_tail in Ec. rewrite Ec in *.
  rewrite IH by exact Hrest. symmetry; exact Es.
Qed.

Lemma cleanPdfText_fixed (s : Str) :
  Forall (fun c => isControl c = false) s ->
  singleSpaced s = true ->
  s = [] \/ Tidy s ->
  cleanPdfText s = s.
Proof.
  intros Hc Hs Ht. destruct s as [|c s]; [reflexivity|].
  cbn [cleanPdfText]. unfold replaceAll.
  rewrite (remove_class_fixed isControl Hc).
  rewrite squeeze_fixed by exact Hs.
  destruct Ht as [Ht|Ht]; [discriminate Ht|]. now apply tidy_trim.
Qed.

(** X13: for every text, the result of [cleanPdfText] holds no control
    character of the removed ranges, every run of whitespace in it is one
    single space, and it has no whitespace at either end (or is empty);
    cleaning it a second time changes nothing. *)
Theorem cleanPdfText_clean (text : Str) :
  Forall (fun c => isControl c = false) (cleanPdfText text)
  /\ singleSpaced (cleanPdfText text) = true
  /\ (cleanPdfText text = [] \/ Tidy (cleanPdfText text))
  /\ cleanPdfText (cleanPdfText text) = cleanPdfText text.
Proof.
  assert (H : Forall (fun c => isControl c = false) (cleanPdfText text)
              /\ singleSpaced (cleanPdfText text) = true
              /\ (cleanPdfText text = [] \/ Tidy (cleanPdfText text))).
  { split; [apply cleanPdfText_no_control|].
    destruct text as [|c text]; [split; [reflexivity|now left]|].
    cbn [cleanPdfText]. split; [|apply trim_tidy].
    apply singleSpaced_trim. unfold replaceAll at 1.
    apply squeeze_runs. lia. }
  destruct H as (H1 & H2 & H3). repeat split; try assumption.
  now apply cleanPdfText_fixed.
Qed.

(** X14: [cleanPdfText] only touches whitespace and control characters:
    the code units of the text that are neither are all kept, in their
    order, and the result is empty exactly when the text has none. *)
Theorem cleanPdfText_keeps_printable (text : Str) :
  filter isPrintable (cleanPdfText text) = filter isPrintable text
  /\ (cleanPdfText text = [] <-> filter isPrintable text = []).
Proof.
  assert (Hk : filter isPrintable (cleanPdfText text)
               = filter isPrintable text).
  { destruct text as [|c text]; [reflexivity|]. cbn [cleanPdfText].
    assert (Hws : forall x, isWhiteSpace x = true -> isPrintable x = false).
    { intros x Hx; unfold isPrintable. rewrite Hx. apply andb_false_r. }
    rewrite filter_trim by exact Hws. unfold replaceAll.
    rewrite replaceAllFrom_keeps; [|cbn; auto|reflexivity].
    apply replaceAllFrom_keeps; [|reflexivity].
    cbn. intros x Hx; unfold isPrintable. now rewrite Hx. }
  split; [exact Hk|]. rewrite <- Hk. split; [now intros ->|].
  intros Hnone.
  destruct (cleanPdfText text) as [|c out] eqn:E; [reflexivity|].
  exfalso.
  pose proof (cleanPdfText_no_control text) as Hc. rewrite E in Hc.
  inversion Hc as [|? ? Hc1 _]; subst.
  assert (Ht : Tidy (c :: out)).
  { destruct text as [|c0 text]; [discriminate E|].
    cbn [cleanPdfText] in E. rewrite <- E.
    destruct (trim_tidy (replaceAll (Plus (One isWhiteSpace)) [space]
                           (replaceAll (One isControl) [] (c0 :: text))))
      as [E0|Ht]; [|exact Ht].
    rewrite E0 in E; discriminate E. }
  destruct Ht as [Hclean _]. simpl in Hclean.
  simpl in Hnone. unfold isPrintable at 1 in Hnone.
  rewrite Hc1, Hclean in Hnone. discriminate Hnone.
Qed.

(** ** Organizing the extracted pieces *)

Lemma inked_app (a b : Str) : inked (a ++ b) = inked a ++ inked b.
Proof. apply filter_app. Qed.

Lemma inked_trim (s : Str) : inked (trim s) = inked s.
Proof.
  apply filter_trim. intros c Hc. now rewrite Hc.
Qed.

Lemma flushLine_inked (st : Organize.t) :
  inked (Organize.result (flushLine st))
  ++ inked (Organize.currentLine (flushLine st))
  = inked (Organize.result st) ++ inked (Organize.currentLine st).
Proof.
  unfold flushLine. destruct (0 <? length (Organize.currentLine st));
    [|reflexivity].
  cbn [Organize.result Organize.currentLine].
  rewrite !inked_app, inked_trim. cbn. now rewrite !app_nil_r.
Qed.

Lemma organizePiece_inked (toUpperCase : Str -> Str) (st : Organize.t)
  (piece : Str) :
  inked (Organize.result (organizePiece toUpperCase st piece))
  ++ inked (Organize.currentLine (organizePiece toUpperCase st piece))
  = (inked (Organize.result st) ++ inked (Organize.currentLine st))
    ++ inked piece.
Proof.
  unfold organizePiece.
  destruct (test characterPattern piece).
  { cbn [Organize.result Organize.currentLine].
    rewrite inked_app, <- flushLine_inked.
    unfold flushLine. destruct (0 <? length (Organize.currentLine st)) eqn:E.
    - cbn [Organize.result Organize.currentLine]. cbn [inked filter app].
      now rewrite !app_nil_r.
    - destruct (Organize.currentLine st); [|discriminate E].
      cbn [inked filter app]. now rewrite !app_nil_r. }
  destruct (_ || _).
  { cbn [Organize.result Organize.currentLine].
    rewrite !inked_app, inked_trim, inked_app. cbn.
    now rewrite !app_nil_r, <- !app_assoc. }
  destruct (_ && _).
  { cbn [Organize.result Organize.currentLine].
    rewrite !inked_app, <- flushLine_inked.
    unfold flushLine. destruct (0 <? length (Organize.currentLine st)) eqn:E.
    - cbn [Organize.result Organize.currentLine]. cbn [inked filter app].
      now rewrite !app_nil_r.
    - destruct (Organize.currentLine st); [|discriminate E].
      cbn [inked filter app]. now rewrite !app_nil_r. }
  cbn [Organize.result Organize.currentLine].
  rewrite !inked_app. cbn. now rewrite <- !app_assoc.
Qed.

Lemma organize_fold_inked (toUpperCase : Str -> Str) (textPieces : list Str) :
  forall st,
    inked (Organize.result
             (fold_left (organizePiece toUpperCase) textPieces st))
    ++ inked (Organize.currentLine
                (fold_left (organizePiece toUpperCase) textPieces st))
    = (inked (Organize.result st) ++ inked (Organize.currentLine st))
      ++ flat_map inked textPieces.
Proof.
  induction textPieces as [|piece textPieces IH]; intros st; simpl.
  - now rewrite app_nil_r.
  - rewrite IH, organizePiece_inked. now rewrite <- !app_assoc.
Qed.

(** X15: [organizeExtractedText] changes whitespace only.  For every
    non-empty list of pieces, the code units of the result that are not
    whitespace are exactly those of the pieces, in the order of the pieces:
    none is lost, added or moved. *)
Theorem organizeExtractedText_keeps_text (toUpperCase : Str -> Str)
  (piece : Str) (textPieces : list Str) :
  inked (organizeExtractedText toUpperCase (piece :: textPieces))
  = flat_map inked (piece :: textPieces).
Proof.
  cbn [organizeExtractedText].
  set (st := fold_left (organizePiece toUpperCase) (piece :: textPieces) _).
  rewrite inked_trim. unfold replaceAll, inked at 1.
  rewrite replaceAllFrom_keeps.
  - fold (inked (if 0 <? length (Organize.currentLine st)
                 then Organize.result st ++ trim (Organize.currentLine st)
                 else Organize.result st)).
    pose proof (organize_fold_inked toUpperCase (piece :: textPieces)
                  {| Organize.result := []; Organize.currentLine := [] |})
      as H.
    fold st in H. cbn [Organize.result Organize.currentLine inked filter app]
      in H.
    rewrite <- H.
    destruct (0 <? length (Organize.currentLine st)) eqn:E.
    + now rewrite inked_app, inked_trim.
    + destruct (Organize.currentLine st); [|discriminate E].
      cbn. now rewrite app_nil_r.
  - unfold blankLines. cbn [onlyUnits].
    repeat split; intros c Hc;
      try (apply N.eqb_eq in Hc; subst; reflexivity).
    now rewrite Hc.
  - reflexivity.
Qed.

(** ** The structure estimator *)

Lemma matchAllFrom_In (r : Regex) (x : Str) :
  forall fuel prev s,
    In x (matchAllFrom fuel r prev s) ->
    exists prev' s' m, search r prev' s' = Some m /\ matched m = x.
Proof.
  induction fuel as [|fuel IH]; intros prev s H; cbn [matchAllFrom] in H;
    [contradiction|].
  destruct (search r prev s) as [m|] eqn:E; [|contradiction].
  destruct H as [H|H]; [eauto|].
  destruct (matched m) as [|c cs]; [destruct (remainder m) as [|c s']|].
  - contradiction.
  - now apply IH in H.
  - now apply IH in H.
Qed.

Lemma Set_add_spec (s : list Str) (x y : Str) :
  In y (Set_add s x) <-> In y s \/ y = x.
Proof.
  unfold Set_add. destruct (existsb (eqb_str x) s) eqn:E.
  - apply existsb_eqb_str in E. split; [auto|]. intros [H| ->]; auto.
  - rewrite in_app_iff; simpl. intuition.
Qed.

Lemma Set_add_NoDup (s : list Str) (x : Str) :
  NoDup s -> NoDup (Set_add s x).
Proof.
  intros H; unfold Set_add. destruct (existsb (eqb_str x) s) eqn:E; [exact H|].
  apply NoDup_app; [exact H|repeat constructor; intros []|].
  intros y Hy [<-|[]].
  apply existsb_eqb_str in Hy. congruence.
Qed.

Lemma Set_add_length (s : list Str) (x : Str) :
  length s <= length (Set_add s x) <= S (length s).
Proof.
  unfold Set_add. destruct (existsb (eqb_str x) s); [lia|].
  rewrite length_app; simpl; lia.
Qed.

(** The names collected from a list of matches: distinct, at most one per
    match, at least one if there is a match. *)
Lemma collected_names (f : Str -> Str) (matches : list Str) :
  forall names,
    NoDup names ->
    let collected :=
      fold_left (fun characters m => Set_add characters (f m)) matches names
    in
    NoDup collected
    /\ length collected <= length names + length matches
    /\ (forall x, In x collected <-> In x names \/ In x (map f matches)).
Proof.
  induction matches as [|m matches IH]; intros names Hnd; simpl.
  - split; [exact Hnd|]. split; [lia|]. intros x; tauto.
  - destruct (IH (Set_add names (f m)) (Set_add_NoDup (f m) Hnd))
      as (H1 & H2 & H3).
    split; [exact H1|]. split.
    + pose proof (Set_add_length names (f m)). lia.
    + intros x. rewrite H3, Set_add_spec. intuition.
Qed.

(** What a match of the estimator's pattern looks like. *)
Lemma characterLine_shape (prev : option CodeUnit) (s : Str) (m : Match) :
  search characterLinePattern prev s = Some m ->
  exists c body,
    matched m = c :: body ++ [colon]
    /\ upperAZ c = true
    /\ Forall (fun x => letterOrSpace x = true) body.
Proof.
  intros H.
  apply search_leftmost in H as (skipped & prev' & s0 & _ & H & Em & _).
  unfold characterLinePattern in H.
  rewrite matchAt_Cat, matchAt_Bol in H.
  destruct (atBol true prev'); [|discriminate H].
  rewrite matchAt_Cat in H. cbn [matchAt] in H.
  destruct s0 as [|c s1]; [discriminate H|].
  destruct (upperAZ c) eqn:Ec; [|discriminate H].
  change (matchAt (Cat (Plus (One letterOrSpace)) (One (chr ":")))
            (Some c) s1 [] found
          = Some (lastPrev m, remainder m, groups m)) in H.
  rewrite matchAt_Cat in H.
  apply (@matchAt_trace (fun x => letterOrSpace x = true)) in H
    as (body & p1 & s2 & more & -> & Fb & _ & _ & H); [|cbn; auto].
  cbn [matchAt] in H. destruct s2 as [|d s3]; [discriminate H|].
  destruct (chr ":" d) eqn:Ed; [|discriminate H].
  unfold found in H. injection H as _ Er _.
  apply N.eqb_eq in Ed. cbn in Ed. subst d.
  exists c, body. split; [|auto].
  rewrite Em, <- Er.
  pose proof (firstn_consumed (c :: body ++ [colon]) s3) as Hf.
  cbn [app] in Hf. rewrite <- app_assoc in Hf. exact Hf.
Qed.

(** X16: for every text, the names [detectScriptStructure] reports are
    pairwise distinct and [characterCount] is their number; it never
    exceeds [dialogueLines] and is 0 only when [dialogueLines] is; each
    name begins with an upper-case ASCII letter, consists of ASCII letters
    and whitespace and has no whitespace at either end. *)
Theorem detectScriptStructure_names (extractedText : Str) :
  let structure := detectScriptStructure extractedText in
  NoDup (Structure.characterNames structure)
  /\ Structure.characterCount structure
     = length (Structure.characterNames structure)
  /\ Structure.characterCount structure <= Structure.dialogueLines structure
  /\ (Structure.characterCount structure = 0
      <-> Structure.dialogueLines structure = 0)
  /\ forall name, In name (Structure.characterNames structure) ->
       (exists c t, name = c :: t /\ upperAZ c = true)
       /\ Forall (fun c => letterOrSpace c = true) name
       /\ Tidy name.
Proof.
  unfold detectScriptStructure.
  cbn [Structure.characterNames Structure.characterCount
         Structure.dialogueLines].
  set (matches := matchAll characterLinePattern extractedText).
  destruct (collected_names (fun m => trim (dropLast m)) matches (NoDup_nil _))
    as (Hnd & Hlen & Hin).
  cbv zeta in Hnd, Hlen, Hin. simpl in Hlen.
  set (names := fold_left _ matches []) in *.
  split; [exact Hnd|]. split; [reflexivity|]. split; [exact Hlen|].
  split; [split|].
  - intros H0. destruct matches as [|m0 matches0]; [reflexivity|].
    exfalso. apply length_zero_iff_nil in H0.
    assert (Hm : In (trim (dropLast m0)) names)
      by (apply Hin; right; now left).
    rewrite H0 in Hm; contradiction.
  - intros H0. lia.
  - intros name Hname. apply Hin in Hname as [[]|Hname].
    apply in_map_iff in Hname as (m & <- & Hm).
    apply matchAllFrom_In in Hm as (prev & s & found' & Hs & <-).
    apply characterLine_shape in Hs as (c & body & -> & Hc & Hb).
    unfold dropLast.
    replace (c :: body ++ [colon]) with ((c :: body) ++ [colon])
      by reflexivity.
    rewrite removelast_last.
    destruct (trim_head c body (upperAZ_clean c Hc)) as [t Et].
    assert (Hall : Forall (fun x => letterOrSpace x = true) (c :: body)).
    { constructor; [|exact Hb]. unfold letterOrSpace. now rewrite Hc. }
    split; [rewrite Et; eauto|]. split; [now apply trim_Forall|].
    destruct (trim_tidy (c :: body)) as [E0|Ht]; [|exact Ht].
    rewrite Et in E0; discriminate.
Qed.

(** ** The names shown by the reader *)

Lemma find_by_id (characters : list Character.t) (character : Character.t) :
  NoDup (map Character.id characters) ->
  In character characters ->
  find (fun c => eqb_str (Character.id c) (Character.id character)) characters
  = Some character.
Proof.
  induction characters as [|x l IH]; simpl; [tauto|].
  intros Hnd Hin; inversion Hnd as [|? ? Hx Hl]; subst.
  destruct (eqb_str (Character.id x) (Character.id character)) eqn:E.
  - apply eqb_str_eq in E. destruct Hin as [->|Hin]; [reflexivity|].
    exfalso; apply Hx. rewrite E. now apply in_map.
  - apply eqb_str_neq in E. destruct Hin as [->|Hin]; [contradiction|auto].
Qed.

Lemma find_no_id (characters : list Character.t) (characterId : Str) :
  ~ In characterId (map Character.id characters) ->
  find (fun c => eqb_str (Character.id c) characterId) characters = None.
Proof.
  induction characters as [|x l IH]; simpl; [reflexivity|].
  intros H. destruct (eqb_str (Character.id x) characterId) eqn:E.
  - apply eqb_str_eq in E. exfalso; auto.
  - apply IH. auto.
Qed.

(** X17: whenever [parseScript] returns, the reader's [getCharacterName]
    labels every line of the script correctly: a flagged direction gets
    "Direction", and a speech gets the name of the character of the
    catalog whose id the line carries. *)
Theorem reader_names_lines (rawText : Str) (script : Script.t) :
  parseScript rawText = Returned script ->
  forall line, In line (allLines (Script.scenes script)) ->
    (Line.isDirection line = Some true
     /\ getCharacterName script (Line.characterId line) = lit "Direction")
    \/ (Line.isDirection line = None
        /\ exists character,
             In character (Script.characters script)
             /\ Character.id character = Line.characterId line
             /\ getCharacterName script (Line.characterId line)
                = Character.name character).
Proof.
  intros Hrun.
  destruct (parseScript_catalog rawText Hrun) as [_ Hcat].
  destruct (parseScript_run rawText) as (st0 & HP & Hnil & Hcur & Ht & E).
  destruct (parse_fresh HP Hnil Hcur Ht) as [_ Hret].
  rewrite E in Hrun.
  destruct (forEach parseLine (parsedLines rawText) st0) as [st|] eqn:Er;
    [|discriminate Hrun].
  cbn [bind] in Hrun. injection Hrun as <-.
  destruct (Hret st eq_refl)
    as (directions & speeches & Hsc & _ & _ & Hdir & Hsp & _).
  rewrite Hsc. unfold allLines; cbn [flat_map Scene.lines].
  rewrite app_nil_r. intros line Hin.
  rewrite Forall_forall in Hdir, Hsp. unfold getCharacterName.
  apply in_app_iff in Hin as [Hin|Hin].
  - left. destruct (Hdir line Hin) as [Hd Hc]. split; [exact Hd|].
    rewrite Hc, find_no_id; [reflexivity|].
    rewrite Hcat. intros H. apply in_map_iff in H as (n & En & Hn).
    apply in_seq in Hn. destruct n as [|n]; [lia|].
    now apply toString_not_zero in En.
  - right. destruct (Hsp line Hin) as (Hd & character & Hc & Hid).
    split; [exact Hd|]. exists character.
    split; [exact Hc|]. split; [exact Hid|].
    rewrite <- Hid, find_by_id; [reflexivity| |exact Hc].
    rewrite Hcat. apply NoDup_map_toString, seq_NoDup.
Qed.

(** On the sample, the one line is ROMEO's. *)
Lemma reader_names_lines_witness :
  exists script,
    parseScript titledScene = Returned script
    /\ forall line, In line (allLines (Script.scenes script)) ->
         (Line.isDirection line = Some true
          /\ getCharacterName script (Line.characterId line)
             = lit "Direction")
         \/ (Line.isDirection line = None
             /\ exists character,
                  In character (Script.characters script)
                  /\ Character.id character = Line.characterId line
                  /\ getCharacterName script (Line.characterId line)
                     = Character.name character).
Proof.
  eexists. split; [vm_compute; reflexivity|].
  apply (@reader_names_lines titledScene). vm_compute; reflexivity.
Defined.

(** ** Decoding Base64 *)

Lemma by_threes (P : list N -> Prop) :
  P [] -> (forall a, P [a]) -> (forall a b, P [a; b]) ->
  (forall a b c rest, P rest -> P (a :: b :: c :: rest)) ->
  forall l, P l.
Proof.
  intros H0 H1 H2 H3. fix IH 1.
  intros [|a [|b [|c rest]]];
    [exact H0|apply H1|apply H2|apply H3, IH].
Qed.

Lemma in_byteValues (a : N) : (a < 256)%N -> In a byteValues.
Proof.
  intros H. unfold byteValues. apply in_map_iff. exists (N.to_nat a).
  split; [apply N2Nat.id|]. apply in_seq. lia.
Qed.

(** The sextets of the encoding and what the decoder computes from them,
    checked on all byte values. *)
Lemma sextets_checked :
  forallb
    (fun x =>
       forallb
         (fun y =>
            (sextet1 x <? 64)%N && (sextet2 x y <? 64)%N
            && (sextet3 x y <? 64)%N && (sextet4 x <? 64)%N
            && (fromCharCode
                  (Z.lor (Z.shiftl (Z.of_N (sextet1 x)) 2)
                     (Z.shiftr (Z.of_N (sextet2 x y)) 4)) =? x)%N
            && (Z.land (Z.of_N (sextet2 x y)) 15 =? Z.of_N (N.shiftr y 4))%Z
            && (Z.shiftr (Z.of_N (sextet3 x y)) 2 =? Z.of_N (N.land x 15))%Z
            && (Z.land (Z.of_N (sextet3 x y)) 3 =? Z.of_N (N.shiftr y 6))%Z
            && (fromCharCode
                  (Z.lor (Z.shiftl (Z.of_N (N.shiftr x 4)) 4)
                     (Z.of_N (N.land x 15))) =? x)%N
            && (fromCharCode
                  (Z.lor (Z.shiftl (Z.of_N (N.shiftr x 6)) 6)
                     (Z.of_N (sextet4 x))) =? x)%N)
         byteValues)
    byteValues = true.
Proof. vm_compute. reflexivity. Qed.

Lemma sextets (x y : N) :
  (x < 256)%N -> (y < 256)%N ->
  (sextet1 x < 64)%N /\ (sextet2 x y < 64)%N
  /\ (sextet3 x y < 64)%N /\ (sextet4 x < 64)%N
  /\ fromCharCode
       (Z.lor (Z.shiftl (Z.of_N (sextet1 x)) 2)
          (Z.shiftr (Z.of_N (sextet2 x y)) 4)) = x
  /\ Z.land (Z.of_N (sextet2 x y)) 15 = Z.of_N (N.shiftr y 4)
  /\ Z.shiftr (Z.of_N (sextet3 x y)) 2 = Z.of_N (N.land x 15)
  /\ Z.land (Z.of_N (sextet3 x y)) 3 = Z.of_N (N.shiftr y 6)
  /\ fromCharCode
       (Z.lor (Z.shiftl (Z.of_N (N.shiftr x 4)) 4) (Z.of_N (N.land x 15)))
     = x
  /\ fromCharCode
       (Z.lor (Z.shiftl (Z.of_N (N.shiftr x 6)) 6) (Z.of_N (sextet4 x))) = x.
Proof.
  intros Hx Hy. pose proof sextets_checked as H.
  rewrite forallb_forall in H. specialize (H x (in_byteValues Hx)).
  rewrite forallb_forall in H. specialize (H y (in_byteValues Hy)).
  repeat (apply andb_true_iff in H as [H ?]).
  repeat match goal with
         | E : (_ <? _)%N = true |- _ => apply N.ltb_lt in E
         | E : (_ =? _)%N = true |- _ => apply N.eqb_eq in E
         | E : (_ =? _)%Z = true |- _ => apply Z.eqb_eq in E
         end.
  repeat split; assumption.
Qed.

Lemma base64Char_checked :
  forallb
    (fun k => match indexOf (base64Char k) base64Chars with
              | Some i => i =? N.to_nat k
              | None => false
              end)
    (map N.of_nat (seq 0 64)) = true.
Proof. vm_compute. reflexivity. Qed.

(** The decoder reads a sextet back from its character. *)
Lemma enc_base64Char (k : N) :
  (k < 64)%N ->
  match indexOf (base64Char k) base64Chars with
  | Some i => Z.of_nat i
  | None => (-1)%Z
  end = Z.of_N k.
Proof.
  intros Hk. pose proof base64Char_checked as H.
  rewrite forallb_forall in H.
  assert (Hin : In k (map N.of_nat (seq 0 64))).
  { apply in_map_iff. exists (N.to_nat k). split; [apply N2Nat.id|].
    apply in_seq. lia. }
  specialize (H k Hin).
  destruct (indexOf (base64Char k) base64Chars) as [i|]; [|discriminate H].
  apply Nat.eqb_eq in H. subst i. apply N_nat_Z.
Qed.

Lemma encAt_block (pre : Str) (x1 x2 x3 x4 : CodeUnit) (post : Str) :
  let enc c := match indexOf c base64Chars with
               | Some k => Z.of_nat k
               | None => (-1)%Z
               end in
  encAt (pre ++ x1 :: x2 :: x3 :: x4 :: post) (length pre) = enc x1
  /\ encAt (pre ++ x1 :: x2 :: x3 :: x4 :: post) (length pre + 1) = enc x2
  /\ encAt (pre ++ x1 :: x2 :: x3 :: x4 :: post) (length pre + 2) = enc x3
  /\ encAt (pre ++ x1 :: x2 :: x3 :: x4 :: post) (length pre + 3) = enc x4.
Proof.
  unfold encAt. repeat split.
  - now rewrite nth_error_after.
  - rewrite nth_error_app2 by lia.
    now replace (length pre + 1 - length pre) with 1 by lia.
  - rewrite nth_error_app2 by lia.
    now replace (length pre + 2 - length pre) with 2 by lia.
  - rewrite nth_error_app2 by lia.
    now replace (length pre + 3 - length pre) with 3 by lia.
Qed.

(** One iteration decodes one block of the encoding. *)
Lemma decodeAt_full (pre post output : Str) (a b c : N) :
  (a < 256)%N -> (b < 256)%N -> (c < 256)%N ->
  decodeAt
    (pre ++ base64Char (sextet1 a) :: base64Char (sextet2 a b)
         :: base64Char (sextet3 b c) :: base64Char (sextet4 c) :: post)
    (length pre) output
  = output ++ [a; b; c].
Proof.
  intros Ha Hb Hc. unfold decodeAt.
  destruct (encAt_block pre (base64Char (sextet1 a))
              (base64Char (sextet2 a b)) (base64Char (sextet3 b c))
              (base64Char (sextet4 c)) post) as (-> & -> & -> & ->).
  destruct (sextets Ha Hb) as (A1 & A2 & _ & _ & A5 & A6 & _).
  destruct (sextets Hb Hc) as (_ & _ & B3 & _ & _ & _ & B7 & B8 & B9 & _).
  destruct (sextets Hc Hc) as (_ & _ & _ & C4 & _ & _ & _ & _ & _ & C10).
  rewrite !enc_base64Char by assumption.
  replace (Z.of_N (sextet3 b c) =? 64)%Z with false
    by (symmetry; apply Z.eqb_neq; lia).
  replace (Z.of_N (sextet4 c) =? 64)%Z with false
    by (symmetry; apply Z.eqb_neq; lia).
  rewrite A5, A6, B7, B8, B9, C10. now rewrite <- !app_assoc.
Qed.

Lemma decodeAt_two (pre output : Str) (a b : N) :
  (a < 256)%N -> (b < 256)%N ->
  decodeAt
    (pre ++ [ base64Char (sextet1 a); base64Char (sextet2 a b);
              base64Char (sextet3 b 0); padding ])
    (length pre) output
  = output ++ [a; b].
Proof.
  intros Ha Hb. unfold decodeAt.
  destruct (encAt_block pre (base64Char (sextet1 a))
              (base64Char (sextet2 a b)) (base64Char (sextet3 b 0))
              padding []) as (-> & -> & -> & ->).
  destruct (sextets Ha Hb) as (A1 & A2 & _ & _ & A5 & A6 & _).
  assert (H0 : (0 < 256)%N) by reflexivity.
  destruct (sextets Hb H0) as (_ & _ & B3 & _ & _ & _ & B7 & _ & B9 & _).
  rewrite !enc_base64Char by assumption.
  replace (Z.of_N (sextet3 b 0) =? 64)%Z with false
    by (symmetry; apply Z.eqb_neq; lia).
  change (match indexOf padding base64Chars with
          | Some k => Z.of_nat k
          | None => (-1)%Z
          end) with 64%Z.
  cbn [Z.eqb Pos.eqb]. rewrite A5, A6, B7, B9. now rewrite <- !app_assoc.
Qed.

Lemma decodeAt_one (pre output : Str) (a : N) :
  (a < 256)%N ->
  decodeAt
    (pre ++ [ base64Char (sextet1 a); base64Char (sextet2 a 0);
              padding; padding ])
    (length pre) output
  = output ++ [a].
Proof.
  intros Ha. unfold decodeAt.
  destruct (encAt_block pre (base64Char (sextet1 a))
              (base64Char (sextet2 a 0)) padding padding [])
    as (-> & -> & -> & ->).
  assert (H0 : (0 < 256)%N) by reflexivity.
  destruct (sextets Ha H0) as (A1 & A2 & _ & _ & A5 & _).
  rewrite !enc_base64Char by assumption.
  change (match indexOf padding base64Chars with
          | Some k => Z.of_nat k
          | None => (-1)%Z
          end) with 64%Z.
  cbn [Z.eqb Pos.eqb]. now rewrite A5.
Qed.

Lemma base64Encode_length (bytes : list N) :
  length bytes <= length (base64Encode bytes)
  /\ (bytes <> [] -> 4 <= length (base64Encode bytes)).
Proof.
  induction bytes as [|a|a b|a b c rest [IH _]] using by_threes; simpl;
    split; try lia; congruence.
Qed.

Lemma atobLoop_decodes (bytes : list N) :
  Forall (fun b => (b < 256)%N) bytes -> bytes <> [] ->
  forall fuel pre output,
    length bytes <= S fuel ->
    atobLoop fuel (pre ++ base64Encode bytes) (length pre) output
    = output ++ bytes.
Proof.
  induction bytes as [|a|a b|a b c rest IH] using by_threes;
    intros Hb Hne fuel pre output Hf.
  - contradiction.
  - inversion Hb; subst. cbn [base64Encode].
    destruct fuel; cbn [atobLoop]; rewrite decodeAt_one by assumption;
      [reflexivity|].
    rewrite length_app; cbn [length].
    now replace (length pre + 4 <? length pre + 4) with false
      by (symmetry; apply Nat.ltb_ge; lia).
  - inversion Hb as [|? ? Ha Hb']; subst. inversion Hb'; subst.
    cbn [base64Encode].
    destruct fuel; cbn [atobLoop]; rewrite decodeAt_two by assumption;
      [reflexivity|].
    rewrite length_app; cbn [length].
    now replace (length pre + 4 <? length pre + 4) with false
      by (symmetry; apply Nat.ltb_ge; lia).
  - inversion Hb as [|? ? Ha Hb1]; subst.
    inversion Hb1 as [|? ? Hb2 Hb3]; subst.
    inversion Hb3 as [|? ? Hc Hrest]; subst.
    cbn [base64Encode].
    destruct fuel as [|fuel]; cbn [atobLoop];
      rewrite decodeAt_full by assumption.
    + simpl in Hf. destruct rest; [reflexivity|simpl in Hf; lia].
    + rewrite length_app; cbn [length].
      destruct rest as [|r rest].
      * cbn [base64Encode length].
        now replace (length pre + 4 <? length pre + 4) with false
          by (symmetry; apply Nat.ltb_ge; lia).
      * assert (Hr : r :: rest <> []) by discriminate.
        destruct (base64Encode_length (r :: rest)) as [_ Hl].
        specialize (Hl Hr).
        replace (length pre + 4
                 <? length pre + S (S (S (S (length (base64Encode
                                                      (r :: rest)))))))
          with true by (symmetry; apply Nat.ltb_lt; lia).
        specialize (IH Hrest Hr fuel
                      (pre ++ [ base64Char (sextet1 a);
                                base64Char (sextet2 a b);
                                base64Char (sextet3 b c);
                                base64Char (sextet4 c) ])
                      (output ++ [a; b; c])).
        rewrite length_app in IH. cbn [length] in IH.
        rewrite <- app_assoc in IH. cbn [app] in IH.
        rewrite IH by (simpl in Hf |- *; lia).
        now rewrite <- app_assoc.
Qed.

(** X18: [atobPolyfill] decodes standard padded Base64: for every non-empty
    sequence of bytes, decoding its Base64 encoding (RFC 4648) gives the
    bytes back.  The empty string is the exception: the loop body runs once
    before its test, so it decodes to three NUL characters, not to the
    empty string. *)
Theorem atobPolyfill_decodes (bytes : list N) :
  Forall (fun b => (b < 256)%N) bytes ->
  atobPolyfill (base64Encode bytes)
  = match bytes with
    | [] => [0; 0; 0]%N
    | _ :: _ => bytes
    end.
Proof.
  intros Hb. destruct bytes as [|b bytes]; [reflexivity|].
  unfold atobPolyfill.
  apply (@atobLoop_decodes (b :: bytes) Hb) with (pre := []) (output := []);
    [discriminate|].
  pose proof (base64Encode_length (b :: bytes)) as [H _]. lia.
Qed.

(** "Man" is encoded as "TWFu" and decoded back. *)
Lemma atobPolyfill_decodes_witness :
  Forall (fun b => (b < 256)%N) (lit "Man")
  /\ atobPolyfill (base64Encode (lit "Man")) = lit "Man".
Proof.
  assert (H : Forall (fun b => (b < 256)%N) (lit "Man"))
    by (repeat constructor).
  split; [exact H|]. exact (atobPolyfill_decodes H).
Defined.

(** ** No text is lost *)

Section Texts.

Variable toUpperCase : Str -> Str.
Variable characterMap : JsMap Character.t.

Lemma allText_push (before : list Scene.t) (scene : Scene.t) (l : Line.t) :
  allText (before ++ [Scene.push l scene])
  = allText (before ++ [scene]) ++ Line.text l.
Proof.
  unfold allText. rewrite allLines_push, map_app, concat_app. simpl.
  now rewrite app_nil_r.
Qed.

(** No name followed by a colon starts the empty line. *)
Lemma findSpeaker_nil : findSpeaker characterMap [] = None.
Proof.
  unfold findSpeaker.
  replace (find (fun name => startsWith (name ++ [colon]) [])
             (Map_keys characterMap)) with (@None Str); [reflexivity|].
  symmetry. induction (Map_keys characterMap) as [|name names IH];
    [reflexivity|].
  cbn [find]. now destruct name.
Qed.

(** One iteration adds to the texts what it keeps of its line, and nothing
    else but whitespace. *)
Lemma segmentLine_text (st : Walk.t) (raw : Str) :
  Walk.scenes st <> [] ->
  exists st',
    segmentLine toUpperCase characterMap st raw = Returned st'
    /\ Walk.scenes st' <> []
    /\ inked (allText (Walk.scenes st'))
       = inked (allText (Walk.scenes st))
         ++ inked (spokenPart characterMap (trim raw)).
Proof.
  intros Hne. unfold spokenPart.
  destruct (test sceneMarker (trim raw)) eqn:Hm.
  { rewrite (marker_step toUpperCase characterMap st raw Hm).
    eexists; split; [reflexivity|]. cbn [Walk.scenes].
    split; [now destruct (Walk.scenes st)|].
    unfold allText. rewrite allLines_snoc. cbn [Scene.lines].
    now rewrite !app_nil_r. }
  destruct (snoc_of_nonempty Hne) as (before & scene & E).
  unfold segmentLine. rewrite Hm.
  assert (Hemit : forall current characterId text direction,
             exists st',
               emit st current characterId text direction = Returned st'
               /\ Walk.scenes st' <> []
               /\ inked (allText (Walk.scenes st'))
                  = inked (allText (Walk.scenes st)) ++ inked text).
  { intros. erewrite emit_returns by exact E.
    eexists; split; [reflexivity|]. cbn [Walk.scenes].
    split; [now destruct before|].
    now rewrite allText_push, inked_app, E. }
  assert (Hstage : exists st',
             stageDirection st (trim raw) = Returned st'
             /\ Walk.scenes st' <> []
             /\ inked (allText (Walk.scenes st'))
                = inked (allText (Walk.scenes st)) ++ inked (trim raw)).
  { unfold stageDirection.
    destruct (trim raw) as [|c line]; [|apply Hemit].
    exists st. cbn. now rewrite app_nil_r. }
  destruct (length (trim raw) =? 0) eqn:E0.
  { exists st. apply Nat.eqb_eq, length_zero_iff_nil in E0.
    rewrite E0, findSpeaker_nil. cbn. now rewrite app_nil_r. }
  destruct (findSpeaker characterMap (trim raw)) as [[name character]|].
  - destruct (trim (substring (length name + 1) (trim raw))) as [|d rest];
      [|apply Hemit].
    eexists; split; [reflexivity|]. cbn [Walk.scenes inked filter].
    split; [exact Hne|now rewrite app_nil_r].
  - destruct (Walk.currentCharacterId st) as [[|c cs]|]; try exact Hstage.
    destruct ((0 <? length (trim raw)) && negb (isSceneDirection (trim raw)));
      [|exact Hstage].
    replace (lastOf (Walk.scenes st)) with (Some scene)
      by (rewrite E; symmetry; apply lastOf_app).
    cbn [defined bind].
    destruct (0 <? length (Scene.lines scene)) eqn:Hl;
      [|destruct (looksLikeDialogue toUpperCase (trim raw)); apply Hemit].
    apply length_pos_nonempty in Hl.
    destruct (snoc_of_nonempty Hl) as (earlier & previousLine & Hs).
    rewrite Hs, lastOf_app. cbn [defined bind].
    destruct (eqb_str (Line.characterId previousLine) (c :: cs));
      [|destruct (looksLikeDialogue toUpperCase (trim raw)); apply Hemit].
    eexists; split; [reflexivity|]. cbn [Walk.scenes].
    rewrite E, updateLast_app. split; [now destruct before|].
    unfold Scene.updateLastLine, allText. rewrite !allLines_snoc.
    cbn [Scene.lines]. rewrite Hs, updateLast_app.
    rewrite !map_app, !concat_app. cbn [map concat Line.appendText Line.text].
    rewrite !app_nil_r, !inked_app. cbn [inked filter].
    replace (isWhiteSpace space) with true by reflexivity. cbn [negb].
    now rewrite <- !app_assoc.
Qed.

Lemma walk_text (lines : list Str) :
  forall st,
    Walk.scenes st <> [] ->
    exists st',
      forEach (segmentLine toUpperCase characterMap) lines st = Returned st'
      /\ inked (allText (Walk.scenes st'))
         = inked (allText (Walk.scenes st))
           ++ inked (flat_map (fun raw => spokenPart characterMap (trim raw))
                       lines).
Proof.
  induction lines as [|raw lines IH]; intros st Hne; simpl.
  - exists st. now rewrite app_nil_r.
  - destruct (segmentLine_text st raw Hne) as (st1 & E1 & Hne1 & T1).
    rewrite E1; cbn [bind].
    destruct (IH st1 Hne1) as (st' & E' & T').
    exists st'; split; [exact E'|].
    now rewrite T', T1, inked_app, <- app_assoc.
Qed.

End Texts.

Section Content.

Variable toUpperCase : Str -> Str.

(** X20: [analyzeScriptText] loses no text.  For every input, the texts of
    the lines of the returned script, read in document order, hold exactly
    the non-whitespace code units of what the second pass keeps of each
    input line: the text after the colon of a line that starts with a
    cataloged name and a colon, nothing of a scene marker line (which
    becomes a scene name), and the whole of every other line. *)
Theorem analyzeScriptText_keeps_text (rawText : Str) :
  exists script,
    analyzeScriptText toUpperCase rawText = Returned script
    /\ inked (allText (Script.scenes script))
       = inked (flat_map
                  (fun raw =>
                     spokenPart (characterMapOf toUpperCase rawText)
                       (trim raw))
                  (split_nl rawText)).
Proof.
  destruct (analyzeScriptText_script toUpperCase rawText)
    as (st & title & _ & _ & Ew & E).
  eexists; split; [exact E|]. cbn [Script.scenes].
  destruct (walk_text toUpperCase (characterMapOf toUpperCase rawText)
              (split_nl rawText) initialWalk) as (st' & Ew' & Ht);
    [discriminate|].
  rewrite Ew in Ew'; injection Ew' as <-. exact Ht.
Qed.

End Content.

(** ** What [parseScript] keeps of the text *)

(** One iteration of the loop of [parseScript] that returns adds to the
    texts what it keeps of its line, and nothing else but whitespace. *)
Lemma parseLine_text (st st' : Parse.t) (textLine : Str) (scene : Scene.t) :
  Script.scenes (Parse.script st) = [scene] ->
  parseLine st textLine = Returned st' ->
  exists scene',
    Script.scenes (Parse.script st') = [scene']
    /\ inked (concat (map Line.text (Scene.lines scene')))
       = inked (concat (map Line.text (Scene.lines scene)))
         ++ inked (cueContent textLine).
Proof.
  intros Hsc. unfold parseLine, cueContent, isCue, cueName.
  destruct (exec cuePattern textLine) as [characterMatch|].
  - destruct (group 1 (groups characterMatch)) as [captured|];
      [|discriminate]. cbn [defined bind option_map].
    change (trim (substring _ textLine)) with (cueText textLine).
    match goal with
    | |- context [if negb ?c then ?a else ?b] =>
        assert (Hst1 : Script.scenes (Parse.script (if negb c then a else b))
                       = [scene]) by (now destruct c);
        generalize dependent (if negb c then a else b)
    end.
    intros st1 Hst1.
    destruct (cueText textLine) as [|d rest];
      cbn [length Nat.ltb Nat.leb].
    + intros H; injection H as <-. exists scene. split; [exact Hst1|].
      now rewrite app_nil_r.
    + destruct (Map_get (Parse.characterMap st1) (trim captured));
        [|discriminate]. cbn [defined bind].
      unfold pushFirstScene, firstSceneLines. rewrite Hst1.
      cbn [nth_error defined bind].
      intros H; injection H as <-.
      cbn [Parse.script updateFirstScene Script.scenes]. rewrite Hst1.
      eexists; split; [reflexivity|].
      cbn [Scene.push Scene.lines]. rewrite map_app, concat_app, inked_app.
      cbn [map concat Line.text]. now rewrite app_nil_r.
  - destruct (truthy (Parse.currentCharacter st) && (0 <? length textLine)).
    + unfold firstSceneLines. rewrite Hsc. cbn [nth_error defined bind].
      destruct (Scene.lines scene) as [|l0 lines0] eqn:El; [discriminate|].
      assert (Hne : l0 :: lines0 <> []) by discriminate.
      destruct (snoc_of_nonempty Hne) as (front & previousLine & Es).
      rewrite Es, lastOf_app. cbn [defined bind].
      intros H; injection H as <-.
      cbn [Parse.script updateFirstScene Script.scenes]. rewrite Hsc.
      eexists; split; [reflexivity|].
      unfold Scene.updateLastLine; cbn [Scene.lines].
      rewrite El, Es, updateLast_app, !map_app, !concat_app.
      cbn [map concat Line.appendText Line.text].
      rewrite !app_nil_r, !inked_app. cbn [inked filter].
      replace (isWhiteSpace space) with true by reflexivity. cbn [negb].
      now rewrite <- !app_assoc.
    + destruct textLine as [|c line]; cbn [length Nat.ltb Nat.leb].
      * intros H; injection H as <-. exists scene. split; [exact Hsc|].
        now rewrite app_nil_r.
      * unfold pushFirstScene, firstSceneLines. rewrite Hsc.
        cbn [nth_error defined bind].
        intros H; injection H as <-.
        cbn [Parse.script updateFirstScene Script.scenes]. rewrite Hsc.
        eexists; split; [reflexivity|].
        cbn [Scene.push Scene.lines]. rewrite map_app, concat_app, inked_app.
        cbn [map concat Line.text]. now rewrite app_nil_r.
Qed.

Lemma parse_text (textLines : list Str) :
  forall st st' scene,
    Script.scenes (Parse.script st) = [scene] ->
    forEach parseLine textLines st = Returned st' ->
    exists scene',
      Script.scenes (Parse.script st') = [scene']
      /\ inked (concat (map Line.text (Scene.lines scene')))
         = inked (concat (map Line.text (Scene.lines scene)))
           ++ inked (flat_map cueContent textLines).
Proof.
  induction textLines as [|textLine textLines IH]; intros st st' scene Hsc;
    simpl.
  - intros H; injection H as <-. exists scene. now rewrite app_nil_r.
  - destruct (parseLine st textLine) as [st1|] eqn:E1; [|discriminate].
    cbn [bind]. intros Hrun.
    destruct (parseLine_text st textLine Hsc E1) as (scene1 & Hsc1 & T1).
    destruct (IH st1 st' scene1 Hsc1 Hrun) as (scene' & Hsc' & T').
    exists scene'. split; [exact Hsc'|].
    now rewrite T', T1, inked_app, <- app_assoc.
Qed.

(** X21: [parseScript] loses no text.  Whenever it returns, the texts of
    the lines of the script, read in order, hold exactly the non-whitespace
    code units of what it keeps of each walked line (trimmed, non-empty,
    without the title line): the text after the first colon of a cue line
    and the whole of every other line. *)
Theorem parseScript_keeps_text (rawText : Str) (script : Script.t) :
  parseScript rawText = Returned script ->
  inked (allText (Script.scenes script))
  = inked (flat_map cueContent (parsedLines rawText)).
Proof.
  intros Hrun.
  destruct (parseScript_run rawText)
    as (st0 & (directions & speeches & Hsc & _) & Hnil & _ & _ & E).
  rewrite E in Hrun.
  destruct (forEach parseLine (parsedLines rawText) st0) as [st|] eqn:Er;
    [|discriminate Hrun].
  cbn [bind] in Hrun. injection Hrun as <-.
  destruct (parse_text _ _ Hsc Er) as (scene' & Hsc' & T).
  rewrite Hsc in Hnil. unfold allLines in Hnil.
  cbn [flat_map Scene.lines] in Hnil. rewrite app_nil_r in Hnil.
  cbn [Scene.lines] in T. rewrite Hnil in T. cbn [map concat inked filter app] in T.
  unfold allText, allLines. rewrite Hsc'. cbn [flat_map].
  rewrite app_nil_r. exact T.
Qed.

(** On the sample the two cue prefixes go and every other code unit that
    is not whitespace stays, GIULIETTA's speech included. *)
Lemma parseScript_keeps_text_witness :
  exists script,
    parseScript titledScene = Returned script
    /\ inked (allText (Script.scenes script))
       = inked (flat_map cueContent (parsedLines titledScene)).
Proof.
  eexists. split; [vm_compute; reflexivity|].
  apply (@parseScript_keeps_text titledScene). vm_compute; reflexivity.
Defined.

(** ** Data URLs *)

Lemma matchAt_hit (p : CodeUnit -> bool) (prev : option CodeUnit)
  (c : CodeUnit) (s : Str) (caps : Caps)
  (k : option CodeUnit -> Str -> Caps -> option Found) :
  p c = true -> matchAt (One p) prev (c :: s) caps k = k (Some c) s caps.
Proof. intros H. cbn [matchAt]. now rewrite H. Qed.

Lemma matchAt_unit (p : CodeUnit -> bool) (prev : option CodeUnit) (s : Str)
  (caps : Caps) (k : option CodeUnit -> Str -> Caps -> option Found) :
  matchAt (One p) prev s caps k
  = match s with
    | c :: s' => if p c then k (Some c) s' caps else None
    | [] => None
    end.
Proof. reflexivity. Qed.

Lemma matchAt_Empty (prev : option CodeUnit) (s : Str) (caps : Caps)
  (k : option CodeUnit -> Str -> Caps -> option Found) :
  matchAt Empty prev s caps k = k prev s caps.
Proof. reflexivity. Qed.

(** One step of matching a literal unit of a pattern against the same unit
    of the text. *)
Ltac literally :=
  first [ rewrite matchAt_hit by reflexivity
        | rewrite matchAt_Cat
        | rewrite matchAt_Empty ];
  cbv beta.

(** A starred class before a unit outside the class: when the rest of the
    pattern matches after the longest run, that is the match. *)
Lemma star_class_then (p : CodeUnit -> bool) (rest : Str) (caps : Caps)
  (k : option CodeUnit -> Str -> Caps -> option Found) (res : Found) :
  match rest with
  | c :: _ => p c = false
  | [] => True
  end ->
  forall run prev,
    Forall (fun c => p c = true) run ->
    k (fold_left (fun _ c => Some c) run prev) rest caps = Some res ->
    matchAt (Star (One p)) prev (run ++ rest) caps k = Some res.
Proof.
  intros Hrest run prev. cbn [matchAt].
  generalize (Nat.le_refl (length (run ++ rest))).
  generalize (length (run ++ rest)) at 2 3.
  intros fuel; revert run prev.
  induction fuel as [|fuel IH]; intros run prev Hf Hrun Hk.
  - destruct run as [|c run]; [exact Hk|simpl in Hf; lia].
  - destruct run as [|c run]; cbn [app fold_left] in *.
    + destruct rest as [|c rest']; [exact Hk|]. now rewrite Hrest.
    + inversion Hrun as [|? ? Hc Hrun']; subst. rewrite Hc.
      replace (length (run ++ rest) <? length (c :: run ++ rest)) with true
        by (symmetry; apply Nat.ltb_lt; simpl; lia).
      rewrite (IH run (Some c)); [reflexivity| |exact Hrun'|exact Hk].
      simpl in Hf; lia.
Qed.

Lemma search_here (r : Regex) (prev : option CodeUnit) (s : Str)
  (res : Found) :
  matchAt r prev s [] found = Some res ->
  search r prev s
  = Some {| matched := firstn (length s - length (snd (fst res))) s;
            groups := snd res;
            lastPrev := fst (fst res);
            remainder := snd (fst res) |}.
Proof.
  intros H. destruct res as [[p s'] caps].
  destruct s; cbn [search]; fold found; now rewrite H.
Qed.

(** A pattern anchored at the start of the text matches nowhere else. *)
Lemma search_anchored (r : Regex) (s : Str) :
  forall c, search (Cat (Bol false) r) (Some c) s = None.
Proof.
  induction s as [|x s IH]; intros c; cbn [search]; rewrite matchAt_Cat;
    cbn [matchAt atBol andb]; [reflexivity|apply IH].
Qed.

Lemma exec_anchored (r : Regex) (s : Str) :
  matchAt (Cat (Bol false) r) None s [] found = None ->
  exec (Cat (Bol false) r) s = None.
Proof.
  intros H. unfold exec. destruct s as [|c s]; cbn [search]; fold found;
    rewrite H; [reflexivity|apply search_anchored].
Qed.

(** The prefix of a data URL is matched, whatever follows it. *)
Lemma dataUrlPrefix_found (mime rest : Str) :
  mime <> [] ->
  Forall (fun c => c <> N_of_ascii ";") mime ->
  replaceFirst dataUrlPrefix []
    (lit "data:" ++ mime ++ lit ";base64," ++ rest) = rest.
Proof.
  intros Hne Hmime. destruct mime as [|c run]; [now contradiction Hne|].
  inversion Hmime as [|? ? Hc Hrun]; subst.
  assert (Hclass : forall x, x <> N_of_ascii ";" ->
                     negb (chr ";" x) = true).
  { intros x Hx. unfold chr. apply negb_true_iff, N.eqb_neq.
    intros E; now apply Hx. }
  assert (Hm : matchAt dataUrlPrefix None
                 (lit "data:" ++ (c :: run) ++ lit ";base64," ++ rest)
                 [] found
               = Some (Some (N_of_ascii ","), rest, [])).
  { unfold dataUrlPrefix, Plus.
    change (lit "data:") with [100; 97; 116; 97; 58]%N.
    change (lit ";base64,") with [59; 98; 97; 115; 101; 54; 52; 44]%N.
    cbn [app word]. rewrite matchAt_Cat, matchAt_Bol. cbn [atBol].
    repeat literally.
    rewrite matchAt_hit by now apply Hclass.
    apply star_class_then; [reflexivity| |].
    - eapply Forall_impl; [|exact Hrun]. intros x Hx. now apply Hclass.
    - repeat literally. reflexivity. }
  unfold replaceFirst, exec. rewrite (search_here _ _ _ Hm).
  cbn [matched remainder fst snd].
  set (s := lit "data:" ++ (c :: run) ++ lit ";base64," ++ rest).
  assert (Hs : length rest <= length s).
  { unfold s. rewrite !length_app. lia. }
  rewrite length_firstn.
  replace (length s - Nat.min (length s - length rest) (length s)
           - length rest) with 0 by lia.
  reflexivity.
Qed.

(** A text without a colon has no such prefix. *)
Lemma dataUrlPrefix_absent (s : Str) :
  Forall (fun c => c <> colon) s -> replaceFirst dataUrlPrefix [] s = s.
Proof.
  intros Hs. unfold replaceFirst.
  replace (exec dataUrlPrefix s) with (@None Match); [reflexivity|].
  symmetry. apply exec_anchored.
  rewrite matchAt_Cat, matchAt_Bol. cbn [atBol word].
  do 5 (rewrite ?matchAt_Cat, matchAt_unit;
        (destruct s as [|? s]; [reflexivity|]);
        match goal with
        | |- (if ?b then _ else _) = _ => destruct b eqn:?; [|reflexivity]
        end;
        match type of Hs with
        | Forall _ (_ :: _) =>
            let Hx := fresh "Hx" in
            let Hs' := fresh "Hs" in
            inversion Hs as [|? ? Hx Hs']; subst; clear Hs; rename Hs' into Hs
        end).
  match goal with
  | E : chr ":" ?x = true |- _ => apply N.eqb_eq in E; subst x
  end.
  match goal with
  | H : N_of_ascii ":" <> colon |- _ => now contradiction H
  end.
Qed.

Lemma base64Chars_no_colon :
  forallb (fun c => negb (c =? colon)%N) (0%N :: base64Chars) = true.
Proof. vm_compute. reflexivity. Qed.

Lemma base64Char_no_colon (k : N) : base64Char k <> colon.
Proof.
  pose proof base64Chars_no_colon as H. rewrite forallb_forall in H.
  assert (Hin : In (base64Char k) (0%N :: base64Chars)).
  { unfold base64Char.
    destruct (nth_in_or_default (N.to_nat k) base64Chars 0%N) as [Hi| ->];
      [now right|now left]. }
  apply H in Hin. apply negb_true_iff, N.eqb_neq in Hin. exact Hin.
Qed.

Lemma base64Encode_no_colon (bytes : list N) :
  Forall (fun c => c <> colon) (base64Encode bytes).
Proof.
  induction bytes as [| |a b|a b c rest IH] using by_threes;
    cbn [base64Encode]; repeat constructor;
    try apply base64Char_no_colon; try discriminate.
  exact IH.
Qed.

Lemma atobPolyfill_encoded (bytes : list N) :
  Forall (fun b => (b < 256)%N) bytes -> bytes <> [] ->
  atobPolyfill (base64Encode bytes) = bytes.
Proof.
  intros Hb Hne. unfold atobPolyfill.
  apply (@atobLoop_decodes bytes Hb Hne) with (pre := []) (output := []).
  pose proof (base64Encode_length bytes) as [H _]. lia.
Qed.

(** X22: [base64ToArrayBuffer] gives back the bytes of a file from their
    Base64 text, with or without a data URL prefix.  For every non-empty
    sequence of bytes and every media type that is not empty and holds no
    semicolon, the buffer made from "data:<type>;base64," followed by the
    Base64 encoding of the bytes, and the buffer made from the encoding
    alone, both hold exactly the bytes. *)
Theorem base64ToArrayBuffer_strips_prefix (mime : Str) (bytes : list N) :
  bytes <> [] ->
  Forall (fun b => (b < 256)%N) bytes ->
  mime <> [] ->
  Forall (fun c => c <> N_of_ascii ";") mime ->
  base64ToArrayBuffer
    (lit "data:" ++ mime ++ lit ";base64," ++ base64Encode bytes) = bytes
  /\ base64ToArrayBuffer (base64Encode bytes) = bytes.
Proof.
  intros Hne Hbytes Hmime Hsemi.
  assert (Hdec : map (fun c => (c mod 256)%N)
                   (atobPolyfill (base64Encode bytes)) = bytes).
  { rewrite (atobPolyfill_encoded Hbytes Hne). clear Hne.
    induction Hbytes as [|x l Hx _ IH]; [reflexivity|].
    cbn [map]. rewrite N.mod_small by exact Hx. now rewrite IH. }
  unfold base64ToArrayBuffer. split.
  - now rewrite dataUrlPrefix_found.
  - now rewrite dataUrlPrefix_absent by apply base64Encode_no_colon.
Qed.

(** The three bytes of "abc" behind the prefix of a PDF data URL. *)
Lemma base64ToArrayBuffer_strips_prefix_witness :
  base64ToArrayBuffer
    (lit "data:" ++ lit "application/pdf" ++ lit ";base64,"
     ++ base64Encode [97; 98; 99]%N) = [97; 98; 99]%N
  /\ base64ToArrayBuffer (base64Encode [97; 98; 99]%N) = [97; 98; 99]%N.
Proof.
  apply (@base64ToArrayBuffer_strips_prefix (lit "application/pdf")
           [97; 98; 99]%N).
  - discriminate.
  - repeat constructor.
  - discriminate.
  - vm_compute. repeat constructor; discriminate.
Defined.

(** ** The lines after a scene marker *)

Section AfterMarker.

Variable toUpperCase : Str -> Str.
Variable characterMap : JsMap Character.t.





End AfterMarker.


(** ** Backtracking out of a starred class *)

Lemma matchAt_Star (r1 : Regex) (prev : option CodeUnit) (s : Str)
  (caps : Caps) (k : option CodeUnit -> Str -> Caps -> option Found) :
  matchAt (Star r1) prev s caps k = starLoop r1 k (length s) prev s caps.
Proof. reflexivity. Qed.

(** A starred class fails when the rest of the pattern fails after every
    run of the class. *)
Lemma starLoop_fails (p : CodeUnit -> bool) (caps : Caps)
  (k : option CodeUnit -> Str -> Caps -> option Found) (fuel : nat) :
  forall s prev,
    (forall pre post prev',
       s = pre ++ post -> Forall (fun c => p c = true) pre ->
       k prev' post caps = None) ->
    starLoop (One p) k fuel prev s caps = None.
Proof.
  induction fuel as [|fuel IH]; intros s prev H; cbn [starLoop].
  - apply (H [] s prev); [reflexivity|constructor].
  - assert (Hk : k prev s caps = None)
      by (apply (H [] s prev); [reflexivity|constructor]).
    rewrite matchAt_unit.
    destruct s as [|c s']; [exact Hk|].
    destruct (p c) eqn:Ec; [|exact Hk].
    destruct (length s' <? length (c :: s')); [|exact Hk].
    rewrite IH; [exact Hk|].
    intros pre post prev' E F. apply (H (c :: pre) post prev').
    + now rewrite E.
    + now constructor.
Qed.

(** A starred class gives back what it took, unit by unit, until the rest
    of the pattern matches. *)
Lemma star_backtrack (p : CodeUnit -> bool) (caps : Caps)
  (k : option CodeUnit -> Str -> Caps -> option Found) (res : Found)
  (rest : Str) :
  (forall pre post prev',
     rest = pre ++ post -> pre <> [] -> Forall (fun c => p c = true) pre ->
     k prev' post caps = None) ->
  forall run prev,
    Forall (fun c => p c = true) run ->
    k (fold_left (fun _ c => Some c) run prev) rest caps = Some res ->
    matchAt (Star (One p)) prev (run ++ rest) caps k = Some res.
Proof.
  intros Hlater run prev Hrun Hk. rewrite matchAt_Star.
  generalize (Nat.le_refl (length (run ++ rest))).
  generalize (length (run ++ rest)) at 2 3.
  intros fuel; revert run prev Hrun Hk.
  induction fuel as [|fuel IH]; intros run prev Hrun Hk Hf.
  - destruct run as [|c run]; [exact Hk|simpl in Hf; lia].
  - destruct run as [|c run]; cbn [app fold_left starLoop] in *;
      rewrite matchAt_unit.
    + destruct rest as [|c post]; [exact Hk|].
      destruct (p c) eqn:Ec; [|exact Hk].
      destruct (length post <? length (c :: post)); [|exact Hk].
      rewrite starLoop_fails; [exact Hk|].
      intros pre post' prev' E F.
      apply (Hlater (c :: pre) post' prev');
        [now rewrite E|discriminate|now constructor].
    + inversion Hrun as [|? ? Hc Hrun']; subst. rewrite Hc.
      replace (length (run ++ rest) <? length (c :: run ++ rest)) with true
        by (symmetry; apply Nat.ltb_lt; simpl; lia).
      rewrite (IH run (Some c)); [reflexivity|exact Hrun'|exact Hk|].
      simpl in Hf; lia.
Qed.

(** ** The file name at the end of a text *)

Lemma app_same_length (A : Type) (a a' b b' : list A) :
  a ++ b = a' ++ b' -> length b = length b' -> a = a' /\ b = b'.
Proof.
  revert a'. induction a as [|x a IH]; intros [|x' a'] E L; simpl in *.
  - now split.
  - subst b. simpl in L. rewrite length_app in L. lia.
  - subst b'. simpl in L. rewrite length_app in L. lia.
  - injection E as <- E. destruct (IH a' E L) as [-> ->]. now split.
Qed.

Lemma upperUnit_cases (c : CodeUnit) (u : CodeUnit) :
  upperUnit c = u -> c = u \/ (c = u + 32 /\ 65 <= u <= 90)%N.
Proof.
  unfold upperUnit.
  destruct ((97 <=? c) && (c <=? 122))%N eqn:E; [|now left].
  apply andb_true_iff in E as [E1 E2].
  apply N.leb_le in E1, E2. intros <-. right. lia.
Qed.

Lemma extension_units (ext : Str) :
  isExtension ext ->
  exists e1 e2 e3,
    ext = [e1; e2; e3]
    /\ ((chrI "p" e1 = true /\ chrI "d" e2 = true /\ chrI "f" e3 = true)
        \/ (chrI "p" e1 = false
            /\ chrI "t" e1 = true /\ chrI "x" e2 = true
            /\ chrI "t" e3 = true))
    /\ Forall (fun c => chr "." c = false) ext
    /\ Forall (fun c => isSlash c = false) ext.
Proof.
  intros [H|H];
    destruct ext as [|e1 [|e2 [|e3 [|e4 ext]]]]; try discriminate H;
    injection H as H1 H2 H3; exists e1, e2, e3; (split; [reflexivity|]);
    unfold chrI; rewrite H1, H2, H3;
    (split; [first [left; repeat split; reflexivity
                   |right; repeat split; reflexivity]|]);
    apply upperUnit_cases in H1, H2, H3;
    (split; repeat constructor);
    unfold isSlash, chr;
    repeat match goal with
           | H : _ \/ _ |- _ => destruct H as [->|[-> _]]
           end;
    reflexivity.
Qed.

Lemma matchAt_Group_eq (i : nat) (r1 : Regex) (prev : option CodeUnit) (s : Str)
  (caps : Caps) (k : option CodeUnit -> Str -> Caps -> option Found) :
  matchAt (Group i r1) prev s caps k
  = matchAt r1 prev s caps
      (fun prev' s' caps' =>
         k prev' s' ((i, firstn (length s - length s') s) :: caps')).
Proof. reflexivity. Qed.

Lemma matchAt_Alt (r1 r2 : Regex) (prev : option CodeUnit) (s : Str)
  (caps : Caps) (k : option CodeUnit -> Str -> Caps -> option Found) :
  matchAt (Alt r1 r2) prev s caps k
  = match matchAt r1 prev s caps k with
    | Some x => Some x
    | None => matchAt r2 prev s caps k
    end.
Proof. reflexivity. Qed.

Lemma matchAt_Eol (m : bool) (prev : option CodeUnit) (s : Str) (caps : Caps)
  (k : option CodeUnit -> Str -> Caps -> option Found) :
  matchAt (Eol m) prev s caps k = if atEol m s then k prev s caps else None.
Proof. reflexivity. Qed.

(** The extension and the end of the text, after the dot. *)
Lemma extension_matches (ext : Str) (prev : option CodeUnit) (caps : Caps) :
  isExtension ext ->
  exists p,
    matchAt (Group 2 (anyOf [word chrI "pdf"; word chrI "txt"])
             >> Eol false)%re prev ext caps found
    = Some (p, [], (2, ext) :: caps).
Proof.
  intros H.
  destruct (extension_units H) as (e1 & e2 & e3 & -> & Hc & _ & _).
  exists (Some e3).
  rewrite matchAt_Cat, matchAt_Group_eq. cbn [anyOf word].
  rewrite matchAt_Alt.
  destruct Hc as [(H1 & H2 & H3)|(H0 & H1 & H2 & H3)].
  - rewrite !matchAt_Cat, matchAt_hit by exact H1.
    rewrite !matchAt_Cat, matchAt_hit by exact H2.
    rewrite !matchAt_Cat, matchAt_hit by exact H3.
    rewrite matchAt_Empty, matchAt_Eol. reflexivity.
  - rewrite matchAt_Cat, matchAt_unit, H0.
    rewrite !matchAt_Cat, matchAt_hit by exact H1.
    rewrite !matchAt_Cat, matchAt_hit by exact H2.
    rewrite !matchAt_Cat, matchAt_hit by exact H3.
    rewrite matchAt_Empty, matchAt_Eol. reflexivity.
Qed.

(** Where a file name starts, the pattern matches it to the end of the
    text, and captures its stem. *)
Lemma fileName_matches (stem ext : Str) (prev : option CodeUnit) :
  stem <> [] ->
  Forall (fun c => isSlash c = false) stem ->
  isExtension ext ->
  exists p,
    matchAt fileNamePattern prev (stem ++ dot :: ext) [] found
    = Some (p, [], [(2, ext); (1, stem)]).
Proof.
  intros Hne Hstem Hext.
  destruct stem as [|c run]; [now contradiction Hne|].
  inversion Hstem as [|? ? Hc Hrun]; subst.
  assert (Hclass : forall x, isSlash x = false ->
                     negb (chr "/" x || chr "\" x) = true).
  { intros x Hx. unfold isSlash in Hx. now rewrite Hx. }
  destruct (extension_matches
              (Some dot) [(1, c :: run)] Hext) as [p Hp].
  exists p. unfold fileNamePattern, Plus.
  rewrite matchAt_Cat, matchAt_Group_eq, matchAt_Cat.
  cbn [app]. rewrite matchAt_hit by exact (Hclass c Hc).
  apply star_backtrack.
  - intros pre post prev' E Hpre _.
    destruct pre as [|d pre]; [now contradiction Hpre|].
    injection E as _ E.
    destruct (extension_units Hext) as (e1 & e2 & e3 & Ee & _ & Hdots & _).
    rewrite matchAt_Cat, matchAt_unit.
    destruct post as [|x post]; [reflexivity|].
    assert (Hx : In x ext) by (rewrite E; apply in_app_iff; right; now left).
    rewrite Forall_forall in Hdots. now rewrite (Hdots x Hx).
  - eapply Forall_impl; [|exact Hrun]. intros x Hx. now apply Hclass.
  - rewrite matchAt_Cat, matchAt_hit by reflexivity.
    pose proof (firstn_consumed (c :: run) (dot :: ext)) as Hf.
    cbn [app] in Hf. rewrite Hf. exact Hp.
Qed.

Lemma word3_found (a b c : ascii) (prev : option CodeUnit) (s : Str)
  (caps : Caps) (k : option CodeUnit -> Str -> Caps -> option Found)
  (res : Found) :
  matchAt (word chrI (String a (String b (String c EmptyString))))
    prev s caps k = Some res ->
  exists e1 e2 e3 s',
    s = e1 :: e2 :: e3 :: s'
    /\ chrI a e1 = true /\ chrI b e2 = true /\ chrI c e3 = true
    /\ k (Some e3) s' caps = Some res.
Proof.
  cbn [word]. rewrite matchAt_Cat, matchAt_unit.
  destruct s as [|e1 s]; [discriminate|].
  destruct (chrI a e1) eqn:H1; [|discriminate].
  rewrite matchAt_Cat, matchAt_unit.
  destruct s as [|e2 s]; [discriminate|].
  destruct (chrI b e2) eqn:H2; [|discriminate].
  rewrite matchAt_Cat, matchAt_unit.
  destruct s as [|e3 s]; [discriminate|].
  destruct (chrI c e3) eqn:H3; [|discriminate].
  rewrite matchAt_Empty. intros H. exists e1, e2, e3, s. auto.
Qed.

(** What follows the dot of a match is an extension, and ends the text. *)
Lemma extension_found (s : Str) (prev : option CodeUnit) (caps : Caps)
  (res : Found) :
  matchAt (Group 2 (anyOf [word chrI "pdf"; word chrI "txt"])
           >> Eol false)%re prev s caps found
  = Some res ->
  isExtension s /\ snd res = (2, s) :: caps.
Proof.
  rewrite matchAt_Cat, matchAt_Group_eq. cbn [anyOf]. rewrite matchAt_Alt.
  intros H.
  assert (Hword : exists a b c e1 e2 e3 s',
             (map upperUnit [N_of_ascii a; N_of_ascii b; N_of_ascii c]
              = lit "PDF"
              \/ map upperUnit [N_of_ascii a; N_of_ascii b; N_of_ascii c]
                 = lit "TXT")
             /\ s = e1 :: e2 :: e3 :: s'
             /\ chrI a e1 = true /\ chrI b e2 = true /\ chrI c e3 = true
             /\ matchAt (Eol false) (Some e3) s'
                  ((2, firstn (length s - length s') s) :: caps) found
                = Some res).
  { match type of H with
    | match ?first with _ => _ end = _ => destruct first as [x|] eqn:E
    end.
    - injection H as <-.
      apply word3_found in E as (e1 & e2 & e3 & s' & E).
      exists "p"%char, "d"%char, "f"%char, e1, e2, e3, s'.
      split; [left; reflexivity|exact E].
    - apply word3_found in H as (e1 & e2 & e3 & s' & H).
      exists "t"%char, "x"%char, "t"%char, e1, e2, e3, s'.
      split; [right; reflexivity|exact H]. }
  destruct Hword as (a & b & c & e1 & e2 & e3 & s' & Habc & -> & H1 & H2
                     & H3 & Hend).
  rewrite matchAt_Eol in Hend.
  destruct s' as [|x s']; [|discriminate Hend].
  injection Hend as <-. split; [|reflexivity].
  unfold chrI in H1, H2, H3. apply N.eqb_eq in H1, H2, H3.
  unfold isExtension. cbn [map] in *. rewrite H1, H2, H3. exact Habc.
Qed.

(** A match of the pattern is a file name that ends the text. *)
Lemma fileName_found (s : Str) (prev : option CodeUnit) (res : Found) :
  matchAt fileNamePattern prev s [] found = Some res ->
  exists stem ext,
    s = stem ++ dot :: ext
    /\ stem <> []
    /\ Forall (fun c => isSlash c = false) stem
    /\ isExtension ext
    /\ group 1 (snd res) = Some stem.
Proof.
  unfold fileNamePattern. rewrite matchAt_Cat. intros H.
  apply (@matchAt_group (fun c => isSlash c = false)) in H
    as (g & p1 & s1 & more & -> & Fg & Fm & Sg & H).
  2:{ cbn. split; intros c Hc; now apply negb_true_iff in Hc. }
  assert (Hmore : more = []).
  { destruct more as [|e more]; [reflexivity|].
    inversion Fm as [|? ? He _]; subst. cbn in He.
    now repeat destruct He as [He|He]. }
  subst more. cbn [app] in H.
  rewrite matchAt_Cat, matchAt_unit in H.
  destruct s1 as [|d s1]; [discriminate H|].
  destruct (chr "." d) eqn:Ed; [|discriminate H].
  apply N.eqb_eq in Ed. subst d.
  apply extension_found in H as [Hext Hres].
  exists g, s1. split; [reflexivity|]. split.
  - destruct (Sg (fun _ => True)) as (c & t & -> & _); [cbn; auto|].
    discriminate.
  - split; [exact Fg|]. split; [exact Hext|].
    rewrite Hres. reflexivity.
Qed.

(** The search passes over the positions where the pattern fails. *)
Lemma search_skip (r : Regex) (s0 : Str) (skipped : Str) :
  forall prev,
    (forall pre c post p,
       skipped = pre ++ c :: post ->
       matchAt r p (c :: post ++ s0) [] found = None) ->
    search r prev (skipped ++ s0)
    = search r (fold_left (fun _ c => Some c) skipped prev) s0.
Proof.
  induction skipped as [|c skipped IH]; intros prev H; [reflexivity|].
  cbn [app search fold_left]. fold found.
  rewrite (H [] c skipped prev eq_refl). apply IH.
  intros pre d post p E. apply (H (c :: pre) d post p). now rewrite E.
Qed.

Lemma extension_length (ext : Str) : isExtension ext -> length ext = 3.
Proof.
  intros [H|H]; apply (f_equal (@length CodeUnit)) in H;
    now rewrite length_map in H.
Qed.

(** The pattern finds the file name that ends a text, and its stem. *)
Lemma exec_fileName (text dir stem ext : Str) :
  EndsWithFileName text dir stem ext ->
  exists fileName,
    exec fileNamePattern text = Some fileName
    /\ group 1 (groups fileName) = Some stem.
Proof.
  intros (-> & Hdir & Hne & Hstem & Hext). unfold exec.
  rewrite search_skip.
  - destruct (fileName_matches
                (fold_left (fun _ c => Some c) dir None) Hne Hstem Hext)
      as [p Hp].
    rewrite (search_here _ _ _ Hp). eexists. split; [reflexivity|].
    reflexivity.
  - intros pre c post p E.
    destruct (matchAt fileNamePattern p (c :: post ++ stem ++ dot :: ext)
                [] found) as [res|] eqn:Em; [exfalso|reflexivity].
    apply fileName_found in Em as (stem' & ext' & E' & _ & Hstem' & Hext' & _).
    change (c :: post ++ stem ++ dot :: ext)
      with ((c :: post) ++ stem ++ dot :: ext) in E'.
    rewrite app_assoc in E'.
    apply app_same_length in E' as [E' _];
      [|cbn [length]; now rewrite !extension_length].
    assert (Hd : dir <> []) by (rewrite E; now destruct pre).
    destruct (exists_last Hd) as (earlier & x & El).
    rewrite El, lastOf_app in Hdir.
    assert (Hx : In x (c :: post)).
    { assert (Hcp : c :: post <> []) by discriminate.
      destruct (exists_last Hcp) as (front & y & Ey).
      rewrite Ey. apply in_app_iff; right; left.
      rewrite E, Ey, app_assoc in El.
      now apply app_inj_tail in El as [_ ->]. }
    rewrite Forall_forall in Hstem'.
    rewrite (Hstem' x) in Hdir; [discriminate|].
    rewrite <- E'. apply in_app_iff; now left.
Qed.

(** What the pattern finds is a file name that ends the text. *)
Lemma exec_fileName_found (text : Str) (fileName : Match) :
  exec fileNamePattern text = Some fileName ->
  exists dir stem ext, EndsWithFileName text dir stem ext.
Proof.
  intros H.
  apply search_leftmost in H as (skipped & prev' & s0 & -> & Hm & _ & Hskip).
  apply fileName_found in Hm as (stem & ext & -> & Hne & Hstem & Hext & _).
  exists skipped, stem, ext. split; [reflexivity|].
  split; [|auto].
  destruct (lastOf skipped) as [x|] eqn:El; [|exact I].
  apply lastOf_snoc in El as [earlier ->].
  destruct (Hskip earlier x [] eq_refl) as [p Hp].
  destruct (isSlash x) eqn:Ex; [reflexivity|exfalso].
  destruct (@fileName_matches (x :: stem) ext p) as [q Hq];
    [discriminate|now constructor|exact Hext|].
  cbn [app] in Hp, Hq. rewrite Hp in Hq. discriminate.
Qed.

Lemma replaceSeparators_spaced (stem : Str) :
  SpacedFrom stem (replaceSeparators stem).
Proof.
  unfold SpacedFrom, replaceSeparators.
  induction stem as [|c stem IH]; constructor; [reflexivity|exact IH].
Qed.

Section Title.

Variable toUpperCase : Str -> Str.

(** C7 (amended): title extraction keeps the first two title candidates
    (non-empty, shorter than 60, without a colon) among the first 10 lines,
    trimmed; it returns the second when there is one, it is entirely
    upper-case and the first is not, otherwise the first.  Without
    candidates it falls back to the file name that ends the first 100 code
    units of the raw input (a stem, from the last slash or backslash on, a
    dot and the extension pdf or txt in any case): the title is the stem
    with each underscore and hyphen replaced by a space, none removed.
    When there is no such file name it is the placeholder title. *)
Theorem title_selection (rawText : Str) (lines : list Str) :
  exists title,
    extractScriptTitle toUpperCase rawText lines = Returned title
    /\ match firstn 2 (filter isTitleCandidate (map trim (firstn 10 lines)))
       with
       | [] =>
           (forall dir stem ext,
              EndsWithFileName (firstn 100 rawText) dir stem ext ->
              SpacedFrom stem title)
           /\ ((forall dir stem ext,
                  ~ EndsWithFileName (firstn 100 rawText) dir stem ext) ->
               title = placeholderTitle)
       | [first] => title = first
       | first :: second :: _ =>
           title = if eqb_str (toUpperCase second) second
                      && negb (eqb_str (toUpperCase first) first)
                   then second else first
       end.
Proof.
  unfold extractScriptTitle.
  rewrite firstn_min_length, collectTitleCandidates_spec by (simpl; lia).
  cbn [app].
  destruct (firstn 2 _) as [|first [|second others]].
  - unfold substring0.
    destruct (exec fileNamePattern (firstn 100 rawText)) as [fileName|] eqn:E.
    + destruct (exec_fileName_found _ E) as (dir0 & stem0 & ext0 & H0).
      destruct (exec_fileName H0) as (fileName0 & E0 & G0).
      rewrite E in E0; injection E0 as <-. rewrite G0. cbn [defined bind].
      eexists; split; [reflexivity|]. split.
      * intros dir stem ext H.
        destruct (exec_fileName H) as (fileName1 & E1 & G1).
        rewrite E in E1; injection E1 as <-.
        rewrite G0 in G1; injection G1 as <-.
        apply replaceSeparators_spaced.
      * intros Hnone. now contradiction (Hnone dir0 stem0 ext0).
    + eexists; split; [reflexivity|]. split; [|reflexivity].
      intros dir stem ext H.
      destruct (exec_fileName H) as (fileName1 & E1 & _).
      rewrite E in E1; discriminate.
  - eauto.
  - destruct (_ && _); eauto.
Qed.

End Title.

(** C7, counterexample: the underscore and the hyphen of a file name are
    not stripped: the title has a space in the place of each. *)
Lemma title_separators_not_stripped :
  firstn 2 (filter isTitleCandidate
              (map trim (firstn 10 [lit "C:\docs\my_play-v2.TXT"]))) = []
  /\ EndsWithFileName (firstn 100 (lit "C:\docs\my_play-v2.TXT"))
       (lit "C:\docs\") (lit "my_play-v2") (lit "TXT")
  /\ extractScriptTitle asciiToUpperCase (lit "C:\docs\my_play-v2.TXT")
       [lit "C:\docs\my_play-v2.TXT"]
     = Returned (lit "my play v2")
  /\ lit "my play v2"
     <> filter (fun c => negb (chr "_" c || chr "-" c)) (lit "my_play-v2").
Proof.
  split; [vm_compute; reflexivity|]. split.
  - split; [vm_compute; reflexivity|]. split; [vm_compute; reflexivity|].
    split; [discriminate|].
    split; [repeat constructor|right; reflexivity].
  - split; [vm_compute; reflexivity|vm_compute; discriminate].
Qed.

(** ** One detection per line *)

(** Inside a line, a pattern anchored at the start of a line matches at the
    start only, unless the line holds a line terminator. *)
Lemma search_inside_line (r : Regex) (s : Str) :
  forall c,
    isLineTerminator c = false ->
    Forall (fun x => isLineTerminator x = false) s ->
    search (Cat (Bol true) r) (Some c) s = None.
Proof.
  induction s as [|x s IH]; intros c Hc Hs; cbn [search];
    rewrite matchAt_Cat, matchAt_Bol; cbn [atBol andb]; rewrite Hc;
    [reflexivity|].
  inversion Hs; subst. now apply IH.
Qed.

Lemma exec_line_start (r : Regex) (line : Str) (m : Match) :
  Forall (fun x => isLineTerminator x = false) line ->
  exec (Cat (Bol true) r) line = Some m ->
  exists res, matchAt r None line [] found = Some res.
Proof.
  intros Hl. unfold exec.
  destruct (matchAt r None line [] found) as [res|] eqn:E; [eauto|].
  destruct line as [|c line]; cbn [search]; fold found;
    rewrite matchAt_Cat, matchAt_Bol; cbn [atBol]; rewrite E;
    [discriminate|].
  inversion Hl; subst. now rewrite search_inside_line.
Qed.

Lemma letterOrSpace_upper (c : CodeUnit) :
  upperAZ c = true -> letterOrSpace c = true.
Proof. intros H; unfold letterOrSpace; now rewrite H. Qed.

Lemma letterOrSpace_space (c : CodeUnit) :
  isWhiteSpace c = true -> letterOrSpace c = true.
Proof. intros H; unfold letterOrSpace; rewrite H; apply orb_true_r. Qed.

(** What each of the three patterns asks of a line it matches from its
    start: letters and whitespace up to a colon; letters and whitespace up
    to an opening parenthesis; letters and whitespace only. *)
Lemma pattern1_line (line : Str) (res : Found) :
  matchAt (Group 1 nameBody >> One (chr ":"))%re None line [] found
  = Some res ->
  exists g rest,
    line = g ++ colon :: rest /\ Forall (fun c => letterOrSpace c = true) g.
Proof.
  rewrite matchAt_Cat. intros H.
  apply (@matchAt_group (fun c => letterOrSpace c = true)) in H
    as (g & p1 & s1 & more & -> & Fg & _ & _ & H).
  2:{ cbn. split; [apply letterOrSpace_upper|]. split; auto. }
  rewrite matchAt_unit in H.
  destruct s1 as [|c s1]; [discriminate H|].
  destruct (chr ":" c) eqn:Ec; [|discriminate H].
  apply N.eqb_eq in Ec. subst c. exists g, s1. now split.
Qed.

Lemma pattern2_line (line : Str) (res : Found) :
  matchAt (Group 1 nameBody >> Plus (One isWhiteSpace) >> One (chr "("))%re
    None line [] found
  = Some res ->
  exists g rest,
    line = g ++ N_of_ascii "(" :: rest
    /\ Forall (fun c => letterOrSpace c = true) g.
Proof.
  rewrite matchAt_Cat. intros H.
  apply (@matchAt_group (fun c => letterOrSpace c = true)) in H
    as (g & p1 & s1 & more & -> & Fg & _ & _ & H).
  2:{ cbn. split; [apply letterOrSpace_upper|]. split; auto. }
  rewrite matchAt_Cat in H.
  apply (@matchAt_trace (fun c => letterOrSpace c = true)) in H
    as (w & p2 & s2 & more2 & -> & Fw & _ & _ & H).
  2:{ cbn. split; apply letterOrSpace_space. }
  rewrite matchAt_unit in H.
  destruct s2 as [|c s2]; [discriminate H|].
  destruct (chr "(" c) eqn:Ec; [|discriminate H].
  apply N.eqb_eq in Ec. subst c. exists (g ++ w), s2.
  split; [now rewrite <- app_assoc|]. apply Forall_app; now split.
Qed.

Lemma pattern3_line (line : Str) (res : Found) :
  Forall (fun x => isLineTerminator x = false) line ->
  matchAt (Star (One isWhiteSpace)
           >> Group 1 (One upperAZ >> One upperAZ >> Star (One upperAZ))
           >> Star (One isWhiteSpace) >> Eol true)%re None line [] found
  = Some res ->
  Forall (fun c => letterOrSpace c = true) line.
Proof.
  intros Hl. rewrite matchAt_Cat. intros H.
  apply (@matchAt_trace (fun c => letterOrSpace c = true)) in H
    as (w1 & p1 & s1 & more1 & -> & F1 & _ & _ & H).
  2:{ cbn. apply letterOrSpace_space. }
  rewrite matchAt_Cat in H.
  apply (@matchAt_group (fun c => letterOrSpace c = true)) in H
    as (g & p2 & s2 & more2 & -> & F2 & _ & _ & H).
  2:{ cbn. repeat split; apply letterOrSpace_upper. }
  rewrite matchAt_Cat in H.
  apply (@matchAt_trace (fun c => letterOrSpace c = true)) in H
    as (w2 & p3 & s3 & more3 & -> & F3 & _ & _ & H).
  2:{ cbn. apply letterOrSpace_space. }
  rewrite matchAt_Eol in H.
  destruct s3 as [|c s3].
  - rewrite app_nil_r. repeat (apply Forall_app; split); assumption.
  - cbn [atEol andb] in H.
    assert (Hc : isLineTerminator c = false).
    { rewrite Forall_forall in Hl. apply Hl.
      repeat (apply in_app_iff; right). now left. }
    rewrite Hc in H. discriminate H.
Qed.

(** The first unit of a text that is outside a class. *)
Lemma first_outside (P : CodeUnit -> Prop) (a b : Str) (x y : CodeUnit)
  (r r' : Str) :
  a ++ x :: r = b ++ y :: r' ->
  Forall P a -> Forall P b -> ~ P x -> ~ P y -> x = y.
Proof.
  revert b. induction a as [|c a IH]; intros [|d b] E Ha Hb Hx Hy;
    cbn [app] in E; injection E as E1 E2.
  - exact E1.
  - subst x. inversion Hb; subst. contradiction.
  - subst y. inversion Ha; subst. contradiction.
  - inversion Ha; subst. inversion Hb; subst. eauto.
Qed.

Section OnePerLine.

Variable toUpperCase : Str -> Str.

(** On a line without line terminator at most one of the three patterns
    finds a name. *)
Lemma one_detection_per_line (line : Str) :
  Forall (fun x => isLineTerminator x = false) line ->
  length (detectedOn toUpperCase line) <= 1.
Proof.
  intros Hl.
  assert (Hone : forall pattern,
             length match candidateName line pattern with
                    | Some characterName =>
                        if qualifies toUpperCase characterName
                        then [characterName] else []
                    | None => []
                    end <= 1).
  { intros pattern. destruct (candidateName line pattern) as [n|]; [|simpl; lia].
    destruct (qualifies toUpperCase n); simpl; lia. }
  assert (Hnone : forall pattern,
             exec pattern line = None ->
             match candidateName line pattern with
             | Some characterName =>
                 if qualifies toUpperCase characterName
                 then [characterName] else []
             | None => []
             end = []).
  { intros pattern E. unfold candidateName. now rewrite E. }
  assert (Hcolon : letterOrSpace colon <> true) by (vm_compute; discriminate).
  assert (Hparen : letterOrSpace (N_of_ascii "(") <> true)
    by (vm_compute; discriminate).
  unfold detectedOn, characterPatterns. cbn [flat_map]. rewrite app_nil_r.
  set (p1 := (Bol true >> Group 1 nameBody >> One (chr ":"))%re) in *.
  set (p2 := (Bol true >> Group 1 nameBody >> Plus (One isWhiteSpace)
              >> One (chr "("))%re) in *.
  set (p3 := (Bol true >> Star (One isWhiteSpace)
              >> Group 1 (One upperAZ >> One upperAZ >> Star (One upperAZ))
              >> Star (One isWhiteSpace) >> Eol true)%re) in *.
  pose proof (Hone p1) as H1. pose proof (Hone p2) as H2.
  pose proof (Hone p3) as H3.
  pose proof (Hnone p1) as N1. pose proof (Hnone p2) as N2.
  pose proof (Hnone p3) as N3.
  destruct (exec p1 line) as [m1|] eqn:E1;
    [unfold p1 in E1; apply exec_line_start in E1 as [r1 E1]; [|exact Hl];
     apply pattern1_line in E1 as (g1 & rest1 & L1 & F1)
    |rewrite (N1 eq_refl)];
    (destruct (exec p2 line) as [m2|] eqn:E2;
     [unfold p2 in E2; apply exec_line_start in E2 as [r2 E2]; [|exact Hl];
      apply pattern2_line in E2 as (g2 & rest2 & L2 & F2)
     |rewrite (N2 eq_refl)]);
    (destruct (exec p3 line) as [m3|] eqn:E3;
     [unfold p3 in E3; apply exec_line_start in E3 as [r3 E3]; [|exact Hl];
      apply (pattern3_line Hl) in E3
     |rewrite (N3 eq_refl)]);
    rewrite ?app_nil_r; cbn [app length]; try assumption; try lia; exfalso.
  - rewrite L1 in E3. apply Forall_app in E3 as [_ E3].
    inversion E3; subst. contradiction.
  - rewrite L1 in L2.
    pose proof (@first_outside _ _ _ _ _ _ _ L2 F1 F2 Hcolon Hparen) as Habs.
    discriminate Habs.
  - rewrite L1 in E3. apply Forall_app in E3 as [_ E3].
    inversion E3; subst. contradiction.
  - rewrite L2 in E3. apply Forall_app in E3 as [_ E3].
    inversion E3; subst. contradiction.
Qed.

End OnePerLine.

(** The lines of a text hold its code units other than the newline. *)
Lemma split_nl_units (P : CodeUnit -> Prop) (s : Str) :
  Forall (fun c => c <> 10%N -> P c) s -> Forall (Forall P) (split_nl s).
Proof.
  induction 1 as [|c s Hc _ IH]; cbn [split_nl]; [repeat constructor|].
  destruct (c =? 10)%N eqn:E.
  - constructor; [constructor|exact IH].
  - apply N.eqb_neq in E.
    destruct (split_nl s) as [|l ls]; [repeat constructor; auto|].
    inversion IH; subst. constructor; [|assumption].
    constructor; auto.
Qed.

(** A document without carriage return, line separator or paragraph
    separator has no line that two patterns detect. *)
Lemma plain_document_lines (toUpperCase : Str -> Str) (rawText : Str) :
  Forall (fun c => c <> 13%N /\ c <> 8232%N /\ c <> 8233%N) rawText ->
  Forall (fun line => length (detectedOn toUpperCase line) <= 1)
    (split_nl rawText).
Proof.
  intros H.
  assert (Hl : Forall (Forall (fun x => isLineTerminator x = false))
                 (split_nl rawText)).
  { apply split_nl_units. eapply Forall_impl; [|exact H].
    intros c (H13 & H28 & H29) H10. unfold isLineTerminator.
    apply N.eqb_neq in H10, H13, H28, H29.
    now rewrite H10, H13, H28, H29. }
  eapply Forall_impl; [|exact Hl].
  intros line. apply one_detection_per_line.
Qed.

(** ** Occurrences of a name *)

Section Occurrences.

Variable toUpperCase : Str -> Str.

Lemma detectedNames_lines (lines : list Str) :
  detectedNames toUpperCase lines = flat_map (detectedOn toUpperCase) lines.
Proof. reflexivity. Qed.

Lemma eqb_str_sym (a b : Str) : eqb_str a b = eqb_str b a.
Proof.
  destruct (eqb_str b a) eqn:E.
  - apply eqb_str_eq in E. subst. apply eqb_str_refl.
  - apply eqb_str_neq in E. apply eqb_str_neq. congruence.
Qed.

(** Where no line is detected by two patterns, the tally of a name is the
    number of lines that name it. *)
Lemma tally_occurrences (lines : list Str) (name : Str) :
  Forall (fun line => length (detectedOn toUpperCase line) <= 1) lines ->
  tally (detectedNames toUpperCase lines) name
  = occurrences toUpperCase lines name.
Proof.
  rewrite detectedNames_lines. unfold tally, occurrences.
  induction 1 as [|line lines Hl _ IH]; [reflexivity|].
  cbn [flat_map filter]. rewrite filter_app, length_app, IH.
  unfold namedOn at 2.
  destruct (detectedOn toUpperCase line) as [|x [|y more]];
    [reflexivity| |simpl in Hl; lia].
  cbn [filter existsb]. rewrite orb_false_r.
  now destruct (eqb_str name x).
Qed.

(** And the names are first detected in the order of the lines that first
    name them. *)
Lemma firstSeen_firstLine (lines : list Str) (a b : Str) :
  Forall (fun line => length (detectedOn toUpperCase line) <= 1) lines ->
  In a (detectedNames toUpperCase lines) ->
  In b (detectedNames toUpperCase lines) ->
  firstSeen a (detectedNames toUpperCase lines)
  < firstSeen b (detectedNames toUpperCase lines)
  <-> firstLine toUpperCase a lines < firstLine toUpperCase b lines.
Proof.
  rewrite detectedNames_lines.
  induction 1 as [|line lines Hl _ IH]; [intros []|].
  cbn [flat_map firstLine]. unfold namedOn.
  destruct (detectedOn toUpperCase line) as [|x [|y more]];
    [| |simpl in Hl; lia].
  - cbn [app existsb]. intros Ha Hb. pose proof (IH Ha Hb). lia.
  - cbn [app existsb firstSeen]. rewrite !orb_false_r.
    rewrite (eqb_str_sym a x), (eqb_str_sym b x).
    intros Ha Hb.
    destruct (eqb_str x a) eqn:Ea, (eqb_str x b) eqn:Eb; try lia.
    apply eqb_str_neq in Ea, Eb.
    destruct Ha as [Ha|Ha]; [contradiction|].
    destruct Hb as [Hb|Hb]; [contradiction|].
    pose proof (IH Ha Hb). lia.
Qed.

Lemma occurrences_split (before after : list Str) (line name : Str) :
  (forall other, In other (before ++ after) ->
     namedOn toUpperCase name other = false) ->
  occurrences toUpperCase (before ++ line :: after) name <= 1.
Proof.
  intros H. unfold occurrences.
  assert (Hnone : forall l, (forall other, In other l ->
                               namedOn toUpperCase name other = false) ->
                            filter (namedOn toUpperCase name) l = []).
  { induction l as [|x l IH]; intros Hl; [reflexivity|].
    cbn [filter]. rewrite (Hl x) by now left.
    apply IH. intros other Ho. apply Hl. now right. }
  rewrite filter_app. cbn [filter].
  rewrite (Hnone before), (Hnone after);
    try (intros other Ho; apply H, in_app_iff; auto).
  cbn [app]. destruct (namedOn toUpperCase name line); simpl; lia.
Qed.

(** C3 (amended): in a document no line of which is detected by more than
    one of the name patterns, the catalog built by [analyzeScriptText]
    holds exactly the detected names (names of length at most 1 and
    stop-listed words discarded) that occur at least twice in the document,
    that is, on at least two lines, each once, by descending number of
    occurrences with ties in first-seen order, with ids "1", "2", ... in
    that order; a name that occurs on no line but one is not in it.  The
    catalog of [parseScript], whenever it returns, lists instead every cue
    name it meets, once, in first-seen order, with ids "1", "2", ... *)
Theorem catalog_by_frequency (rawText : Str) :
  (Forall (fun line => length (detectedOn toUpperCase line) <= 1)
     (split_nl rawText) ->
   exists script,
     analyzeScriptText toUpperCase rawText = Returned script
     /\ NoDup (map Character.name (Script.characters script))
     /\ (forall name,
           In name (map Character.name (Script.characters script))
           <-> 2 <= occurrences toUpperCase (split_nl rawText) name)
     /\ StronglySorted (listedBefore toUpperCase (split_nl rawText))
          (map Character.name (Script.characters script))
     /\ map Character.id (Script.characters script)
        = map toString (seq 1 (length (Script.characters script)))
     /\ (forall name before line after,
           split_nl rawText = before ++ line :: after ->
           (forall other, In other (before ++ after) ->
              namedOn toUpperCase name other = false) ->
           ~ In name (map Character.name (Script.characters script))))
  /\ (forall script,
        parseScript rawText = Returned script ->
        map Character.name (Script.characters script)
        = distinct (cueNames (parsedLines rawText))
        /\ map Character.id (Script.characters script)
           = map toString (seq 1 (length (Script.characters script)))).
Proof.
  split; [|intros script; apply parseScript_catalog].
  intros Hone.
  destruct (analyzeScriptText_returns toUpperCase rawText)
    as (st & title & HR & _ & E).
  eexists; split; [exact E|]. cbn [Script.characters].
  destruct (catalog_spec toUpperCase (split_nl rawText) eq_refl)
    as (Hnd & Hin & Hsort & Hid).
  assert (Hocc : forall name,
             In name (map Character.name
                        (Map_values
                           (buildCharacterMap
                              (likelyCharacters
                                 (countMentions toUpperCase
                                    (split_nl rawText))))))
             <-> 2 <= occurrences toUpperCase (split_nl rawText) name).
  { intros name. rewrite Hin. now rewrite tally_occurrences. }
  split; [exact Hnd|]. split; [exact Hocc|]. split; [|split; [exact Hid|]].
  - eapply StronglySorted_weaken; [|exact Hsort].
    intros a b Ha Hb. unfold ranksBefore, listedBefore.
    rewrite !tally_occurrences by exact Hone.
    apply Hin in Ha, Hb.
    assert (Ia : In a (detectedNames toUpperCase (split_nl rawText)))
      by (apply tally_pos; lia).
    assert (Ib : In b (detectedNames toUpperCase (split_nl rawText)))
      by (apply tally_pos; lia).
    rewrite (firstSeen_firstLine a b Hone Ia Ib). tauto.
  - intros name before line after Es Hother Hname.
    apply Hocc in Hname. rewrite Es in Hname.
    pose proof (occurrences_split before after line name Hother). lia.
Qed.

End Occurrences.

(** C3, counterexample: a name that occurs exactly once in the document is
    listed, by [parseScript] because it keeps no tally, and by
    [analyzeScriptText] when two of its patterns detect the name on the
    same line. *)
Lemma single_occurrence_listed :
  (occurrences asciiToUpperCase (split_nl (lit "ROMEO: Hi")) (lit "ROMEO") = 1
   /\ exists script,
        parseScript (lit "ROMEO: Hi") = Returned script
        /\ Script.characters script = [romeo])
  /\ (split_nl crInsideLine = [crInsideLine]
      /\ occurrences asciiToUpperCase (split_nl crInsideLine) (lit "ROMEO") = 1
      /\ detectedOn asciiToUpperCase crInsideLine = [lit "ROMEO"; lit "ROMEO"]
      /\ exists script,
           analyzeScriptText asciiToUpperCase crInsideLine = Returned script
           /\ Script.characters script = [romeo]).
Proof.
  split.
  - split; [vm_compute; reflexivity|].
    eexists; split; vm_compute; reflexivity.
  - split; [vm_compute; reflexivity|]. split; [vm_compute; reflexivity|].
    split; [vm_compute; reflexivity|].
    eexists; split; vm_compute; reflexivity.
Qed.

(** Two speakers with two cues each: ROMEO, first named on the first line,
    comes first. *)
Lemma catalog_by_frequency_witness :
  Forall (fun line => length (detectedOn asciiToUpperCase line) <= 1)
    (split_nl twoSpeakers)
  /\ exists script,
       analyzeScriptText asciiToUpperCase twoSpeakers = Returned script
       /\ NoDup (map Character.name (Script.characters script))
       /\ (forall name,
             In name (map Character.name (Script.characters script))
             <-> 2 <= occurrences asciiToUpperCase (split_nl twoSpeakers) name)
       /\ StronglySorted (listedBefore asciiToUpperCase (split_nl twoSpeakers))
            (map Character.name (Script.characters script))
       /\ map Character.id (Script.characters script)
          = map toString (seq 1 (length (Script.characters script)))
       /\ (forall name before line after,
             split_nl twoSpeakers = before ++ line :: after ->
             (forall other, In other (before ++ after) ->
                namedOn asciiToUpperCase name other = false) ->
             ~ In name (map Character.name (Script.characters script))).
Proof.
  assert (H : Forall (fun line =>
                        length (detectedOn asciiToUpperCase line) <= 1)
                (split_nl twoSpeakers)).
  { apply Forall_forall. intros line Hin. apply Nat.leb_le.
    revert line Hin. apply forallb_forall. vm_compute. reflexivity. }
  split; [exact H|].
  exact (proj1 (catalog_by_frequency asciiToUpperCase twoSpeakers) H).
Defined.
